(** * ItsyPSD: a shallow embedding of [psd::load] (itsypsd.cpp)

    The decoder is one C++ member function, [psd::load], on top of four
    cursor helpers ([read32], [read16], [read8], [skip]).  It is embedded
    here as a state-and-failure computation over the file's bytes:

    - the two pointers [offset] and [e] become offsets into the byte
      vector [v] (an integer in [Z]; [e] is the length of [v]); the
      vector itself is read-only and is passed along by the monad.
      Offsets do not wrap, so the guard [i + n < i] of the helpers is
      kept as written but never fires for the amounts the decoder
      passes;
    - 32-, 16- and 8-bit unsigned arithmetic is written with its
      wrap-around ([wrap32], [wrap16], [wrap8]);
    - [throw], [return false], [assert(0)] and the behaviours C++ leaves
      undefined (element access on an empty vector, a dereference or a
      copy that leaves the buffer, [pop_back] on an empty vector) are the
      constructors of [failure]; pointer arithmetic that leaves the
      buffer (lines 201 and 207) moves the offset and is not tracked;
    - the members of the [psd] object that [load] assigns ([width],
      [height], [layers]) live in the machine state, so that what a caller
      can observe after a failure is part of the model. *)

From Stdlib Require Import ZArith List Bool Lia.
From Stdlib.Strings Require Import String Ascii Byte.
From stdpp Require Import base list.
Import ListNotations.

Local Open Scope Z_scope.

(** ** Machine integers *)

Definition wrap8 (z : Z) : Z := z mod 2 ^ 8.
Definition wrap16 (z : Z) : Z := z mod 2 ^ 16.
Definition wrap32 (z : Z) : Z := z mod 2 ^ 32.

(** [(int16_t) x] for [x] an unsigned 16-bit value. *)
Definition int16_of (z : Z) : Z :=
  let u := wrap16 z in if u <? 2 ^ 15 then u else u - 2 ^ 16.

(** Conversion of a (possibly negative) pointer difference to [size_t]
    (64-bit). *)
Definition size_t_of (z : Z) : Z := z mod 2 ^ 64.

(** [(uint8_t) c] for a [char] of the buffer. *)
Definition u8 (b : byte) : Z := Z.of_N (Byte.to_N b).

(** The character appended by [name += read8(...)]. *)
Definition char_of (z : Z) : ascii := ascii_of_N (Z.to_N (wrap8 z)).

(** ** Data *)

(** [struct layer::channel] (local to [psd::load]). *)
Record channel := mk_channel {
  kind : Z;              (* 0 = red, 1 = green, 2 = blue, -1 = transparency mask, ... *)
  data : list byte
}.

(** [struct layer] (local to [psd::load]): a raw, on-disk layer. *)
Record raw_layer := mk_raw_layer {
  top : Z; left : Z; bot : Z; right : Z;
  raw_name : string;
  is_group : bool;
  channels : list channel
}.

(** Modelled from the spec: itsypsd.h, which declares [psd], [psd::layer]
    and [psd::pixel], is not among the sources.  Following the data model
    of the specification, an output layer has a path [name] (a sequence of
    segments), the canvas [width] and [height] (unsigned integers) and a
    sequence of packed pixels of length width x height; canvas arithmetic
    ([width * height], [x + y * width]) is therefore taken without
    wrap-around. *)
Record layer := mk_layer {
  name : list string;
  layer_width : Z;
  layer_height : Z;
  pixels : list Z
}.

(** The members of the [psd] object written by [load]. *)
Record psd := mk_psd {
  width : Z;
  height : Z;
  layers : list layer
}.

(** ** Outcomes *)

Inductive failure :=
| ReturnedFalse                (* [return false]                              *)
| Thrown (what : string)       (* [throw "Truncated PSD"], [std::length_error] *)
| AssertFailed                 (* [assert(0)]                                  *)
| Undefined (what : string)    (* undefined behaviour in C++                   *)
| OutOfFuel.                   (* artefact of the model, shown unreachable     *)

Inductive result (A : Type) :=
| Ok (a : A)
| Fail (f : failure).
Arguments Ok {A} a.
Arguments Fail {A} f.

(** ** Machine state

    [length_fields] is specification-only bookkeeping: the offsets at which
    the per-channel byte-length field of a layer record (line 147) was
    read.  No branch of the model inspects it. *)
Record machine := mk_machine {
  offset : Z;
  self : psd;
  cerr : list string;
  length_fields : list Z
}.

Definition set_offset (i : Z) (s : machine) : machine :=
  mk_machine i (self s) (cerr s) (length_fields s).
Definition set_self (p : psd) (s : machine) : machine :=
  mk_machine (offset s) p (cerr s) (length_fields s).
Definition add_cerr (msg : string) (s : machine) : machine :=
  mk_machine (offset s) (self s) (cerr s ++ [msg]) (length_fields s).
Definition add_length_field (i : Z) (s : machine) : machine :=
  mk_machine (offset s) (self s) (cerr s) (length_fields s ++ [i]).

(** ** The monad: a read-only buffer, and state that survives a failure *)

Definition M (A : Type) : Type := list byte -> machine -> result A * machine.

Definition ret {A} (a : A) : M A := fun _ s => (Ok a, s).
Definition bind {A B} (m : M A) (f : A -> M B) : M B :=
  fun v s => match m v s with
             | (Ok a, s') => f a v s'
             | (Fail x, s') => (Fail x, s')
             end.
Definition raise {A} (x : failure) : M A := fun _ s => (Fail x, s).
Definition get : M machine := fun _ s => (Ok s, s).
Definition modify (f : machine -> machine) : M unit := fun _ s => (Ok tt, f s).

(** [v.size()] *)
Definition buffer_size : M nat := fun v s => (Ok (length v), s).

(** [char * e = offset + v.size()] *)
Definition e (v : list byte) : Z := Z.of_nat (length v).

Declare Scope psd_scope.
Delimit Scope psd_scope with psd.
Notation "'let*' x ':=' m 'in' k" := (bind m (fun x => k))
  (at level 10, x name, m at level 100, k at level 200) : psd_scope.
Notation "m1 ';;' m2" := (bind m1 (fun _ => m2))
  (at level 100, m2 at level 200, right associativity, only parsing) : psd_scope.
Local Open Scope psd_scope.

(** Loops that run a body a fixed number of times, or once per element,
    collecting the results. *)
Fixpoint replicateM {A} (n : nat) (m : M A) : M (list A) :=
  match n with
  | O => ret []
  | S n' => let* a := m in
            let* l := replicateM n' m in
            ret (a :: l)
  end.

Fixpoint mapM {A B} (f : A -> M B) (l : list A) : M (list B) :=
  match l with
  | [] => ret []
  | a :: l' => let* b := f a in
               let* bs := mapM f l' in
               ret (b :: bs)
  end.

Fixpoint foldM {A B} (f : B -> A -> M B) (b : B) (l : list A) : M B :=
  match l with
  | [] => ret b
  | a :: l' => let* b' := f b a in foldM f b' l'
  end.

Definition truncated : string := "Truncated PSD".
Definition group_end : string := "</Layer group>".

(** Channel kind to bit position, lines 256-265: [Some shift], or [None]
    for a kind the compositor ignores. *)
Definition channel_shift (k : Z) : option Z :=
  if (0 <=? k) && (k <=? 2) then Some (k * 8)
  else if k =? -1 then Some (3 * 8)
  else None.

(** ** Compositor, lines 267-274

    One pass of the [while (i < data.size())] loop per byte. *)
Fixpoint blit (cw ch : Z) (lft rgt : Z) (shift : Z)
    (bytes : list byte) (x y : Z) (px : list Z) : list Z :=
  match bytes with
  | [] => px
  | b :: rest =>
      let color := u8 b in
      let px' := if (x <? cw) && (y <? ch)
                 then alter (fun p => Z.lor p (Z.shiftl color shift))
                            (Z.to_nat (x + y * cw)) px
                 else px in
      let x1 := wrap32 (x + 1) in
      if x1 >=? rgt
      then blit cw ch lft rgt shift rest lft (wrap32 (y - 1)) px'
      else blit cw ch lft rgt shift rest x1 y px'
  end.

Section Load.
Variable filename : string.

Definition message (text : string) : string :=
  String.append "psd::load " (String.append filename (String.append " -- " text)).

(** *** Byte cursor, lines 42-72 *)

(** [(uint8_t)*i++]: dereferencing outside the buffer is undefined. *)
Definition deref_incr : M Z := fun v s =>
  let i := offset s in
  if (0 <=? i) && (i <? e v) then
    match v !! Z.to_nat i with
    | Some b => (Ok (u8 b), set_offset (i + 1) s)
    | None => (Fail (Undefined "read outside the buffer"), s)
    end
  else (Fail (Undefined "read outside the buffer"), s).

Definition shl8_or (value b : Z) : Z := Z.lor (wrap32 (Z.shiftl value 8)) b.

Definition read32 : M Z := fun v s =>
  let i := offset s in
  if (i + 4 >? e v) || (i + 4 <? i) then (Fail (Thrown truncated), s)
  else (let* b0 := deref_incr in
        let* b1 := deref_incr in
        let* b2 := deref_incr in
        let* b3 := deref_incr in
        ret (shl8_or (shl8_or (shl8_or (shl8_or 0 b0) b1) b2) b3)) v s.

Definition read16 : M Z := fun v s =>
  let i := offset s in
  if (i + 2 >? e v) || (i + 2 <? i) then (Fail (Thrown truncated), s)
  else (let* b0 := deref_incr in
        let* b1 := deref_incr in
        ret (shl8_or (shl8_or 0 b0) b1)) v s.

Definition read8 : M Z := fun v s =>
  let i := offset s in
  if i + 1 >? e v then (Fail (Thrown truncated), s)
  else deref_incr v s.

Definition skip (amt : Z) : M unit := fun v s =>
  let i := offset s in
  if (i + amt >? e v) || (i + amt <? i) then (Fail (Thrown truncated), s)
  else (Ok tt, set_offset (i + amt) s).

(** [offset += n], with no check (lines 201 and 207). *)
Definition advance (n : Z) : M unit := modify (fun s => set_offset (offset s + n) s).

(** [std::copy(offset, offset + n, back_inserter(...))], line 200: reads
    the [n] bytes at the cursor without moving it; undefined when the
    range leaves the buffer. *)
Definition copy_from_cursor (n : Z) : M (list byte) := fun v s =>
  let i := offset s in
  if n =? 0 then (Ok [], s)
  else if (0 <=? i) && (i + n <=? e v)
       then (Ok (take (Z.to_nat n) (drop (Z.to_nat i) v)), s)
       else (Fail (Undefined "copy outside the buffer"), s).

(** [cerr << "psd::load " << filename << " -- ..." << endl] *)
Definition log (text : string) : M unit := modify (add_cerr (message text)).

(** [if (!ok) { cerr << ...; return false; }] *)
Definition check (ok : bool) (text : string) : M unit :=
  if ok then ret tt else (log text ;; raise ReturnedFalse).

(** *** Layer records, lines 139-188 *)

(** Lines 146-147: the channel's kind, then its byte length, which is
    read and dropped. *)
Definition read_channel_info : M channel :=
  let* k := read16 in
  let* s := get in
  let* length := read32 in
  modify (add_length_field (offset s)) ;;
  ret (mk_channel (int16_of k) []).

(** Lines 179-180: [while (len & 3) read8(offset, e), len++;]
    ([n] bounds the number of turns; three are enough,
    [name_padding_enough]). *)
Fixpoint name_padding (n : nat) (len : Z) : M unit :=
  match n with
  | O => ret tt
  | S n' => if Z.land len 3 =? 0 then ret tt
            else (read8 ;; name_padding n' (wrap32 (len + 1)))
  end.

Definition string_of_chars (cs : list Z) : string :=
  fold_right (fun c acc => String (char_of c) acc) EmptyString cs.

(** Lines 175-181. *)
Definition read_name : M string :=
  let* n := read8 in
  let len := 1 + n in
  let* cs := replicateM (Z.to_nat (len - 1)) read8 in
  name_padding 3 len ;;
  ret (string_of_chars cs).

(** One turn of the loop of lines 139-188.  The last skip takes the
    pointer difference [end_extradata - offset] as a [size_t]. *)
Definition read_layer_record : M raw_layer :=
  let* t := read32 in
  let* l := read32 in
  let* b := read32 in
  let* r := read32 in
  let* nch := read16 in
  let* chs := replicateM (Z.to_nat nch) read_channel_info in
  let* sig := read32 in
  check (sig =? 0x3842494D) "Invalid signature on layer" ;;
  let* blend := read32 in
  let* opacity := read8 in
  let* clipping := read8 in
  let* flags := read8 in
  read8 ;;
  let* len_extradata := read32 in
  let* s := get in
  let end_extradata := offset s + len_extradata in
  let* layer_masklength := read32 in
  skip layer_masklength ;;
  let* len_blendingranges := read32 in
  skip len_blendingranges ;;
  let* nm := read_name in
  let* s' := get in
  skip (size_t_of (end_extradata - offset s')) ;;
  ret (mk_raw_layer t l b r nm (Z.land flags 0x18 =? 0x18) chs).

(** *** Channel image data, lines 191-230 *)

Definition byte_of (z : Z) : byte := default "000"%byte (Byte.of_N (Z.to_N z)).

(** One turn of the loop of lines 209-222. *)
Definition rle_step (d : list byte) : M (list byte) :=
  let* len := read8 in
  if len <? 0x80 then
    let len := wrap8 (len + 1) in
    let* bs := replicateM (Z.to_nat len) read8 in
    ret (d ++ map byte_of bs)
  else if len >? 0x80 then
    let len := wrap8 (1 - len) in
    let* repeated := read8 in
    ret (d ++ replicate (Z.to_nat len) (byte_of repeated))
  else ret d.

(** [while (data.size() < width * height) ...]; [fuel] bounds the number
    of turns: a turn either fails or consumes a byte, so one more than the
    size of the buffer is always enough ([decode_channel_fuel]). *)
Fixpoint rle_loop (fuel : nat) (area : Z) (d : list byte) : M (list byte) :=
  if Z.of_nat (length d) <? area then
    match fuel with
    | O => raise OutOfFuel
    | S fuel' => let* d' := rle_step d in rle_loop fuel' area d'
    end
  else ret d.

Definition unsupported_compression : string :=
  "Unsupported compression kind.  Open Edit Menu. Select Preferences. Select File handling. Try 'Maximize PSD compatibility -> Always' or 'Disable compression of PSD/PSB files' ".

(** The body of the loop of lines 195-229, for a layer of the given
    [width] and [height] (the locals of lines 192-193).  The source never
    defines NDEBUG: [assert(0)] is live. *)
Definition decode_channel (width height : Z) (c : channel) : M channel :=
  let* comp := read16 in
  if comp =? 0 then
    let* bytes := copy_from_cursor (wrap32 (width * height)) in
    advance (wrap32 (width * height)) ;;
    ret (mk_channel (kind c) (data c ++ bytes))
  else if comp =? 1 then
    advance (wrap32 (2 * height)) ;;
    let* size := buffer_size in
    let* d := rle_loop (S size) (wrap32 (width * height)) (data c) in
    ret (mk_channel (kind c) d)
  else
    log unsupported_compression ;;
    raise AssertFailed.

(** The body of the loop of lines 191-230. *)
Definition decode_layer (l : raw_layer) : M raw_layer :=
  let height := wrap32 (bot l - top l) in
  let width := wrap32 (right l - left l) in
  let* chs := mapM (decode_channel width height) (channels l) in
  ret (mk_raw_layer (top l) (left l) (bot l) (right l) (raw_name l) (is_group l) chs).

(** *** Layer tree and compositor, lines 234-276 *)

Definition unsupported_kind : string :=
  "Unsupported transparency channel kind.  Ignoring. ".

(** The body of the loop of lines 252-275 for one channel: the pixels
    after it.  A channel without a bit position is left out (line 263). *)
Definition composite_channel (cw ch : Z) (l : raw_layer) (c : channel)
    (px : list Z) : list Z :=
  match channel_shift (kind c) with
  | Some shift => blit cw ch (left l) (right l) shift (data c)
                       (left l) (wrap32 (bot l - 1)) px
  | None => px
  end.

(** [pixels.resize(width * height, 0)] followed by the loop over the
    channels. *)
Definition composite_layer (cw ch : Z) (l : raw_layer) : list Z :=
  fold_left (fun px c => composite_channel cw ch l c px) (channels l)
            (replicate (Z.to_nat (cw * ch)) 0).

(** The warning of line 262, for a channel the compositor leaves out. *)
Definition warn_channel (c : channel) : M unit :=
  match channel_shift (kind c) with
  | Some _ => ret tt
  | None => log unsupported_kind
  end.

Definition push_layer (l : layer) : M unit :=
  modify (fun s => set_self (mk_psd (width (self s)) (height (self s))
                                    (layers (self s) ++ [l])) s).

(** The body of the loop of lines 235-276; [location] is threaded.  The
    pixels of a new layer are computed at once and the warnings of its
    channels printed next, in channel order. *)
Definition reconstruct_step (location : list string) (l : raw_layer)
    : M (list string) :=
  if is_group l then
    if String.eqb (raw_name l) group_end then
      match location with
      | [] => raise (Undefined "pop_back on an empty vector")
      | _ => ret (removelast location)
      end
    else ret (location ++ [raw_name l])
  else
    let* s := get in
    let cw := width (self s) in
    let ch := height (self s) in
    push_layer (mk_layer (location ++ [raw_name l]) cw ch (composite_layer cw ch l)) ;;
    mapM warn_channel (channels l) ;;
    ret location.

(** [for (int layer = raw_layers.size() - 1; layer >= 0; layer--)] *)
Definition reconstruct (raw_layers : list raw_layer) : M (list string) :=
  foldM reconstruct_step [] (rev raw_layers).

(** *** File header and sections, lines 85-136 *)

Definition set_height (h : Z) : M unit :=
  modify (fun s => set_self (mk_psd (width (self s)) h (layers (self s))) s).
Definition set_width (w : Z) : M unit :=
  modify (fun s => set_self (mk_psd w (height (self s)) (layers (self s))) s).

Definition read_header : M unit :=
  let* sig := read32 in
  check (sig =? 0x38425053) "Signature not found." ;;
  let* version := read16 in
  check (version =? 1) "Version not found." ;;
  skip 6 ;;
  let* channels := read16 in
  let* h := read32 in
  set_height h ;;
  let* w := read32 in
  set_width w ;;
  let* depth := read16 in
  check (depth =? 8) "Invalid color depth.  Open image menu in photoshop.  Expand mode.  Select 8 bits/channel." ;;
  let* mode := read16 in
  check (mode =? 3) "Invalid color mode.  Open image menu in photoshop.  Expand mode.  Select RGB." ;;
  let* colorDataLength := read32 in
  skip colorDataLength ;;
  let* imageResourceLength := read32 in
  skip imageResourceLength.

(** Lines 129-136: the layer count; a negative count is negated in
    [int] and narrowed back to [int16_t], and [resize] of a negative
    count (converted to [size_t]) throws. *)
Definition read_layer_count : M Z :=
  let* layerMaskSection := read32 in
  let* layersLength := read32 in
  let* c := read16 in
  let count := int16_of c in
  let count := if count <? 0 then int16_of (- count) else count in
  if count <? 0 then raise (Thrown "vector too long")
  else ret count.

(** Lines 129-231. *)
Definition read_layers : M (list raw_layer) :=
  let* count := read_layer_count in
  let* raw_layers := replicateM (Z.to_nat count) read_layer_record in
  mapM decode_layer raw_layers.

(** Lines 82-83: [char * offset = &v[0]].  Element access on an empty
    vector - the file is empty, or could not be opened (lines 75-81) - is
    undefined. *)
Definition buffer_start : M unit := fun v s =>
  match v with
  | [] => (Fail (Undefined "operator[] on an empty vector"), s)
  | _ :: _ => (Ok tt, s)
  end.

(** [bool psd::load(const string & filename)], from line 82 on; [Ok tt]
    stands for [return true]. *)
Definition load : M unit :=
  buffer_start ;;
  read_header ;;
  let* raw_layers := read_layers in
  reconstruct raw_layers ;;
  ret tt.

End Load.

(** The machine when [load] reaches line 82, for a [psd] object [p]. *)
Definition start (p : psd) : machine := mk_machine 0 p [] [].

(** ** Layer trees

    The nesting that the flat layer list encodes.  A group is delimited by
    two pseudo-layers: the record carrying the group's name, which the
    reverse scan of line 235 meets first, and the record named
    [</Layer group>], which it meets last. *)
#[local] Set Warnings "-register-all".
Inductive tree :=
| Leaf (l : raw_layer)
| Group (opening : raw_layer) (kids : list tree) (closing : raw_layer).


(** The records of a tree in the order of the reverse scan. *)
Fixpoint scan_order (t : tree) : list raw_layer :=
  match t with
  | Leaf l => [l]
  | Group o kids c => o :: flat_map scan_order kids ++ [c]
  end.

(** The records of a forest as stored in the file (bottom-most first). *)
Definition stored (forest : list tree) : list raw_layer :=
  rev (flat_map scan_order forest).



(** ** Test vectors: building the bytes of a file *)

Definition be16 (z : Z) : list byte := [byte_of (z / 2 ^ 8 mod 256); byte_of (z mod 256)].
Definition be32 (z : Z) : list byte :=
  [byte_of (z / 2 ^ 24 mod 256); byte_of (z / 2 ^ 16 mod 256);
   byte_of (z / 2 ^ 8 mod 256); byte_of (z mod 256)].
Definition octets (l : list Z) : list byte := map byte_of l.

(** A length-prefixed name, padded to a multiple of four bytes. *)
Definition pascal (s : string) : list byte :=
  let bs := list_byte_of_string s in
  let n := S (length bs) in
  byte_of (Z.of_nat (length bs)) :: bs ++ replicate ((4 - n mod 4) mod 4)%nat "000"%byte.

(** File header for a canvas of height [h] and width [w], of the given
    depth, with empty color-mode and image-resource sections. *)
Definition file_header (h w depth : Z) : list byte :=
  be32 0x38425053 ++ be16 1 ++ octets [0; 0; 0; 0; 0; 0] ++ be16 3
  ++ be32 h ++ be32 w ++ be16 depth ++ be16 3 ++ be32 0 ++ be32 0.

(** Layer section header announcing [count] layers. *)
Definition layer_section (count : Z) : list byte := be32 0 ++ be32 0 ++ be16 count.

(** A layer record: bounding box, channel kinds (each with the byte length
    [len]), flags and name. *)
Definition layer_record (t l b r : Z) (kinds : list Z) (len : Z) (flags : Z)
    (nm : string) : list byte :=
  be32 t ++ be32 l ++ be32 b ++ be32 r ++ be16 (Z.of_nat (length kinds))
  ++ flat_map (fun k => be16 (k mod 2 ^ 16) ++ be32 len) kinds
  ++ be32 0x3842494D ++ be32 0x6E6F726D ++ octets [255; 0; flags; 0]
  ++ be32 (8 + Z.of_nat (length (pascal nm))) ++ be32 0 ++ be32 0 ++ pascal nm.

(** A 2 x 2 document with one layer of three channels, two raw and one
    run-length encoded. *)
Definition file_rgb (len : Z) : list byte :=
  file_header 2 2 8 ++ layer_section 1
  ++ layer_record 0 0 2 2 [0; 1; 2] len 0 "Layer 1"
  ++ be16 0 ++ octets [10; 20; 30; 40]
  ++ be16 0 ++ octets [10; 20; 30; 40]
  ++ be16 1 ++ octets [0; 0; 0; 0] ++ octets [1; 10; 20; 255; 30].

(** A 1 x 2 document whose only layer covers the bottom row alone, with a
    run-length channel whose literal run carries one byte too many. *)
Definition file_overrun : list byte :=
  file_header 2 1 8 ++ layer_section 1
  ++ layer_record 1 0 2 1 [0] 0 0 "Layer 1"
  ++ be16 1 ++ octets [0; 0] ++ octets [1; 7; 9].

(** A document whose raw channel data is cut off after the compression
    tag. *)
Definition file_cut_raw : list byte :=
  file_header 2 2 8 ++ layer_section 1
  ++ layer_record 0 0 2 2 [0] 0 0 "Layer 1"
  ++ be16 0.

(** A document whose only run-length channel has an empty bounding box
    three rows high, cut off after the compression tag. *)
Definition file_cut_rle : list byte :=
  file_header 2 2 8 ++ layer_section 1
  ++ layer_record 0 0 3 0 [0] 0 0 "Layer 1"
  ++ be16 1.

(** A document whose only run-length channel, for a box of one row of
    two pixels, is cut off after the compression tag. *)
Definition file_cut_rle_row : list byte :=
  file_header 2 2 8 ++ layer_section 1
  ++ layer_record 0 0 1 2 [0] 0 0 "Layer 1"
  ++ be16 1.

(** A document whose only record is a group-closing marker. *)
Definition file_stray_close : list byte :=
  file_header 2 2 8 ++ layer_section 1
  ++ layer_record 0 0 0 0 [] 0 0x18 "</Layer group>".



(** A header of depth 16, for a canvas of height 7 and width 9. *)
Definition file_depth16 : list byte := file_header 7 9 16.

(** A folder holding one layer: the closing marker is stored first, the
    folder record last. *)
Definition file_folder : list byte :=
  file_header 1 1 8 ++ layer_section 3
  ++ layer_record 0 0 0 0 [] 0 0x18 "</Layer group>"
  ++ layer_record 0 0 1 1 [0] 0 0 "B"
  ++ layer_record 0 0 0 0 [] 0 0x18 "Folder"
  ++ be16 0 ++ octets [5].

(** The area of a layer's bounding box as lines 192-193 and 200 compute
    it, in unsigned 32-bit arithmetic. *)
Definition layer_area (l : raw_layer) : Z :=
  wrap32 (wrap32 (right l - left l) * wrap32 (bot l - top l)).

(** ** What the compositor is expected to compute

    [(x, y)] lies in the bounding box of [l]. *)
Definition in_box (l : raw_layer) (x y : Z) : Prop :=
  left l <= x < right l /\ top l <= y < bot l.

#[local] Instance in_box_dec l x y : Decision (in_box l x y).
Proof. unfold in_box. apply _. Defined.





(** A folder holding one layer, and a second layer outside it. *)
Definition folder_forest : list tree :=
  [Group (mk_raw_layer 0 0 0 0 "Folder" true [])
     [Leaf (mk_raw_layer 0 0 1 1 "B" false [mk_channel 0 [x05]])]
     (mk_raw_layer 0 0 0 0 "</Layer group>" true []);
   Leaf (mk_raw_layer 0 0 1 1 "Top" false [])].

(** A computation is confined to [P] when it leaves the layer list of the
    object alone and fails only in the ways [P] allows. *)
Definition confined (P : failure -> Prop) {A} (m : M A) : Prop :=
  forall v s, layers (self (snd (m v s))) = layers (self s) /\
              forall x, fst (m v s) = Fail x -> P x.

Definition any_failure (x : failure) : Prop := True.
Definition fuelled (x : failure) : Prop := x <> OutOfFuel.

(** The cursor operations fail by throwing or, at worst, by reading
    outside the buffer. *)
Definition cursor_failure (P : failure -> Prop) : Prop :=
  P (Thrown truncated) /\ (forall what, P (Undefined what)).

(** [v1] and [v2] hold the same bytes from offset [lo] up to [hi], except
    possibly in the four-byte fields that start at the offsets [holes]. *)
Definition agree (v1 v2 : list byte) (lo hi : Z) (holes : list Z) : Prop :=
  forall i, lo <= i < hi ->
            (forall d, In d holes -> ~ (d <= i < d + 4)) ->
            v1 !! Z.to_nat i = v2 !! Z.to_nat i.

(** A computation is framed when the cursor only moves forward, the
    length fields it records lie in the stretch it has passed, and its
    outcome is the same on any buffer of the same size that agrees with
    the given one on that stretch outside those fields. *)
Definition framed {A} (m : M A) : Prop :=
  forall v1 v2 s, length v1 = length v2 -> 0 <= offset s ->
    offset s <= offset (snd (m v1 s)) /\
    exists new,
      length_fields (snd (m v1 s)) = length_fields s ++ new /\
      (forall d, In d new -> offset s <= d /\ d + 4 <= offset (snd (m v1 s))) /\
      (agree v1 v2 (offset s) (offset (snd (m v1 s))) new -> m v2 s = m v1 s).

(** ** Run-length streams

    The runs that the loop of lines 209-222 decodes, with the bytes that
    encode them and the bytes they stand for. *)
Inductive run :=
| Literal (bytes : list byte)          (* control byte  length - 1, then the bytes *)
| Repeat (count : nat) (b : byte)      (* control byte  257 - count, then the byte *)
| Idle.                                (* control byte  0x80                        *)

Definition run_ok (r : run) : Prop :=
  match r with
  | Literal bytes => (1 <= length bytes <= 128)%nat
  | Repeat count _ => (2 <= count <= 128)%nat
  | Idle => True
  end.

Definition encode_run (r : run) : list byte :=
  match r with
  | Literal bytes => byte_of (Z.of_nat (length bytes) - 1) :: bytes
  | Repeat count b => [byte_of (257 - Z.of_nat count); b]
  | Idle => [x80]
  end.

Definition expand (r : run) : list byte :=
  match r with
  | Literal bytes => bytes
  | Repeat count b => replicate count b
  | Idle => []
  end.

Definition pack (rs : list run) : list byte := flat_map encode_run rs.
Definition unpack (rs : list run) : list byte := flat_map expand rs.

(** ** How the decoder fails

    The diagnostics that precede [return false]. *)
Definition rejections : list string :=
  ["Signature not found.";
   "Version not found.";
   "Invalid color depth.  Open image menu in photoshop.  Expand mode.  Select 8 bits/channel.";
   "Invalid color mode.  Open image menu in photoshop.  Expand mode.  Select RGB.";
   "Invalid signature on layer"]%string.

(** What goes with each kind of failure while the file is parsed: what
    has been printed since the machine was [s], and which exceptions and
    undefined behaviours can occur at all. *)
Definition diagnosed (fn : string) (s : machine) (x : failure) (s' : machine) : Prop :=
  match x with
  | ReturnedFalse =>
      exists text, In text rejections /\ cerr s' = cerr s ++ [message fn text]
  | AssertFailed => cerr s' = cerr s ++ [message fn unsupported_compression]
  | Thrown what =>
      (what = truncated \/ what = "vector too long"%string) /\ cerr s' = cerr s
  | Undefined what => what = "copy outside the buffer"%string /\ cerr s' = cerr s
  | OutOfFuel => cerr s' = cerr s
  end.

(** A computation is orderly when, from a cursor that is not negative, it
    only moves the cursor forward, prints nothing when it succeeds and
    fails as [diagnosed] says. *)
Definition orderly (fn : string) {A} (m : M A) : Prop :=
  forall v s, 0 <= offset s ->
    offset s <= offset (snd (m v s)) /\
    match fst (m v s) with
    | Ok _ => cerr (snd (m v s)) = cerr s
    | Fail x => diagnosed fn s x (snd (m v s))
    end.

(** An output layer made for a canvas of [cw] by [ch]. *)
Definition canvas_sized (cw ch : Z) (l : layer) : Prop :=
  layer_width l = cw /\ layer_height l = ch /\
  length (pixels l) = Z.to_nat (cw * ch) /\ name l <> [].

(** The records that stand for a drawable layer. *)
Definition drawable (raw_layers : list raw_layer) : list raw_layer :=
  List.filter (fun l => negb (is_group l)) raw_layers.

(** What holds of a raw layer once its channels are decoded: the box is
    made of unsigned 32-bit values, the kinds are signed 16-bit values,
    and every channel holds at least the area of the box and fewer than
    128 bytes more. *)
Definition decoded_layer (l : raw_layer) : Prop :=
  (0 <= top l < 2 ^ 32 /\ 0 <= left l < 2 ^ 32 /\
   0 <= bot l < 2 ^ 32 /\ 0 <= right l < 2 ^ 32) /\
  Forall (fun c => - 2 ^ 15 <= kind c < 2 ^ 15 /\
                   layer_area l <= Z.of_nat (length (data c)) < layer_area l + 128)
         (channels l).


(** A raw layer with other channels. *)
Definition with_channels (l : raw_layer) (chs : list channel) : raw_layer :=
  mk_raw_layer (top l) (left l) (bot l) (right l) (raw_name l) (is_group l) chs.

(** The buffer holds the big-endian 32-bit (16-bit) value [z] at
    position [i]. *)
Definition word32_at (v : list byte) (i z : Z) : Prop :=
  0 <= i /\
  exists b0 b1 b2 b3,
    v !! Z.to_nat i = Some b0 /\ v !! Z.to_nat (i + 1) = Some b1 /\
    v !! Z.to_nat (i + 2) = Some b2 /\ v !! Z.to_nat (i + 3) = Some b3 /\
    z = u8 b0 * 2 ^ 24 + u8 b1 * 2 ^ 16 + u8 b2 * 2 ^ 8 + u8 b3.

Definition word16_at (v : list byte) (i z : Z) : Prop :=
  0 <= i /\
  exists b0 b1,
    v !! Z.to_nat i = Some b0 /\ v !! Z.to_nat (i + 1) = Some b1 /\
    z = u8 b0 * 2 ^ 8 + u8 b1.

(** ** Loading into an object that already has layers

    The machine [s] with the layers [L] put in front of those of its
    object. *)
Definition keep (L : list layer) (s : machine) : machine :=
  set_self (mk_psd (width (self s)) (height (self s)) (L ++ layers (self s))) s.

(** A computation that neither reads nor changes the layers in front:
    it runs the same with and without them. *)
Definition layer_blind {A} (m : M A) : Prop :=
  forall L v s, m v (keep L s) = (fst (m v s), keep L (snd (m v s))).

(** ** Files as a writer lays them out

    The cursor is inside the buffer and the bytes from it on are [r]. *)
Definition unread (v : list byte) (s : machine) (r : list byte) : Prop :=
  0 <= offset s <= e v /\ drop (Z.to_nat (offset s)) v = r.

(** From a cursor at [o] in front of the bytes [bs], whatever follows
    them, [m] returns [a] and leaves the cursor right behind [bs]; the
    object and the diagnostics are untouched. *)
Definition reads {A} (o : Z) (m : M A) (bs : list byte) (a : A) : Prop :=
  forall v s r, offset s = o -> unread v s (bs ++ r) ->
    exists s', m v s = (Ok a, s') /\ unread v s' r /\
               offset s' = o + Z.of_nat (length bs) /\
               self s' = self s /\ cerr s' = cerr s.

(** The record of a layer, without image data: no mask, no blending
    ranges, no block behind the name; the channel lengths are left 0
    (the decoder drops them). *)
Definition record_of (l : raw_layer) : list byte :=
  layer_record (top l) (left l) (bot l) (right l) (map kind (channels l)) 0
    (if is_group l then 0x18 else 0) (raw_name l).

(** The image data of a layer, each channel stored raw. *)
Definition raw_data_of (l : raw_layer) : list byte :=
  flat_map (fun c => be16 0 ++ data c) (channels l).

(** A whole file: header, layer section, the records, then the image
    data, layer by layer. *)
Definition file_of (h w : Z) (ls : list raw_layer) : list byte :=
  file_header h w 8 ++ layer_section (Z.of_nat (length ls))
  ++ flat_map record_of ls ++ flat_map raw_data_of ls.

(** What a layer must satisfy to be written this way. *)
Definition writable (l : raw_layer) : Prop :=
  (0 <= top l < 2 ^ 32 /\ 0 <= left l < 2 ^ 32 /\
   0 <= bot l < 2 ^ 32 /\ 0 <= right l < 2 ^ 32) /\
  Z.of_nat (length (channels l)) < 2 ^ 16 /\
  (String.length (raw_name l) < 256)%nat /\
  Forall (fun c => - 2 ^ 15 <= kind c < 2 ^ 15 /\
                   Z.of_nat (length (data c)) = layer_area l) (channels l).

(** * Proofs *)

(** ** Running the monad *)

Lemma bind_Ok {A B} (m : M A) (f : A -> M B) v s b s' :
  bind m f v s = (Ok b, s') ->
  exists a s1, m v s = (Ok a, s1) /\ f a v s1 = (Ok b, s').
Proof.
  unfold bind. destruct (m v s) as [[a|x] s1]; intros H; [eauto | discriminate].
Qed.

Lemma bind_Fail {A B} (m : M A) (f : A -> M B) v s x s' :
  bind m f v s = (Fail x, s') ->
  m v s = (Fail x, s') \/ exists a s1, m v s = (Ok a, s1) /\ f a v s1 = (Fail x, s').
Proof.
  unfold bind. destruct (m v s) as [[a|y] s1]; intros H; [right; eauto | left; congruence].
Qed.

Lemma bind_run {A B} (m : M A) (f : A -> M B) v s a s1 :
  m v s = (Ok a, s1) -> bind m f v s = f a v s1.
Proof. unfold bind. intros ->. reflexivity. Qed.

Lemma bind_stop {A B} (m : M A) (f : A -> M B) v s x s1 :
  m v s = (Fail x, s1) -> bind m f v s = (Fail x, s1).
Proof. unfold bind. intros ->. reflexivity. Qed.

Ltac zcase :=
  rewrite ?Z.gtb_ltb, ?Z.geb_leb in *;
  repeat match goal with
  | |- context [Z.ltb ?a ?b] => destruct (Z.ltb_spec a b)
  | |- context [Z.leb ?a ?b] => destruct (Z.leb_spec a b)
  | |- context [Z.eqb ?a ?b] => destruct (Z.eqb_spec a b)
  end; simpl; try lia.

Lemma replicateM_length {A} (m : M A) n v s l s' :
  replicateM n m v s = (Ok l, s') -> length l = n.
Proof.
  revert s l s'. induction n as [|n IH]; simpl; intros s l s' H.
  - inversion H. reflexivity.
  - apply bind_Ok in H as (a & s1 & Ha & H).
    apply bind_Ok in H as (l1 & s2 & Hl & H).
    inversion H; subst. simpl. f_equal. eauto.
Qed.


(** ** The byte cursor *)

Lemma u8_range b : 0 <= u8 b < 256.
Proof. unfold u8. pose proof (Byte.to_N_bounded b). lia. Qed.

Lemma byte_of_u8 b : byte_of (u8 b) = b.
Proof. unfold byte_of, u8. rewrite N2Z.id, Byte.of_to_N. reflexivity. Qed.

Lemma deref_incr_at v s b :
  0 <= offset s -> v !! Z.to_nat (offset s) = Some b ->
  deref_incr v s = (Ok (u8 b), set_offset (offset s + 1) s).
Proof.
  intros H0 Hb. unfold deref_incr.
  apply lookup_lt_Some in Hb as Hlt.
  assert (offset s < e v) by (unfold e; lia).
  zcase. rewrite Hb. reflexivity.
Qed.

Lemma deref_incr_Ok v s z s' :
  deref_incr v s = (Ok z, s') ->
  exists b, v !! Z.to_nat (offset s) = Some b /\ z = u8 b /\
            0 <= offset s < e v /\ s' = set_offset (offset s + 1) s.
Proof.
  unfold deref_incr.
  destruct ((0 <=? offset s) && (offset s <? e v)) eqn:Hc; [|discriminate].
  apply andb_true_iff in Hc as [H1 H2]. apply Z.leb_le in H1. apply Z.ltb_lt in H2.
  destruct (v !! Z.to_nat (offset s)) as [b|] eqn:Hb; [|discriminate].
  intros [= <- <-]. exists b. repeat split; auto.
Qed.

Lemma read8_at v s b :
  0 <= offset s -> v !! Z.to_nat (offset s) = Some b ->
  read8 v s = (Ok (u8 b), set_offset (offset s + 1) s).
Proof.
  intros H0 Hb. unfold read8.
  apply lookup_lt_Some in Hb as Hlt.
  assert (offset s < e v) by (unfold e; lia).
  zcase. apply deref_incr_at; auto.
Qed.

Lemma read8_Ok v s z s' :
  read8 v s = (Ok z, s') ->
  exists b, v !! Z.to_nat (offset s) = Some b /\ z = u8 b /\
            0 <= offset s < e v /\ s' = set_offset (offset s + 1) s.
Proof.
  unfold read8. destruct (offset s + 1 >? e v); [discriminate|]. apply deref_incr_Ok.
Qed.

Lemma read16_Ok v s z s' :
  read16 v s = (Ok z, s') ->
  0 <= offset s /\ offset s + 2 <= e v /\ s' = set_offset (offset s + 2) s.
Proof.
  unfold read16.
  destruct ((offset s + 2 >? e v) || (offset s + 2 <? offset s)) eqn:Hc; [discriminate|].
  apply orb_false_iff in Hc as [Hc _]. rewrite Z.gtb_ltb in Hc. apply Z.ltb_ge in Hc.
  intros H.
  apply bind_Ok in H as (b0 & s1 & H0 & H). apply deref_incr_Ok in H0 as (? & _ & _ & ? & ->).
  apply bind_Ok in H as (b1 & s2 & H1 & H). apply deref_incr_Ok in H1 as (? & _ & _ & ? & ->).
  inversion H; subst; clear H. simpl in *.
  repeat split; try lia. unfold set_offset; simpl. f_equal. lia.
Qed.

(** Line 82 on a buffer that is not empty. *)
Lemma buffer_start_run v s : v <> [] -> buffer_start v s = (Ok tt, s).
Proof. destruct v; [contradiction | reflexivity]. Qed.

Lemma buffer_start_Fail v s x s' :
  buffer_start v s = (Fail x, s') ->
  v = [] /\ x = Undefined "operator[] on an empty vector" /\ s' = s.
Proof. destruct v; simpl; [intros [= <- <-]; auto | discriminate]. Qed.

Lemma buffer_start_Ok v s s' : buffer_start v s = (Ok tt, s') -> v <> [] /\ s' = s.
Proof. destruct v; simpl; [discriminate | intros [= <-]; split; [discriminate | reflexivity]]. Qed.


(** ** Run-length decoding *)

Lemma read8_no_fuel v s s' : read8 v s <> (Fail OutOfFuel, s').
Proof.
  unfold read8, deref_incr.
  destruct (offset s + 1 >? e v); [discriminate|].
  destruct ((0 <=? offset s) && (offset s <? e v)); [|discriminate].
  destruct (v !! Z.to_nat (offset s)); discriminate.
Qed.

Lemma replicateM_read8_no_fuel n v s s' :
  replicateM n read8 v s <> (Fail OutOfFuel, s').
Proof.
  revert s. induction n as [|n IH]; simpl; intros s H; [discriminate|].
  apply bind_Fail in H as [H | (a & s1 & Ha & H)].
  - eapply read8_no_fuel; eauto.
  - apply bind_Fail in H as [H | (l & s2 & Hl & H)]; [eapply IH; eauto | discriminate].
Qed.

Lemma replicateM_read8_offset n v s l s' :
  replicateM n read8 v s = (Ok l, s') ->
  offset s' = offset s + Z.of_nat n /\ (n <> O -> 0 <= offset s /\ offset s' <= e v).
Proof.
  revert s l s'. induction n as [|n IH]; simpl; intros s l s' H.
  - inversion H; subst. split; [lia | congruence].
  - apply bind_Ok in H as (a & s1 & Ha & H).
    apply bind_Ok in H as (l1 & s2 & Hl & H).
    inversion H; subst; clear H.
    apply read8_Ok in Ha as (b & _ & _ & Hr & ->).
    apply IH in Hl as [Ho Hn]. simpl in *.
    split; [lia|]. intros _. split; [lia|].
    destruct n; [lia | destruct Hn; [congruence | lia]].
Qed.

Lemma rle_step_no_fuel d v s s' : rle_step d v s <> (Fail OutOfFuel, s').
Proof.
  unfold rle_step. intros H.
  apply bind_Fail in H as [H | (len & s1 & Hlen & H)]; [eapply read8_no_fuel; eauto|].
  destruct (len <? 128).
  - apply bind_Fail in H as [H | (? & ? & _ & H)]; [|discriminate].
    eapply replicateM_read8_no_fuel; eauto.
  - destruct (len >? 128); [|discriminate].
    apply bind_Fail in H as [H | (? & ? & _ & H)]; [|discriminate].
    eapply read8_no_fuel; eauto.
Qed.

Lemma wrap8_repeat_count z : 128 < z < 256 -> wrap8 (1 - z) = 257 - z.
Proof. intros H. unfold wrap8. symmetry. apply (Z.mod_unique _ _ (-1)); lia. Qed.

Lemma rle_step_Ok d v s d' s' :
  rle_step d v s = (Ok d', s') ->
  0 <= offset s < offset s' /\ offset s' <= e v /\
  (length d <= length d' <= length d + 128)%nat.
Proof.
  unfold rle_step. intros H.
  apply bind_Ok in H as (len & s1 & Hlen & H).
  apply read8_Ok in Hlen as (b & _ & -> & Hr & ->).
  pose proof (u8_range b) as Hb.
  destruct (u8 b <? 128) eqn:Hlt.
  - apply Z.ltb_lt in Hlt.
    apply bind_Ok in H as (bs & s2 & Hbs & H). inversion H; subst; clear H.
    apply replicateM_length in Hbs as Hl.
    apply replicateM_read8_offset in Hbs as [Ho Hn]. simpl in *.
    assert (wrap8 (u8 b + 1) = u8 b + 1) as Hw
      by (unfold wrap8; apply Z.mod_small; lia).
    rewrite Hw in *.
    destruct Hn as [_ Hn]; [lia|].
    rewrite length_app, length_map, Hl. lia.
  - destruct (u8 b >? 128) eqn:Hgt.
    + apply Z.gtb_lt in Hgt.
      apply bind_Ok in H as (r & s2 & Hrd & H). inversion H; subst; clear H.
      apply read8_Ok in Hrd as (b' & _ & -> & Hr' & ->). simpl in *.
      rewrite wrap8_repeat_count, length_app, length_replicate by lia. lia.
    + inversion H; subst; clear H. simpl. lia.
Qed.

Lemma rle_loop_fuel fuel area d v s s' :
  e v - offset s < Z.of_nat fuel -> 0 < Z.of_nat fuel ->
  rle_loop fuel area d v s <> (Fail OutOfFuel, s').
Proof.
  revert d s. induction fuel as [|fuel IH]; intros d s Hf Hpos; [lia|].
  simpl. destruct (Z.of_nat (length d) <? area); [|discriminate].
  intros H. apply bind_Fail in H as [H | (d1 & s1 & Hs & H)].
  - eapply rle_step_no_fuel; eauto.
  - apply rle_step_Ok in Hs as (Ho & He & _).
    destruct fuel as [|fuel]; [lia|].
    revert H. apply IH; lia.
Qed.

Lemma rle_loop_Ok fuel area d v s d' s' :
  rle_loop fuel area d v s = (Ok d', s') ->
  Z.of_nat (length d) <= area ->
  area <= Z.of_nat (length d') < area + 128.
Proof.
  revert d s. induction fuel as [|fuel IH]; intros d s H Hd; simpl in H.
  - destruct (Z.ltb_spec (Z.of_nat (length d)) area); [discriminate|].
    inversion H; subst. lia.
  - destruct (Z.ltb_spec (Z.of_nat (length d)) area) as [Hlt|Hge].
    + apply bind_Ok in H as (d1 & s1 & Hs & H).
      apply rle_step_Ok in Hs as (_ & _ & Hl).
      destruct (Z.ltb_spec (Z.of_nat (length d1)) area) as [Hlt1|Hge1].
      * eapply IH; eauto. lia.
      * destruct fuel; simpl in H;
          (destruct (Z.ltb_spec (Z.of_nat (length d1)) area); [lia|]);
          inversion H; subst; lia.
    + inversion H; subst. lia.
Qed.

(** C6: in run-length decoding a control byte equal to 0x80 appends
    nothing to the channel data, being neither a literal nor a repeat run:
    the turn consumes that one byte only, and the loop goes on with the
    next control byte. *)
Theorem rle_control_0x80_is_no_op d v s fuel area :
  0 <= offset s ->
  v !! Z.to_nat (offset s) = Some x80 ->
  rle_step d v s = (Ok d, set_offset (offset s + 1) s) /\
  (Z.of_nat (length d) < area ->
   rle_loop (S fuel) area d v s
   = rle_loop fuel area d v (set_offset (offset s + 1) s)).
Proof.
  intros H0 Hb.
  assert (rle_step d v s = (Ok d, set_offset (offset s + 1) s)) as Hstep.
  { unfold rle_step. rewrite (bind_run _ _ _ _ _ _ (read8_at _ _ _ H0 Hb)).
    reflexivity. }
  split; [exact Hstep|].
  intros Hlt. simpl.
  destruct (Z.ltb_spec (Z.of_nat (length d)) area); [|lia].
  apply bind_run, Hstep.
Qed.

Lemma rle_control_0x80_is_no_op_witness :
  rle_step [x07] [x80; x00; x09] (start (mk_psd 0 0 []))
  = (Ok [x07], set_offset 1 (start (mk_psd 0 0 []))) /\
  rle_loop 3 2 [x07] [x80; x00; x09] (start (mk_psd 0 0 []))
  = (Ok [x07; x09], set_offset 3 (start (mk_psd 0 0 []))).
Proof.
  destruct (rle_control_0x80_is_no_op [x07] [x80; x00; x09] (start (mk_psd 0 0 [])) 2 2)
    as [Hstep Hloop]; [simpl; lia | reflexivity |].
  split; [exact Hstep|].
  rewrite Hloop by (simpl; lia). reflexivity.
Defined.

(** C7: in run-length decoding, after a control byte [len] with
    0x80 < len <= 0xFF the decoder reads the one following byte and
    appends exactly 257 - len copies of it (the count 1 - len of the
    source, taken in unsigned 8-bit arithmetic). *)
Theorem rle_repeat_run d v s len b :
  0 <= offset s ->
  v !! Z.to_nat (offset s) = Some len ->
  v !! Z.to_nat (offset s + 1) = Some b ->
  0x80 < u8 len ->
  wrap8 (1 - u8 len) = 257 - u8 len /\
  rle_step d v s
  = (Ok (d ++ replicate (Z.to_nat (257 - u8 len)) b), set_offset (offset s + 2) s).
Proof.
  intros H0 Hlen Hb Hgt. pose proof (u8_range len) as Hr.
  split; [apply wrap8_repeat_count; lia|].
  unfold rle_step. rewrite (bind_run _ _ _ _ _ _ (read8_at _ _ _ H0 Hlen)).
  destruct (Z.ltb_spec (u8 len) 128); [lia|].
  destruct (u8 len >? 128) eqn:Hc; [|rewrite Z.gtb_ltb in Hc; apply Z.ltb_ge in Hc; lia].
  erewrite bind_run; [|apply read8_at; simpl; [lia | exact Hb]].
  unfold ret, set_offset; simpl.
  rewrite wrap8_repeat_count, byte_of_u8 by lia.
  f_equal. f_equal. lia.
Qed.

Lemma rle_repeat_run_witness :
  rle_step [x01] [xfe; x2a] (start (mk_psd 0 0 []))
  = (Ok [x01; x2a; x2a; x2a], set_offset 2 (start (mk_psd 0 0 []))).
Proof.
  apply (rle_repeat_run [x01] [xfe; x2a] (start (mk_psd 0 0 [])) xfe x2a);
    [simpl; lia | reflexivity | reflexivity | vm_compute; reflexivity].
Defined.

(** ** Channel data *)

Lemma copy_from_cursor_Ok n v s bs s' :
  0 <= n -> copy_from_cursor n v s = (Ok bs, s') ->
  Z.of_nat (length bs) = n /\ s' = s.
Proof.
  intros Hn. unfold copy_from_cursor.
  destruct (Z.eqb_spec n 0) as [->|Hne].
  - intros [= <- <-]. split; reflexivity.
  - destruct ((0 <=? offset s) && (offset s + n <=? e v)) eqn:Hc; [|discriminate].
    apply andb_true_iff in Hc as [H1 H2]. apply Z.leb_le in H1, H2.
    intros [= <- <-]. split; [|reflexivity].
    rewrite length_take, length_drop. unfold e in H2. lia.
Qed.

Lemma wrap32_range z : 0 <= wrap32 z < 2 ^ 32.
Proof. unfold wrap32. apply Z.mod_pos_bound. lia. Qed.

Lemma layer_area_exact l :
  0 <= top l <= bot l -> 0 <= left l <= right l ->
  (bot l - top l) * (right l - left l) < 2 ^ 32 ->
  bot l < 2 ^ 32 -> right l < 2 ^ 32 ->
  layer_area l = (bot l - top l) * (right l - left l).
Proof.
  intros Ht Hl Hp Hb Hr. unfold layer_area, wrap32.
  rewrite (Z.mod_small (right l - left l)), (Z.mod_small (bot l - top l)) by lia.
  rewrite Z.mod_small by nia. lia.
Qed.

Lemma decode_channel_fuel fn w h c v s s' :
  decode_channel fn w h c v s <> (Fail OutOfFuel, s').
Proof.
  unfold decode_channel. intros H.
  apply bind_Fail in H as [H | (comp & s1 & Hcomp & H)].
  - unfold read16 in H.
    destruct ((offset s + 2 >? e v) || (offset s + 2 <? offset s)); [discriminate|].
    apply bind_Fail in H as [H | (b0 & s1 & H0 & H)];
      [unfold deref_incr in H; repeat (case_match; try discriminate)|].
    apply bind_Fail in H as [H | (b1 & s2 & H1 & H)];
      [unfold deref_incr in H; repeat (case_match; try discriminate)|].
    discriminate.
  - apply read16_Ok in Hcomp as (H0 & He & ->).
    destruct (comp =? 0).
    + apply bind_Fail in H as [H | (bs & s2 & _ & H)].
      * unfold copy_from_cursor in H. repeat (case_match; try discriminate).
      * discriminate.
    + destruct (comp =? 1); [|discriminate].
      unfold bind at 1, advance, modify in H.
      unfold bind at 1, buffer_size in H.
      apply bind_Fail in H as [H | (d & s2 & _ & H)]; [|discriminate].
      revert H. apply rle_loop_fuel.
      * pose proof (wrap32_range (2 * h)). unfold e. simpl. lia.
      * lia.
Qed.

(** C1 (amended): once a channel of a layer is decoded, the length of its
    data is, for a raw channel, exactly the area of the bounding box and,
    for a run-length channel, at least that area and less than 128 bytes
    more: the loop stops at the first run boundary where the area is
    reached, and the run that reaches it is appended whole.  The area is
    the 32-bit product of the source, which is (bot - top) x (right - left)
    for a box whose area fits 32 bits.  Decoding needs no more turns than
    the model allows. *)
Theorem channel_data_length fn l c v s :
  data c = [] ->
  (forall s', decode_channel fn (wrap32 (right l - left l)) (wrap32 (bot l - top l)) c v s
              <> (Fail OutOfFuel, s')) /\
  (forall c' s',
     decode_channel fn (wrap32 (right l - left l)) (wrap32 (bot l - top l)) c v s
     = (Ok c', s') ->
     exists comp s1, read16 v s = (Ok comp, s1) /\
       ((comp = 0 /\ Z.of_nat (length (data c')) = layer_area l) \/
        (comp = 1 /\ layer_area l <= Z.of_nat (length (data c')) < layer_area l + 128))) /\
  (0 <= top l <= bot l -> 0 <= left l <= right l ->
   (bot l - top l) * (right l - left l) < 2 ^ 32 ->
   bot l < 2 ^ 32 -> right l < 2 ^ 32 ->
   layer_area l = (bot l - top l) * (right l - left l)).
Proof.
  intros Hd. split; [intros s'; apply decode_channel_fuel|].
  split; [|apply layer_area_exact].
  intros c' s' H. unfold decode_channel in H.
  apply bind_Ok in H as (comp & s1 & Hcomp & H).
  exists comp, s1. split; [exact Hcomp|].
  fold (layer_area l) in H.
  pose proof (wrap32_range (wrap32 (right l - left l) * wrap32 (bot l - top l))) as Ha.
  fold (layer_area l) in Ha.
  destruct (Z.eqb_spec comp 0) as [->|Hn0].
  - left. split; [reflexivity|].
    apply bind_Ok in H as (bs & s2 & Hbs & H).
    apply copy_from_cursor_Ok in Hbs as [Hlen ->]; [|lia].
    unfold bind at 1, advance, modify in H. inversion H; subst; clear H.
    simpl. rewrite Hd. simpl. exact Hlen.
  - destruct (Z.eqb_spec comp 1) as [->|Hn1].
    + right. split; [reflexivity|].
      unfold bind at 1, advance, modify in H.
      unfold bind at 1, buffer_size in H.
      apply bind_Ok in H as (d & s2 & Hloop & H).
      inversion H; subst; clear H. simpl.
      eapply rle_loop_Ok; [exact Hloop|]. rewrite Hd. simpl. lia.
    + apply bind_Ok in H as (? & ? & _ & H). discriminate.
Qed.

Lemma channel_data_length_witness :
  exists comp s1,
    read16 (octets [0; 1; 0; 0; 0; 0; 0xFF; 7]) (start (mk_psd 0 0 [])) = (Ok comp, s1) /\
    ((comp = 0 /\
      Z.of_nat (length (data (mk_channel 0 [x07; x07])))
      = layer_area (mk_raw_layer 0 0 2 1 "Layer 1" false [mk_channel 0 []])) \/
     (comp = 1 /\
      layer_area (mk_raw_layer 0 0 2 1 "Layer 1" false [mk_channel 0 []])
      <= Z.of_nat (length (data (mk_channel 0 [x07; x07])))
      < layer_area (mk_raw_layer 0 0 2 1 "Layer 1" false [mk_channel 0 []]) + 128)).
Proof.
  apply (proj1 (proj2 (channel_data_length "f.psd"
           (mk_raw_layer 0 0 2 1 "Layer 1" false [mk_channel 0 []])
           (mk_channel 0 []) (octets [0; 1; 0; 0; 0; 0; 0xFF; 7])
           (start (mk_psd 0 0 [])) eq_refl))
         (mk_channel 0 [x07; x07]) (set_offset 8 (start (mk_psd 0 0 [])))).
  vm_compute. reflexivity.
Defined.

(** C1, as stated, fails: the run-length channel of [file_overrun] belongs
    to a layer whose bounding box (top 1, left 0, bottom 2, right 1) has
    area 1, and its literal run of two bytes is appended whole. *)
Lemma run_length_overrun_exceeds_area :
  exists s1 s2 c,
    read_header "f.psd" file_overrun (start (mk_psd 0 0 [])) = (Ok tt, s1) /\
    read_layers "f.psd" file_overrun s1
    = (Ok [mk_raw_layer 1 0 2 1 "Layer 1" false [c]], s2) /\
    length (data c) = 2%nat /\
    (2 - 1) * (1 - 0) = 1.
Proof.
  do 3 eexists. split; [vm_compute; reflexivity|].
  split; [vm_compute; reflexivity|]. split; reflexivity.
Qed.





(** ** Layer names *)

(** The bound on the turns of the padding loop is never reached: the loop
    of lines 179-180 stops within three turns. *)
Lemma name_padding_turns n m : forall len v s,
  0 <= len ->
  (4 - len mod 4) mod 4 <= Z.of_nat n ->
  (4 - len mod 4) mod 4 <= Z.of_nat m ->
  name_padding n len v s = name_padding m len v s.
Proof.
  revert m. induction n as [|n IH]; intros m len v s Hlen Hn Hm.
  - assert (len mod 4 = 0) as Hz.
    { pose proof (Z.mod_pos_bound len 4 ltac:(lia)) as Hr.
      destruct (Z.eq_dec (len mod 4) 0) as [|Hne]; [assumption|].
      rewrite (Z.mod_small (4 - len mod 4)) in Hn by lia. lia. }
    destruct m as [|m]; [reflexivity|]. simpl.
    change 3 with (Z.ones 2). rewrite Z.land_ones by lia. change (2 ^ 2) with 4.
    rewrite Hz. reflexivity.
  - simpl. change 3 with (Z.ones 2). rewrite Z.land_ones by lia.
    change (2 ^ 2) with 4.
    destruct (Z.eqb_spec (len mod 4) 0) as [Hz|Hnz].
    + destruct m as [|m]; [reflexivity|]. simpl.
      change 3 with (Z.ones 2). rewrite Z.land_ones by lia. change (2 ^ 2) with 4.
    rewrite Hz. reflexivity.
    + pose proof (Z.mod_pos_bound len 4 ltac:(lia)) as Hr.
      rewrite (Z.mod_small (4 - len mod 4)) in Hn, Hm by lia.
      assert (wrap32 (len + 1) mod 4 = (len mod 4 + 1) mod 4) as Hnext.
      { unfold wrap32. rewrite Z.mod_mod_divide by (exists (2 ^ 30); reflexivity).
        rewrite Z.add_mod by lia. reflexivity. }
      assert ((4 - wrap32 (len + 1) mod 4) mod 4 = 4 - len mod 4 - 1) as Hturns.
      { rewrite Hnext.
        destruct (Z.eq_dec (len mod 4) 3) as [->|]; [reflexivity|].
        rewrite (Z.mod_small (len mod 4 + 1)) by lia.
        rewrite Z.mod_small by lia. lia. }
      destruct m as [|m]; [lia|]. simpl.
      change 3 with (Z.ones 2). rewrite Z.land_ones by lia. change (2 ^ 2) with 4.
      destruct (Z.eqb_spec (len mod 4) 0); [contradiction|].
      unfold bind. destruct (read8 v s) as [[a|x] s1]; [|reflexivity].
      apply IH; [apply wrap32_range | lia | lia].
Qed.

Lemma name_padding_enough n len v s :
  0 <= len -> name_padding (3 + n) len v s = name_padding 3 len v s.
Proof.
  intros Hlen. pose proof (Z.mod_pos_bound (4 - len mod 4) 4 ltac:(lia)).
  apply name_padding_turns; [exact Hlen | lia | simpl; lia].
Qed.

(** ** Layer tree reconstruction *)


Lemma foldM_cons {A B} (f : B -> A -> M B) b a l v s :
  foldM f b (a :: l) v s = bind (f b a) (fun b' => foldM f b' l) v s.
Proof. reflexivity. Qed.

Lemma warn_channels_run fn cs v s :
  exists us s', mapM (warn_channel fn) cs v s = (Ok us, s') /\
                self s' = self s /\ offset s' = offset s /\
                length_fields s' = length_fields s.
Proof.
  revert s. induction cs as [|c cs IH]; intros s; simpl.
  - exists [], s. auto.
  - assert (exists s1, warn_channel fn c v s = (Ok tt, s1) /\ self s1 = self s /\
                       offset s1 = offset s /\ length_fields s1 = length_fields s)
      as (s1 & Hw & Hs & Ho & Hf).
    { unfold warn_channel. destruct (channel_shift (kind c)).
      - exists s. auto.
      - eexists. split; [reflexivity|]. auto. }
    destruct (IH s1) as (us & s' & Hm & Hs' & Ho' & Hf').
    exists (tt :: us), s'.
    rewrite (bind_run _ _ _ _ _ _ Hw), (bind_run _ _ _ _ _ _ Hm).
    repeat split; congruence.
Qed.


(** What one turn of the loop does on a drawable layer. *)
Lemma reconstruct_step_leaf fn loc l v s :
  is_group l = false ->
  exists s1, reconstruct_step fn loc l v s = (Ok loc, s1) /\
    self s1 = mk_psd (width (self s)) (height (self s))
                (layers (self s)
                 ++ [mk_layer (loc ++ [raw_name l]) (width (self s)) (height (self s))
                       (composite_layer (width (self s)) (height (self s)) l)]) /\
    offset s1 = offset s /\ length_fields s1 = length_fields s.
Proof.
  intros Hg. unfold reconstruct_step. rewrite Hg.
  unfold bind at 1, get. unfold bind at 1, push_layer, modify.
  match goal with |- context [bind _ _ v ?s0] =>
    destruct (warn_channels_run fn (channels l) v s0) as (us & s1 & Hm & Hs & Ho & Hf) end.
  exists s1. rewrite (bind_run _ _ _ _ _ _ Hm).
  split; [reflexivity|]. rewrite Hs, Ho, Hf. simpl. auto.
Qed.





(** The scenario of the folder file: its three records are the stored
    form of a folder holding layer B, and [load] names the one output
    layer Folder/B. *)
Example folder_file_loads :
  exists s1 s2 s3,
    read_header "f.psd" file_folder (start (mk_psd 0 0 [])) = (Ok tt, s1) /\
    read_layers "f.psd" file_folder s1
    = (Ok (stored [Group (mk_raw_layer 0 0 0 0 "Folder" true [])
                     [Leaf (mk_raw_layer 0 0 1 1 "B" false [mk_channel 0 [x05]])]
                     (mk_raw_layer 0 0 0 0 "</Layer group>" true [])]), s2) /\
    load "f.psd" file_folder (start (mk_psd 0 0 [])) = (Ok tt, s3) /\
    map name (layers (self s3)) = [["Folder"; "B"]]%string.
Proof.
  do 3 eexists.
  split; [vm_compute; reflexivity|]. split; [vm_compute; reflexivity|].
  split; vm_compute; reflexivity.
Qed.

(** A group-closing record met with an empty group stack: the model
    reaches [location.pop_back()] on an empty vector, which C++ leaves
    undefined; no failure is reported. *)
Lemma stray_close_is_undefined fn raw l v s :
  is_group l = true -> raw_name l = group_end ->
  reconstruct fn (raw ++ [l]) v s
  = (Fail (Undefined "pop_back on an empty vector"), s).
Proof.
  intros Hg Hn. unfold reconstruct. rewrite rev_app_distr. simpl.
  apply bind_stop. unfold reconstruct_step. rewrite Hg, Hn. reflexivity.
Qed.

(** C4 (the code departs from the claim): [file_stray_close] holds a
    single record, flagged as a group and named [</Layer group>].  The
    decode does not fail with a group-structure error: it pops the empty
    group stack. *)
Theorem stray_group_close_pops_empty_stack :
  load "f.psd" file_stray_close (start (mk_psd 0 0 []))
  = (Fail (Undefined "pop_back on an empty vector"),
     mk_machine 102 (mk_psd 2 2 []) [] []).
Proof. vm_compute. reflexivity. Qed.

(** The checked skip of lines 68-72 either stays inside the buffer or
    throws. *)
Lemma skip_checked amt v s :
  0 <= amt ->
  (offset s + amt <= e v ->
   skip amt v s = (Ok tt, set_offset (offset s + amt) s)) /\
  (e v < offset s + amt -> skip amt v s = (Fail (Thrown truncated), s)).
Proof.
  intros Hamt. unfold skip. rewrite Z.gtb_ltb. split; intros H.
  - destruct (Z.ltb_spec (e v) (offset s + amt)); [lia|].
    destruct (Z.ltb_spec (offset s + amt) (offset s)); [lia|]. reflexivity.
  - destruct (Z.ltb_spec (e v) (offset s + amt)); [reflexivity | lia].
Qed.

(** C2 (the code departs from the claim): in [file_cut_raw] the buffer
    ends right after the compression tag of a raw channel of four bytes.
    Line 200 copies the four bytes beyond the end of the buffer without a
    check; no "Truncated PSD" is thrown. *)
Theorem raw_copy_reads_past_the_end :
  e file_cut_raw = 102 /\
  load "f.psd" file_cut_raw (start (mk_psd 0 0 []))
  = (Fail (Undefined "copy outside the buffer"),
     mk_machine 102 (mk_psd 2 2 []) [] [64]).
Proof. split; vm_compute; reflexivity. Qed.

(** The unchecked skip of the jump table (line 207): on [file_cut_rle]
    the decode succeeds with the cursor six bytes past the end of the
    buffer. *)
Example jump_table_skip_leaves_the_buffer :
  exists s', load "f.psd" file_cut_rle (start (mk_psd 0 0 [])) = (Ok tt, s') /\
             e file_cut_rle = 102 /\ offset s' = 108.
Proof.
  eexists. split; [vm_compute; reflexivity|]. split; vm_compute; reflexivity.
Qed.

(** ** The compositor *)

Lemma blit_length cw ch lft rgt shift bytes : forall x y px,
  length (blit cw ch lft rgt shift bytes x y px) = length px.
Proof.
  induction bytes as [|b rest IH]; intros x y px; simpl; [reflexivity|].
  destruct (wrap32 (x + 1) >=? rgt); rewrite IH;
    destruct ((x <? cw) && (y <? ch)); rewrite ?length_alter; reflexivity.
Qed.


Lemma wrap32_small z : 0 <= z < 2 ^ 32 -> wrap32 z = z.
Proof. apply Z.mod_small. Qed.


Lemma blit_cons cw ch lft rgt shift b rest x y px :
  blit cw ch lft rgt shift (b :: rest) x y px
  = if wrap32 (x + 1) >=? rgt
    then blit cw ch lft rgt shift rest lft (wrap32 (y - 1))
           (if (x <? cw) && (y <? ch)
            then alter (fun p => Z.lor p (Z.shiftl (u8 b) shift))
                       (Z.to_nat (x + y * cw)) px
            else px)
    else blit cw ch lft rgt shift rest (wrap32 (x + 1)) y
           (if (x <? cw) && (y <? ch)
            then alter (fun p => Z.lor p (Z.shiftl (u8 b) shift))
                       (Z.to_nat (x + y * cw)) px
            else px).
Proof. reflexivity. Qed.






Lemma composite_channels_length cw ch l chs : forall px : list Z,
  length (fold_left (fun px c => composite_channel cw ch l c px) chs px) = length px.
Proof.
  induction chs as [|c chs IH]; intros px; simpl; [reflexivity|].
  rewrite IH. unfold composite_channel.
  destruct (channel_shift (kind c)); [apply blit_length | reflexivity].
Qed.

Lemma composite_layer_length cw ch l :
  length (composite_layer cw ch l) = Z.to_nat (cw * ch).
Proof.
  unfold composite_layer. rewrite composite_channels_length. apply length_replicate.
Qed.



Example blend_example :
  composite_layer 2 2 (mk_raw_layer 0 1 2 2 "Layer 1" false
                         [mk_channel 0 [x0a; x14]; mk_channel (-1) [x01; x02]])
  = [0; 0x02000014; 0; 0x0100000a].
Proof. vm_compute. reflexivity. Qed.


(** ** Failures before the layer tree is rebuilt *)

Section Confined.
Variable P : failure -> Prop.

Lemma confined_ret {A} (a : A) : confined P (ret a).
Proof. intros v s. split; [reflexivity | discriminate]. Qed.

Lemma confined_raise {A} x : P x -> confined P (@raise A x).
Proof. intros Hx v s. split; [reflexivity | simpl; congruence]. Qed.

Lemma confined_get : confined P get.
Proof. intros v s. split; [reflexivity | discriminate]. Qed.

Lemma confined_buffer_size : confined P buffer_size.
Proof. intros v s. split; [reflexivity | discriminate]. Qed.

Lemma confined_modify f :
  (forall s, layers (self (f s)) = layers (self s)) -> confined P (modify f).
Proof. intros Hf v s. split; [apply Hf | discriminate]. Qed.

Lemma confined_bind {A B} (m : M A) (f : A -> M B) :
  confined P m -> (forall a, confined P (f a)) -> confined P (bind m f).
Proof.
  intros Hm Hf v s. unfold bind.
  destruct (Hm v s) as [Hl Hx]. destruct (m v s) as [[a|x] s1]; simpl in *.
  - destruct (Hf a v s1) as [Hl' Hx']. split; [congruence | exact Hx'].
  - split; [assumption|]. intros y [= <-]. apply Hx. reflexivity.
Qed.

Lemma confined_replicateM {A} n (m : M A) : confined P m -> confined P (replicateM n m).
Proof.
  intros Hm. induction n as [|n IH]; simpl; [apply confined_ret|].
  apply confined_bind; [exact Hm|]. intros a.
  apply confined_bind; [exact IH|]. intros l. apply confined_ret.
Qed.

Lemma confined_mapM {A B} (f : A -> M B) l :
  (forall a, confined P (f a)) -> confined P (mapM f l).
Proof.
  intros Hf. induction l as [|a l IH]; simpl; [apply confined_ret|].
  apply confined_bind; [apply Hf|]. intros b.
  apply confined_bind; [exact IH|]. intros bs. apply confined_ret.
Qed.

Lemma confined_foldM {A B} (f : B -> A -> M B) l :
  (forall b a, confined P (f b a)) -> forall b, confined P (foldM f b l).
Proof.
  intros Hf. induction l as [|a l IH]; intros b; simpl; [apply confined_ret|].
  apply confined_bind; [apply Hf | exact IH].
Qed.

Lemma confined_if {A} (c : bool) (m1 m2 : M A) :
  confined P m1 -> confined P m2 -> confined P (if c then m1 else m2).
Proof. destruct c; auto. Qed.

Lemma confined_guarded {A} (c : list byte -> machine -> bool) x (m : M A) :
  P x -> confined P m ->
  confined P (fun v s => if c v s then (Fail x, s) else m v s).
Proof.
  intros Hx Hm v s. destruct (c v s); [|apply Hm].
  split; [reflexivity | simpl; congruence].
Qed.

End Confined.

Lemma confined_weaken (P Q : failure -> Prop) {A} (m : M A) :
  (forall x, P x -> Q x) -> confined P m -> confined Q m.
Proof. intros HPQ Hm v s. destruct (Hm v s). split; auto. Qed.

Create HintDb confined.
#[local] Hint Resolve confined_ret confined_get confined_buffer_size : confined.
#[local] Hint Extern 1 (confined _ (raise _)) =>
  apply confined_raise; first [exact I | discriminate | eexists; reflexivity] : confined.
#[local] Hint Extern 1 (confined _ (modify _)) =>
  apply confined_modify; intros; reflexivity : confined.
#[local] Hint Extern 2 (confined _ (bind _ _)) => apply confined_bind; [|intros] : confined.
#[local] Hint Extern 2 (confined _ (if _ then _ else _)) => apply confined_if : confined.
#[local] Hint Extern 2 (confined _ (replicateM _ _)) => apply confined_replicateM : confined.
#[local] Hint Extern 2 (confined _ (mapM _ _)) => apply confined_mapM; intros : confined.
#[local] Hint Extern 2 (confined _ (foldM _ _ _)) => apply confined_foldM; intros : confined.
#[local] Hint Extern 3 (confined _ (match ?x with _ => _ end)) => destruct x : confined.

Ltac confined_tac := unshelve (eauto 80 with confined).

Section Parsing.
Variable P : failure -> Prop.
Hypothesis HP : cursor_failure P.

Lemma confined_deref_incr : confined P deref_incr.
Proof.
  intros v s. unfold deref_incr.
  destruct ((0 <=? offset s) && (offset s <? e v));
    [destruct (v !! Z.to_nat (offset s))|];
    (split; [reflexivity | simpl; intros x [= <-]; apply HP]).
Qed.
Hint Resolve confined_deref_incr : confined.

Lemma confined_read32 : confined P read32.
Proof.
  apply (confined_guarded P
           (fun v s => (offset s + 4 >? e v) || (offset s + 4 <? offset s)));
    [apply HP|]. confined_tac.
Qed.

Lemma confined_read16 : confined P read16.
Proof.
  apply (confined_guarded P
           (fun v s => (offset s + 2 >? e v) || (offset s + 2 <? offset s)));
    [apply HP|]. confined_tac.
Qed.

Lemma confined_read8 : confined P read8.
Proof.
  apply (confined_guarded P (fun v s => offset s + 1 >? e v)); [apply HP|]. confined_tac.
Qed.

Lemma confined_skip amt : confined P (skip amt).
Proof.
  intros v s. unfold skip.
  destruct ((offset s + amt >? e v) || (offset s + amt <? offset s));
    (split; [reflexivity | simpl; intros x [= <-]; apply HP]).
Qed.

Lemma confined_copy_from_cursor n : confined P (copy_from_cursor n).
Proof.
  intros v s. unfold copy_from_cursor.
  destruct (n =? 0); [|destruct ((0 <=? offset s) && (offset s + n <=? e v))];
    (split; [reflexivity | simpl; intros x [= <-]; apply HP]).
Qed.

Hint Resolve confined_read32 confined_read16 confined_read8 confined_skip
  confined_copy_from_cursor : confined.

Lemma confined_log fn text : confined P (log fn text).
Proof. unfold log. confined_tac. Qed.

Lemma confined_advance n : confined P (advance n).
Proof. unfold advance. confined_tac. Qed.
Hint Resolve confined_log confined_advance : confined.

Lemma confined_name_padding n : forall len, confined P (name_padding n len).
Proof. induction n as [|n IH]; intros len; simpl; confined_tac. Qed.
Hint Resolve confined_name_padding : confined.

Lemma confined_rle_step d : confined P (rle_step d).
Proof. unfold rle_step. confined_tac. Qed.
Hint Resolve confined_rle_step : confined.

Hypothesis HPfalse : P ReturnedFalse.
Hypothesis HPlen : P (Thrown "vector too long").

Lemma confined_check fn ok text : confined P (check fn ok text).
Proof.
  unfold check. destruct ok; [confined_tac|].
  apply confined_bind; [confined_tac|]. intros _. apply confined_raise, HPfalse.
Qed.
Hint Resolve confined_check : confined.

Lemma confined_read_layer_record fn : confined P (read_layer_record fn).
Proof. unfold read_layer_record, read_channel_info, read_name. confined_tac. Qed.

Lemma confined_read_layer_count : confined P read_layer_count.
Proof.
  unfold read_layer_count.
  do 3 (apply confined_bind; [confined_tac | intros]).
  apply confined_if; [apply confined_raise, HPlen | confined_tac].
Qed.

Lemma confined_read_header fn : confined P (read_header fn).
Proof. unfold read_header, set_height, set_width. confined_tac. Qed.

End Parsing.

Lemma cursor_failure_any : cursor_failure any_failure.
Proof. split; intros; exact I. Qed.

Lemma cursor_failure_fuelled : cursor_failure fuelled.
Proof. split; intros; discriminate. Qed.

#[local] Hint Resolve cursor_failure_any cursor_failure_fuelled : confined.
#[local] Hint Extern 1 (confined _ deref_incr) => apply confined_deref_incr : confined.
#[local] Hint Extern 1 (confined _ read32) => apply confined_read32 : confined.
#[local] Hint Extern 1 (confined _ read16) => apply confined_read16 : confined.
#[local] Hint Extern 1 (confined _ read8) => apply confined_read8 : confined.
#[local] Hint Extern 1 (confined _ (skip _)) => apply confined_skip : confined.
#[local] Hint Extern 1 (confined _ (copy_from_cursor _)) =>
  apply confined_copy_from_cursor : confined.
#[local] Hint Extern 1 (confined _ (log _ _)) => apply confined_log : confined.
#[local] Hint Extern 1 (confined _ (advance _)) => apply confined_advance : confined.
#[local] Hint Extern 1 (confined _ (rle_step _)) => apply confined_rle_step : confined.

Lemma confined_rle_loop fuel area : forall d, confined any_failure (rle_loop fuel area d).
Proof.
  induction fuel as [|fuel IH]; intros d; simpl; confined_tac.
Qed.

Lemma confined_decode_channel fn w h c : confined fuelled (decode_channel fn w h c).
Proof.
  intros v s. split.
  - assert (confined any_failure (decode_channel fn w h c)) as H; [|apply H].
    unfold decode_channel.
    apply confined_bind; [confined_tac | intros comp].
    repeat apply confined_if; [confined_tac | | confined_tac].
    apply confined_bind; [confined_tac | intros _].
    apply confined_bind; [confined_tac | intros size].
    apply confined_bind; [apply confined_rle_loop | confined_tac].
  - intros x Hx ->.
    apply (decode_channel_fuel fn w h c v s (snd (decode_channel fn w h c v s))).
    destruct (decode_channel fn w h c v s) as [r s']. simpl in *. rewrite Hx. reflexivity.
Qed.

Lemma confined_read_layers fn : confined fuelled (read_layers fn).
Proof.
  unfold read_layers.
  apply confined_bind;
    [apply confined_read_layer_count; [confined_tac | discriminate] | intros count].
  apply confined_bind;
    [apply confined_replicateM, confined_read_layer_record; [confined_tac | discriminate]
    | intros raw].
  apply confined_mapM. intros l. unfold decode_layer.
  apply confined_bind; [|confined_tac].
  apply confined_mapM. intros c. apply confined_decode_channel.
Qed.





(** ** Independence from the channel length fields *)

Lemma framed_moving {A} (m : M A) :
  (forall v1 v2 s, length v1 = length v2 -> m v2 s = m v1 s) ->
  (forall v s, offset s <= offset (snd (m v s)) /\
               length_fields (snd (m v s)) = length_fields s) ->
  framed m.
Proof.
  intros Hsame Hkeep v1 v2 s Hlen H0. destruct (Hkeep v1 s) as [Ho Hf].
  split; [exact Ho|]. exists []. rewrite app_nil_r.
  split; [exact Hf|]. split; [intros d []|]. intros _. apply Hsame, Hlen.
Qed.

Lemma framed_ret {A} (a : A) : framed (ret a).
Proof. apply framed_moving; intros; simpl; [reflexivity | split; [lia | reflexivity]]. Qed.

Lemma framed_raise {A} x : framed (@raise A x).
Proof. apply framed_moving; intros; simpl; [reflexivity | split; [lia | reflexivity]]. Qed.

Lemma framed_get : framed get.
Proof. apply framed_moving; intros; simpl; [reflexivity | split; [lia | reflexivity]]. Qed.

Lemma framed_buffer_size : framed buffer_size.
Proof.
  apply framed_moving; intros; unfold buffer_size; simpl;
    [congruence | split; [lia | reflexivity]].
Qed.

Lemma framed_modify f :
  (forall s, offset s <= offset (f s) /\ length_fields (f s) = length_fields s) ->
  framed (modify f).
Proof. intros Hf. apply framed_moving; intros; simpl; [reflexivity | apply Hf]. Qed.

Lemma framed_bind {A B} (m : M A) (f : A -> M B) :
  framed m -> (forall a, framed (f a)) -> framed (bind m f).
Proof.
  intros Hm Hf v1 v2 s Hlen H0. unfold bind.
  destruct (Hm v1 v2 s Hlen H0) as (Hmono & new & Hnew & Hrange & Hsame).
  destruct (m v1 s) as [[a|x] s1] eqn:Hm1; simpl in *.
  - destruct (Hf a v1 v2 s1 Hlen ltac:(lia)) as (Hmono' & new' & Hnew' & Hrange' & Hsame').
    split; [lia|]. exists (new ++ new').
    split; [rewrite Hnew', Hnew, app_assoc; reflexivity|]. split.
    + intros d Hin. apply in_app_or in Hin as [Hin|Hin];
        [apply Hrange in Hin | apply Hrange' in Hin]; lia.
    + intros Hag. rewrite Hsame.
      * apply Hsame'. intros i Hi Hout. apply Hag; [lia|].
        intros d Hin. apply in_app_or in Hin as [Hin|Hin]; [|auto].
        apply Hrange in Hin. lia.
      * intros i Hi Hout. apply Hag; [lia|].
        intros d Hin. apply in_app_or in Hin as [Hin|Hin]; [auto|].
        apply Hrange' in Hin. lia.
  - split; [lia|]. exists new. split; [exact Hnew|]. split; [exact Hrange|].
    intros Hag. rewrite (Hsame Hag). reflexivity.
Qed.

Lemma framed_if {A} (c : bool) (m1 m2 : M A) :
  framed m1 -> framed m2 -> framed (if c then m1 else m2).
Proof. destruct c; auto. Qed.

Lemma framed_replicateM {A} n (m : M A) : framed m -> framed (replicateM n m).
Proof.
  intros Hm. induction n as [|n IH]; simpl; [apply framed_ret|].
  apply framed_bind; [exact Hm|]. intros a.
  apply framed_bind; [exact IH|]. intros l. apply framed_ret.
Qed.

Lemma framed_mapM {A B} (f : A -> M B) l : (forall a, framed (f a)) -> framed (mapM f l).
Proof.
  intros Hf. induction l as [|a l IH]; simpl; [apply framed_ret|].
  apply framed_bind; [apply Hf|]. intros b.
  apply framed_bind; [exact IH|]. intros bs. apply framed_ret.
Qed.

Lemma framed_foldM {A B} (f : B -> A -> M B) l :
  (forall b a, framed (f b a)) -> forall b, framed (foldM f b l).
Proof.
  intros Hf. induction l as [|a l IH]; intros b; simpl; [apply framed_ret|].
  apply framed_bind; [apply Hf | exact IH].
Qed.

Lemma framed_guarded {A} (c : list byte -> machine -> bool) x (m : M A) :
  (forall v1 v2 s, length v1 = length v2 -> c v1 s = c v2 s) ->
  framed m ->
  framed (fun v s => if c v s then (Fail x, s) else m v s).
Proof.
  intros Hc Hm v1 v2 s Hlen H0. rewrite <- (Hc v1 v2 s Hlen).
  destruct (c v1 s); [|apply Hm; assumption].
  simpl. split; [lia|]. exists []. rewrite app_nil_r.
  split; [reflexivity|]. split; [intros d []|]. reflexivity.
Qed.

Lemma e_same v1 v2 : length v1 = length v2 -> e v1 = e v2.
Proof. unfold e. congruence. Qed.

Lemma framed_deref_incr : framed deref_incr.
Proof.
  intros v1 v2 s Hlen H0. unfold deref_incr. rewrite <- (e_same v1 v2 Hlen).
  destruct ((0 <=? offset s) && (offset s <? e v1)) eqn:Hc.
  - apply andb_true_iff in Hc as [_ Hc]. apply Z.ltb_lt in Hc.
    destruct (v1 !! Z.to_nat (offset s)) as [b|] eqn:Hb.
    + simpl. split; [lia|]. exists []. rewrite app_nil_r.
      split; [reflexivity|]. split; [intros d []|].
      intros Hag. rewrite <- (Hag (offset s)), Hb; [reflexivity | lia | intros d []].
    + apply lookup_ge_None in Hb. unfold e in Hc. lia.
  - simpl. split; [lia|]. exists []. rewrite app_nil_r.
    split; [reflexivity|]. split; [intros d []|]. reflexivity.
Qed.

Create HintDb framed.
#[local] Hint Resolve framed_ret framed_get framed_raise framed_buffer_size
  framed_deref_incr : framed.
#[local] Hint Extern 1 (framed (modify _)) =>
  apply framed_modify; intros; simpl; split; [lia | reflexivity] : framed.
#[local] Hint Extern 2 (framed (bind _ _)) => apply framed_bind; [|intros] : framed.
#[local] Hint Extern 2 (framed (if _ then _ else _)) => apply framed_if : framed.
#[local] Hint Extern 2 (framed (replicateM _ _)) => apply framed_replicateM : framed.
#[local] Hint Extern 2 (framed (mapM _ _)) => apply framed_mapM; intros : framed.
#[local] Hint Extern 2 (framed (foldM _ _ _)) => apply framed_foldM; intros : framed.
#[local] Hint Extern 3 (framed (match ?x with _ => _ end)) => destruct x : framed.

Ltac framed_tac := unshelve (eauto 80 with framed).

Lemma framed_read32 : framed read32.
Proof.
  apply (framed_guarded (fun v s => (offset s + 4 >? e v) || (offset s + 4 <? offset s)));
    [intros v1 v2 s Hlen; rewrite (e_same v1 v2 Hlen); reflexivity|]. framed_tac.
Qed.

Lemma framed_read16 : framed read16.
Proof.
  apply (framed_guarded (fun v s => (offset s + 2 >? e v) || (offset s + 2 <? offset s)));
    [intros v1 v2 s Hlen; rewrite (e_same v1 v2 Hlen); reflexivity|]. framed_tac.
Qed.

Lemma framed_read8 : framed read8.
Proof.
  apply (framed_guarded (fun v s => offset s + 1 >? e v));
    [intros v1 v2 s Hlen; rewrite (e_same v1 v2 Hlen); reflexivity|]. framed_tac.
Qed.

Lemma framed_skip amt : framed (skip amt).
Proof.
  apply framed_moving.
  - intros v1 v2 s Hlen. unfold skip. rewrite (e_same v1 v2 Hlen). reflexivity.
  - intros v s. unfold skip.
    destruct (offset s + amt >? e v); simpl; [split; [lia | reflexivity]|].
    destruct (Z.ltb_spec (offset s + amt) (offset s)); simpl; split; (lia || reflexivity).
Qed.

Lemma framed_advance n : 0 <= n -> framed (advance n).
Proof. intros Hn. apply framed_modify. intros s. simpl. split; [lia | reflexivity]. Qed.

Lemma framed_log fn text : framed (log fn text).
Proof. unfold log. framed_tac. Qed.

#[local] Hint Resolve framed_read32 framed_read16 framed_read8 framed_skip framed_log : framed.

Lemma framed_check fn ok text : framed (check fn ok text).
Proof. unfold check. framed_tac. Qed.
#[local] Hint Resolve framed_check : framed.

Lemma framed_name_padding n : forall len, framed (name_padding n len).
Proof. induction n as [|n IH]; intros len; simpl; framed_tac. Qed.
#[local] Hint Resolve framed_name_padding : framed.

Lemma deref_incr_run v s :
  0 <= offset s < e v ->
  exists b, deref_incr v s = (Ok (u8 b), set_offset (offset s + 1) s).
Proof.
  intros H. destruct (lookup_lt_is_Some_2 v (Z.to_nat (offset s))) as [b Hb];
    [unfold e in H; lia|].
  exists b. apply deref_incr_at; [lia | exact Hb].
Qed.

(** Whether [read32] succeeds, and where it leaves the machine, depends
    on the size of the buffer only. *)
Lemma read32_shape v s :
  0 <= offset s ->
  (e v < offset s + 4 /\ read32 v s = (Fail (Thrown truncated), s)) \/
  (offset s + 4 <= e v /\ exists z, read32 v s = (Ok z, set_offset (offset s + 4) s)).
Proof.
  intros H0. unfold read32.
  destruct (Z.ltb_spec (e v) (offset s + 4)) as [Hlt|Hge].
  - left. split; [exact Hlt|]. rewrite Z.gtb_ltb.
    destruct (Z.ltb_spec (e v) (offset s + 4)); [reflexivity | lia].
  - right. split; [exact Hge|]. rewrite Z.gtb_ltb.
    destruct (Z.ltb_spec (e v) (offset s + 4)); [lia|].
    destruct (Z.ltb_spec (offset s + 4) (offset s)); [lia|]. simpl.
    destruct (deref_incr_run v s ltac:(lia)) as [b0 E0].
    destruct (deref_incr_run v (set_offset (offset s + 1) s) ltac:(simpl; lia)) as [b1 E1].
    destruct (deref_incr_run v (set_offset (offset s + 1 + 1) s) ltac:(simpl; lia))
      as [b2 E2].
    destruct (deref_incr_run v (set_offset (offset s + 1 + 1 + 1) s) ltac:(simpl; lia))
      as [b3 E3].
    simpl in *. eexists.
    rewrite (bind_run _ _ _ _ _ _ E0), (bind_run _ _ _ _ _ _ E1).
    rewrite (bind_run _ _ _ _ _ _ E2), (bind_run _ _ _ _ _ _ E3).
    unfold ret, set_offset. simpl. do 2 f_equal. lia.
Qed.

Lemma in_singleton_Z (d a : Z) : In d [a] -> d = a.
Proof. intros [H|[]]. symmetry. exact H. Qed.

(** Line 147: the length is read and dropped; only its place is noted. *)
Lemma framed_drop_length {A} (a : A) :
  framed (let* s := get in
          let* length := read32 in
          modify (add_length_field (offset s));;
          ret a).
Proof.
  intros v1 v2 s Hlen H0.
  assert (forall v,
            (let* s := get in
             let* length := read32 in
             modify (add_length_field (offset s));;
             ret a) v s
            = match read32 v s with
              | (Ok _, s') => (Ok a, add_length_field (offset s) s')
              | (Fail x, s') => (Fail x, s')
              end) as Hrun
    by (intros v; unfold bind, get, modify, ret; destruct (read32 v s) as [[]]; reflexivity).
  rewrite !Hrun.
  destruct (read32_shape v1 s H0) as [[He1 E1] | [He1 [z1 E1]]];
    destruct (read32_shape v2 s H0) as [[He2 E2] | [He2 [z2 E2]]];
    rewrite (e_same v1 v2 Hlen) in He1; try lia; rewrite E1, E2; simpl.
  - split; [lia|]. exists []. rewrite app_nil_r.
    split; [reflexivity|]. split; [intros d []|]. reflexivity.
  - split; [lia|]. exists [offset s].
    split; [reflexivity|]. split; [intros d Hd; apply in_singleton_Z in Hd; lia|].
    reflexivity.
Qed.

Lemma framed_read_channel_info : framed read_channel_info.
Proof.
  unfold read_channel_info. apply framed_bind; [apply framed_read16|].
  intros k. apply framed_drop_length.
Qed.
#[local] Hint Resolve framed_read_channel_info : framed.

Lemma framed_read_layer_record fn : framed (read_layer_record fn).
Proof. unfold read_layer_record, read_name. framed_tac. Qed.

Lemma framed_read_header fn : framed (read_header fn).
Proof. unfold read_header, set_height, set_width. framed_tac. Qed.

Lemma framed_read_layer_count : framed read_layer_count.
Proof. unfold read_layer_count. framed_tac. Qed.

Lemma take_drop_agree (v1 v2 : list byte) lo n :
  0 <= lo -> 0 <= n ->
  (forall i, lo <= i < lo + n -> v1 !! Z.to_nat i = v2 !! Z.to_nat i) ->
  take (Z.to_nat n) (drop (Z.to_nat lo) v1) = take (Z.to_nat n) (drop (Z.to_nat lo) v2).
Proof.
  intros Hlo Hn H. apply list_eq. intros j. rewrite !lookup_take.
  case_decide; [|reflexivity]. rewrite !lookup_drop.
  specialize (H (lo + Z.of_nat j) ltac:(lia)).
  replace (Z.to_nat (lo + Z.of_nat j)) with (Z.to_nat lo + j)%nat in H by lia.
  exact H.
Qed.

(** Lines 200-201: the copy and the move of the cursor, together. *)
Lemma framed_raw_copy {A} n (g : list byte -> A) :
  0 <= n ->
  framed (let* bytes := copy_from_cursor n in advance n;; ret (g bytes)).
Proof.
  intros Hn v1 v2 s Hlen H0.
  unfold bind, copy_from_cursor, advance, modify, ret.
  rewrite <- (e_same v1 v2 Hlen).
  destruct (n =? 0); simpl.
  - split; [lia|]. exists []. rewrite app_nil_r.
    split; [reflexivity|]. split; [intros d []|]. reflexivity.
  - destruct ((0 <=? offset s) && (offset s + n <=? e v1)); simpl.
    + split; [lia|]. exists []. rewrite app_nil_r.
      split; [reflexivity|]. split; [intros d []|].
      intros Hag. do 3 f_equal. symmetry. apply take_drop_agree; [lia | lia|].
      intros i Hi. apply Hag; [lia | intros d []].
    + split; [lia|]. exists []. rewrite app_nil_r.
      split; [reflexivity|]. split; [intros d []|]. reflexivity.
Qed.

Lemma framed_rle_step d : framed (rle_step d).
Proof. unfold rle_step. framed_tac. Qed.

Lemma framed_rle_loop fuel area : forall d, framed (rle_loop fuel area d).
Proof.
  induction fuel as [|fuel IH]; intros d; simpl.
  - apply framed_if; framed_tac.
  - apply framed_if; [|framed_tac]. apply framed_bind; [apply framed_rle_step | exact IH].
Qed.

Lemma framed_decode_channel fn w h c : framed (decode_channel fn w h c).
Proof.
  unfold decode_channel. apply framed_bind; [apply framed_read16 | intros comp].
  apply framed_if; [apply framed_raw_copy, wrap32_range|].
  apply framed_if; [|framed_tac].
  apply framed_bind; [apply framed_advance, wrap32_range | intros _].
  apply framed_bind; [apply framed_buffer_size | intros size].
  apply framed_bind; [apply framed_rle_loop | framed_tac].
Qed.

Lemma framed_read_layers fn : framed (read_layers fn).
Proof.
  unfold read_layers.
  apply framed_bind; [apply framed_read_layer_count | intros count].
  apply framed_bind; [apply framed_replicateM, framed_read_layer_record | intros raw].
  apply framed_mapM. intros l. unfold decode_layer.
  apply framed_bind; [|framed_tac].
  apply framed_mapM. intros c. apply framed_decode_channel.
Qed.

Lemma framed_reconstruct fn raw : framed (reconstruct fn raw).
Proof.
  unfold reconstruct. apply framed_foldM. intros loc l.
  unfold reconstruct_step, push_layer, warn_channel. framed_tac.
Qed.

Lemma framed_buffer_start : framed buffer_start.
Proof.
  intros v1 v2 s Hlen H0.
  assert (buffer_start v2 s = buffer_start v1 s) as Hsame
    by (destruct v1, v2; simpl in Hlen; try discriminate; reflexivity).
  assert (snd (buffer_start v1 s) = s) as -> by (destruct v1; reflexivity).
  split; [lia|]. exists []. rewrite app_nil_r.
  split; [reflexivity|]. split; [intros d []|]. intros _. exact Hsame.
Qed.

Lemma framed_load fn : framed (load fn).
Proof.
  unfold load. apply framed_bind; [apply framed_buffer_start | intros _].
  apply framed_bind; [apply framed_read_header | intros _].
  apply framed_bind; [apply framed_read_layers | intros raw].
  apply framed_bind; [apply framed_reconstruct | intros _; apply framed_ret].
Qed.

(** C10: the outcome of the decode, and with it the document it builds,
    does not depend on the per-channel byte-length fields of the layer
    records: two buffers of the same size that hold the same bytes
    everywhere outside those four-byte fields decode alike. *)
Theorem load_ignores_channel_lengths fn v1 v2 p :
  length v1 = length v2 ->
  (forall i : nat,
     (forall d, In d (length_fields (snd (load fn v1 (start p)))) ->
                ~ (d <= Z.of_nat i < d + 4)) ->
     v1 !! i = v2 !! i) ->
  load fn v2 (start p) = load fn v1 (start p).
Proof.
  intros Hlen Hsame.
  destruct (framed_load fn v1 v2 (start p) Hlen ltac:(simpl; lia))
    as (_ & new & Hnew & _ & Hag).
  simpl in Hnew. apply Hag. intros i Hi Hout.
  apply Hsame. rewrite Hnew. intros d Hin. rewrite Z2Nat.id by (simpl in Hi; lia).
  apply Hout, Hin.
Qed.

Lemma load_ignores_channel_lengths_witness :
  load "f.psd" (file_rgb 0x01020304) (start (mk_psd 0 0 []))
  = load "f.psd" (file_rgb 0) (start (mk_psd 0 0 [])).
Proof.
  apply (load_ignores_channel_lengths "f.psd" (file_rgb 0) (file_rgb 0x01020304)
           (mk_psd 0 0 [])); [vm_compute; reflexivity|].
  assert (length_fields (snd (load "f.psd" (file_rgb 0) (start (mk_psd 0 0 []))))
          = [64; 70; 76]) as -> by (vm_compute; reflexivity).
  intros i Hi.
  assert (forall d, d = 64 \/ d = 70 \/ d = 76 -> ~ (d <= Z.of_nat i < d + 4)) as Hout
    by (intros d [-> | [-> | ->]]; apply Hi; simpl; auto).
  pose proof (Hout 64 ltac:(tauto)). pose proof (Hout 70 ltac:(tauto)).
  pose proof (Hout 76 ltac:(tauto)). clear Hi Hout.
  do 136 (destruct i as [|i]; [first [vm_compute; reflexivity | exfalso; lia]|]).
  vm_compute. reflexivity.
Defined.

(** ** Values read by the cursor *)

Lemma small_bits_above b n k : 0 <= b < 2 ^ k -> 0 <= k <= n -> Z.testbit b n = false.
Proof.
  intros Hb Hk. destruct (Z.eq_dec b 0) as [->|Hne]; [apply Z.bits_0|].
  apply Z.bits_above_log2; [lia|].
  assert (Z.log2 b < k) by (apply Z.log2_lt_pow2; lia). lia.
Qed.

Lemma lor_shiftl_add v b k :
  0 <= k -> 0 <= b < 2 ^ k -> Z.lor (Z.shiftl v k) b = v * 2 ^ k + b.
Proof.
  intros Hk Hb.
  assert (Z.land (Z.shiftl v k) b = 0) as Hland.
  { apply Z.bits_inj'. intros n Hn. rewrite Z.land_spec, Z.bits_0.
    destruct (Z.lt_ge_cases n k).
    - rewrite Z.shiftl_spec_low by lia. reflexivity.
    - rewrite (small_bits_above b n k) by lia. apply andb_false_r. }
  pose proof (Z.add_lor_land (Z.shiftl v k) b) as H.
  rewrite Hland in H. rewrite <- (Z.shiftl_mul_pow2 v k) by lia. lia.
Qed.

Lemma shl8_or_value v b :
  0 <= v < 2 ^ 24 -> 0 <= b < 256 -> shl8_or v b = v * 256 + b.
Proof.
  intros Hv Hb. unfold shl8_or.
  rewrite wrap32_small by (rewrite Z.shiftl_mul_pow2; lia).
  apply (lor_shiftl_add v b 8); lia.
Qed.

Lemma read32_Ok v s z s' :
  read32 v s = (Ok z, s') ->
  exists b0 b1 b2 b3,
    v !! Z.to_nat (offset s) = Some b0 /\
    v !! Z.to_nat (offset s + 1) = Some b1 /\
    v !! Z.to_nat (offset s + 2) = Some b2 /\
    v !! Z.to_nat (offset s + 3) = Some b3 /\
    z = u8 b0 * 2 ^ 24 + u8 b1 * 2 ^ 16 + u8 b2 * 2 ^ 8 + u8 b3 /\
    0 <= offset s /\ offset s + 4 <= e v /\
    s' = set_offset (offset s + 4) s.
Proof.
  unfold read32.
  destruct ((offset s + 4 >? e v) || (offset s + 4 <? offset s)) eqn:Hc; [discriminate|].
  apply orb_false_iff in Hc as [Hc _]. rewrite Z.gtb_ltb in Hc. apply Z.ltb_ge in Hc.
  intros H.
  apply bind_Ok in H as (z0 & s1 & H0 & H).
  apply deref_incr_Ok in H0 as (b0 & Hb0 & -> & Hr0 & ->).
  apply bind_Ok in H as (z1 & s2 & H1 & H).
  apply deref_incr_Ok in H1 as (b1 & Hb1 & -> & Hr1 & ->).
  apply bind_Ok in H as (z2 & s3 & H2 & H).
  apply deref_incr_Ok in H2 as (b2 & Hb2 & -> & Hr2 & ->).
  apply bind_Ok in H as (z3 & s4 & H3 & H).
  apply deref_incr_Ok in H3 as (b3 & Hb3 & -> & Hr3 & ->).
  inversion H; subst; clear H. simpl in *.
  exists b0, b1, b2, b3.
  replace (offset s + 1 + 1) with (offset s + 2) in * by lia.
  replace (offset s + 2 + 1) with (offset s + 3) in * by lia.
  pose proof (u8_range b0). pose proof (u8_range b1).
  pose proof (u8_range b2). pose proof (u8_range b3).
  repeat split; try assumption; try lia.
  - rewrite (shl8_or_value 0 (u8 b0)) by lia.
    rewrite (shl8_or_value _ (u8 b1)) by lia.
    rewrite (shl8_or_value _ (u8 b2)) by lia.
    rewrite (shl8_or_value _ (u8 b3)) by lia. lia.
  - unfold set_offset. simpl. f_equal. lia.
Qed.

Lemma read16_value v s z s' :
  read16 v s = (Ok z, s') ->
  exists b0 b1,
    v !! Z.to_nat (offset s) = Some b0 /\
    v !! Z.to_nat (offset s + 1) = Some b1 /\
    z = u8 b0 * 2 ^ 8 + u8 b1.
Proof.
  unfold read16.
  destruct ((offset s + 2 >? e v) || (offset s + 2 <? offset s)) eqn:Hc; [discriminate|].
  intros H.
  apply bind_Ok in H as (z0 & s1 & H0 & H).
  apply deref_incr_Ok in H0 as (b0 & Hb0 & -> & Hr0 & ->).
  apply bind_Ok in H as (z1 & s2 & H1 & H).
  apply deref_incr_Ok in H1 as (b1 & Hb1 & -> & Hr1 & ->).
  inversion H; subst; clear H. simpl in *.
  exists b0, b1. pose proof (u8_range b0). pose proof (u8_range b1).
  repeat split; try assumption.
  rewrite (shl8_or_value 0 (u8 b0)) by lia.
  rewrite (shl8_or_value _ (u8 b1)) by lia. lia.
Qed.

(** Running the helpers on a buffer that holds the bytes. *)
Lemma read32_at v s b0 b1 b2 b3 :
  0 <= offset s ->
  v !! Z.to_nat (offset s) = Some b0 ->
  v !! Z.to_nat (offset s + 1) = Some b1 ->
  v !! Z.to_nat (offset s + 2) = Some b2 ->
  v !! Z.to_nat (offset s + 3) = Some b3 ->
  read32 v s
  = (Ok (u8 b0 * 2 ^ 24 + u8 b1 * 2 ^ 16 + u8 b2 * 2 ^ 8 + u8 b3),
     set_offset (offset s + 4) s).
Proof.
  intros H0 Hb0 Hb1 Hb2 Hb3.
  destruct (read32_shape v s H0) as [[He _] | [_ [z Hz]]].
  - apply lookup_lt_Some in Hb3. unfold e in He. lia.
  - rewrite Hz. apply read32_Ok in Hz
      as (c0 & c1 & c2 & c3 & Hc0 & Hc1 & Hc2 & Hc3 & -> & _).
    congruence.
Qed.

Lemma read16_shape v s :
  0 <= offset s ->
  (e v < offset s + 2 /\ read16 v s = (Fail (Thrown truncated), s)) \/
  (offset s + 2 <= e v /\ exists z, read16 v s = (Ok z, set_offset (offset s + 2) s)).
Proof.
  intros H0. unfold read16. rewrite Z.gtb_ltb.
  destruct (Z.ltb_spec (e v) (offset s + 2)) as [Hlt|Hge].
  - left. split; [exact Hlt | reflexivity].
  - right. split; [exact Hge|].
    destruct (Z.ltb_spec (offset s + 2) (offset s)); [lia|]. simpl.
    destruct (deref_incr_run v s ltac:(lia)) as [b0 E0].
    destruct (deref_incr_run v (set_offset (offset s + 1) s) ltac:(simpl; lia)) as [b1 E1].
    simpl in *. eexists.
    rewrite (bind_run _ _ _ _ _ _ E0), (bind_run _ _ _ _ _ _ E1).
    unfold ret, set_offset. simpl. do 2 f_equal. lia.
Qed.

Lemma read8_shape v s :
  0 <= offset s ->
  (e v < offset s + 1 /\ read8 v s = (Fail (Thrown truncated), s)) \/
  (offset s + 1 <= e v /\ exists z, read8 v s = (Ok z, set_offset (offset s + 1) s)).
Proof.
  intros H0. unfold read8. rewrite Z.gtb_ltb.
  destruct (Z.ltb_spec (e v) (offset s + 1)) as [Hlt|Hge].
  - left. split; [exact Hlt | reflexivity].
  - right. split; [exact Hge|].
    destruct (deref_incr_run v s ltac:(lia)) as [b0 E0]. eauto.
Qed.

Lemma read16_at v s b0 b1 :
  0 <= offset s ->
  v !! Z.to_nat (offset s) = Some b0 ->
  v !! Z.to_nat (offset s + 1) = Some b1 ->
  read16 v s = (Ok (u8 b0 * 2 ^ 8 + u8 b1), set_offset (offset s + 2) s).
Proof.
  intros H0 Hb0 Hb1.
  destruct (read16_shape v s H0) as [[He _] | [_ [z Hz]]].
  - apply lookup_lt_Some in Hb1. unfold e in He. lia.
  - rewrite Hz. apply read16_value in Hz as (c0 & c1 & Hc0 & Hc1 & ->). congruence.
Qed.

(** X1: [read32] assembles the four bytes at the cursor most significant
    first, into a value below 2^32, and moves the cursor by four. *)
Theorem read32_is_big_endian v s b0 b1 b2 b3 :
  0 <= offset s ->
  v !! Z.to_nat (offset s) = Some b0 ->
  v !! Z.to_nat (offset s + 1) = Some b1 ->
  v !! Z.to_nat (offset s + 2) = Some b2 ->
  v !! Z.to_nat (offset s + 3) = Some b3 ->
  read32 v s
  = (Ok (u8 b0 * 2 ^ 24 + u8 b1 * 2 ^ 16 + u8 b2 * 2 ^ 8 + u8 b3),
     set_offset (offset s + 4) s) /\
  0 <= u8 b0 * 2 ^ 24 + u8 b1 * 2 ^ 16 + u8 b2 * 2 ^ 8 + u8 b3 < 2 ^ 32.
Proof.
  intros H0 Hb0 Hb1 Hb2 Hb3. split; [apply read32_at; assumption|].
  pose proof (u8_range b0). pose proof (u8_range b1).
  pose proof (u8_range b2). pose proof (u8_range b3). lia.
Qed.

Lemma read32_is_big_endian_witness :
  read32 [x00; x12; x34; x56; x78] (set_offset 1 (start (mk_psd 0 0 [])))
  = (Ok 0x12345678, set_offset 5 (start (mk_psd 0 0 []))) /\
  0 <= 0x12345678 < 2 ^ 32.
Proof.
  apply (read32_is_big_endian [x00; x12; x34; x56; x78]
           (set_offset 1 (start (mk_psd 0 0 []))) x12 x34 x56 x78);
    [simpl; lia | reflexivity | reflexivity | reflexivity | reflexivity].
Defined.

(** X2: [read16] assembles the two bytes at the cursor most significant
    first, into a value below 2^16, and moves the cursor by two. *)
Theorem read16_is_big_endian v s b0 b1 :
  0 <= offset s ->
  v !! Z.to_nat (offset s) = Some b0 ->
  v !! Z.to_nat (offset s + 1) = Some b1 ->
  read16 v s = (Ok (u8 b0 * 2 ^ 8 + u8 b1), set_offset (offset s + 2) s) /\
  0 <= u8 b0 * 2 ^ 8 + u8 b1 < 2 ^ 16.
Proof.
  intros H0 Hb0 Hb1. split; [apply read16_at; assumption|].
  pose proof (u8_range b0). pose proof (u8_range b1). lia.
Qed.

Lemma read16_is_big_endian_witness :
  read16 [xff; xfe] (start (mk_psd 0 0 []))
  = (Ok 0xFFFE, set_offset 2 (start (mk_psd 0 0 []))) /\
  0 <= 0xFFFE < 2 ^ 16.
Proof.
  apply (read16_is_big_endian [xff; xfe] (start (mk_psd 0 0 [])) xff xfe);
    [simpl; lia | reflexivity | reflexivity].
Defined.

(** X3: from a cursor inside the buffer, each of the four checked helpers
    either throws "Truncated PSD" without moving the cursor - exactly when
    fewer bytes are left than it needs - or succeeds with the cursor
    moved by its width and still inside the buffer.  None of them reads
    outside the buffer. *)
Theorem checked_helpers_stay_inside v s amt :
  0 <= offset s -> 0 <= amt ->
  ((e v < offset s + 4 /\ read32 v s = (Fail (Thrown truncated), s)) \/
   (offset s + 4 <= e v /\ exists z, read32 v s = (Ok z, set_offset (offset s + 4) s))) /\
  ((e v < offset s + 2 /\ read16 v s = (Fail (Thrown truncated), s)) \/
   (offset s + 2 <= e v /\ exists z, read16 v s = (Ok z, set_offset (offset s + 2) s))) /\
  ((e v < offset s + 1 /\ read8 v s = (Fail (Thrown truncated), s)) \/
   (offset s + 1 <= e v /\ exists z, read8 v s = (Ok z, set_offset (offset s + 1) s))) /\
  ((e v < offset s + amt /\ skip amt v s = (Fail (Thrown truncated), s)) \/
   (offset s + amt <= e v /\ skip amt v s = (Ok tt, set_offset (offset s + amt) s))).
Proof.
  intros H0 Hamt.
  split; [apply read32_shape, H0|]. split; [apply read16_shape, H0|].
  split; [apply read8_shape, H0|].
  destruct (skip_checked amt v s Hamt) as [Hin Hout].
  destruct (Z.lt_ge_cases (e v) (offset s + amt)); [left | right]; auto.
Qed.

Lemma checked_helpers_stay_inside_witness :
  ((e [x01; x02] < 0 + 4 /\
    read32 [x01; x02] (start (mk_psd 0 0 [])) = (Fail (Thrown truncated), start (mk_psd 0 0 []))) \/
   (0 + 4 <= e [x01; x02] /\
    exists z, read32 [x01; x02] (start (mk_psd 0 0 []))
              = (Ok z, set_offset (0 + 4) (start (mk_psd 0 0 []))))) /\
  ((e [x01; x02] < 0 + 2 /\
    read16 [x01; x02] (start (mk_psd 0 0 [])) = (Fail (Thrown truncated), start (mk_psd 0 0 []))) \/
   (0 + 2 <= e [x01; x02] /\
    exists z, read16 [x01; x02] (start (mk_psd 0 0 []))
              = (Ok z, set_offset (0 + 2) (start (mk_psd 0 0 []))))) /\
  ((e [x01; x02] < 0 + 1 /\
    read8 [x01; x02] (start (mk_psd 0 0 [])) = (Fail (Thrown truncated), start (mk_psd 0 0 []))) \/
   (0 + 1 <= e [x01; x02] /\
    exists z, read8 [x01; x02] (start (mk_psd 0 0 []))
              = (Ok z, set_offset (0 + 1) (start (mk_psd 0 0 []))))) /\
  ((e [x01; x02] < 0 + 3 /\
    skip 3 [x01; x02] (start (mk_psd 0 0 [])) = (Fail (Thrown truncated), start (mk_psd 0 0 []))) \/
   (0 + 3 <= e [x01; x02] /\
    skip 3 [x01; x02] (start (mk_psd 0 0 []))
    = (Ok tt, set_offset (0 + 3) (start (mk_psd 0 0 []))))).
Proof.
  apply (checked_helpers_stay_inside [x01; x02] (start (mk_psd 0 0 [])) 3);
    simpl; lia.
Defined.

(** ** The file header *)

Lemma check_Ok fn ok text v s s' :
  check fn ok text v s = (Ok tt, s') -> ok = true /\ s' = s.
Proof.
  unfold check. destruct ok; [intros [= <-]; auto|].
  unfold bind, log, modify, raise. discriminate.
Qed.

Lemma check_false fn text v s :
  check fn false text v s = (Fail ReturnedFalse, add_cerr (message fn text) s).
Proof. reflexivity. Qed.

Lemma skip_Ok amt v s s' :
  skip amt v s = (Ok tt, s') ->
  s' = set_offset (offset s + amt) s /\ 0 <= amt /\ offset s + amt <= e v.
Proof.
  unfold skip. rewrite Z.gtb_ltb.
  destruct (Z.ltb_spec (e v) (offset s + amt)); [discriminate|].
  destruct (Z.ltb_spec (offset s + amt) (offset s)); [discriminate|].
  simpl. intros [= <-]. repeat split; lia.
Qed.

Lemma read16_inv v s z s' :
  read16 v s = (Ok z, s') ->
  exists b0 b1,
    v !! Z.to_nat (offset s) = Some b0 /\
    v !! Z.to_nat (offset s + 1) = Some b1 /\
    z = u8 b0 * 2 ^ 8 + u8 b1 /\
    0 <= offset s /\ offset s + 2 <= e v /\
    s' = set_offset (offset s + 2) s.
Proof.
  intros H. destruct (read16_value _ _ _ _ H) as (b0 & b1 & H0 & H1 & Hz).
  destruct (read16_Ok _ _ _ _ H) as (Ho & He & Hs). exists b0, b1. auto 10.
Qed.

Lemma u8_inj_const b z : u8 b = z -> b = byte_of z.
Proof. intros <-. symmetry. apply byte_of_u8. Qed.

(** X4: when the header is accepted, the file does start with the
    signature 8BPS, version 1, and hold depth 8 and colour mode 3 at
    offsets 22 and 24; the object's height and width are the big-endian
    values at offsets 14 and 18; nothing has been printed and the layer
    list is untouched. *)
Theorem accepted_header_is_valid fn v p s' :
  read_header fn v (start p) = (Ok tt, s') ->
  take 4 v = [x38; x42; x50; x53] /\
  v !! 4%nat = Some x00 /\ v !! 5%nat = Some x01 /\
  v !! 22%nat = Some x00 /\ v !! 23%nat = Some x08 /\
  v !! 24%nat = Some x00 /\ v !! 25%nat = Some x03 /\
  (exists h0 h1 h2 h3 w0 w1 w2 w3,
     take 8 (drop 14 v) = [h0; h1; h2; h3; w0; w1; w2; w3] /\
     height (self s') = u8 h0 * 2 ^ 24 + u8 h1 * 2 ^ 16 + u8 h2 * 2 ^ 8 + u8 h3 /\
     width (self s') = u8 w0 * 2 ^ 24 + u8 w1 * 2 ^ 16 + u8 w2 * 2 ^ 8 + u8 w3) /\
  layers (self s') = layers p /\ cerr s' = [] /\ 34 <= offset s' <= e v.
Proof.
  intros H. unfold read_header in H.
  apply bind_Ok in H as (sig & s1 & Hsig & H).
  apply read32_Ok in Hsig as (g0 & g1 & g2 & g3 & Hg0 & Hg1 & Hg2 & Hg3 & -> & _ & _ & ->).
  apply bind_Ok in H as ([] & s2 & Hck & H). apply check_Ok in Hck as [Hsigv ->].
  apply Z.eqb_eq in Hsigv.
  apply bind_Ok in H as (ver & s3 & Hver & H).
  apply read16_inv in Hver as (r0 & r1 & Hr0 & Hr1 & -> & _ & _ & ->).
  apply bind_Ok in H as ([] & s4 & Hck & H). apply check_Ok in Hck as [Hverv ->].
  apply Z.eqb_eq in Hverv.
  apply bind_Ok in H as ([] & s5 & Hsk & H). apply skip_Ok in Hsk as (-> & _ & _).
  apply bind_Ok in H as (chn & s6 & Hchn & H).
  apply read16_inv in Hchn as (c0 & c1 & _ & _ & _ & _ & _ & ->).
  apply bind_Ok in H as (h & s7 & Hh & H).
  apply read32_Ok in Hh as (h0 & h1 & h2 & h3 & Hh0 & Hh1 & Hh2 & Hh3 & -> & _ & _ & ->).
  apply bind_Ok in H as ([] & s8 & Hset & H). inversion Hset; subst s8; clear Hset.
  apply bind_Ok in H as (w & s9 & Hw & H).
  apply read32_Ok in Hw as (w0 & w1 & w2 & w3 & Hw0 & Hw1 & Hw2 & Hw3 & -> & _ & _ & ->).
  apply bind_Ok in H as ([] & s10 & Hset & H). inversion Hset; subst s10; clear Hset.
  apply bind_Ok in H as (dep & s11 & Hdep & H).
  apply read16_inv in Hdep as (d0 & d1 & Hd0 & Hd1 & -> & _ & _ & ->).
  apply bind_Ok in H as ([] & s12 & Hck & H). apply check_Ok in Hck as [Hdepv ->].
  apply Z.eqb_eq in Hdepv.
  apply bind_Ok in H as (mode & s13 & Hmode & H).
  apply read16_inv in Hmode as (m0 & m1 & Hm0 & Hm1 & -> & _ & _ & ->).
  apply bind_Ok in H as ([] & s14 & Hck & H). apply check_Ok in Hck as [Hmodev ->].
  apply Z.eqb_eq in Hmodev.
  apply bind_Ok in H as (cdl & s15 & Hcdl & H).
  apply read32_Ok in Hcdl as (? & ? & ? & ? & _ & _ & _ & _ & Hcdlv & _ & _ & ->).
  apply bind_Ok in H as ([] & s16 & Hsk & H). apply skip_Ok in Hsk as (-> & Hcd0 & _).
  apply bind_Ok in H as (irl & s17 & Hirl & H).
  apply read32_Ok in Hirl as (? & ? & ? & ? & _ & _ & _ & _ & Hirlv & _ & _ & ->).
  apply skip_Ok in H as (-> & Hir0 & Hend).
  simpl in *.
  pose proof (u8_range g0). pose proof (u8_range g1).
  pose proof (u8_range g2). pose proof (u8_range g3).
  pose proof (u8_range r0). pose proof (u8_range r1).
  pose proof (u8_range d0). pose proof (u8_range d1).
  pose proof (u8_range m0). pose proof (u8_range m1).
  assert (g0 = x38) by (apply (u8_inj_const g0 0x38); lia).
  assert (g1 = x42) by (apply (u8_inj_const g1 0x42); lia).
  assert (g2 = x50) by (apply (u8_inj_const g2 0x50); lia).
  assert (g3 = x53) by (apply (u8_inj_const g3 0x53); lia).
  assert (r0 = x00) by (apply (u8_inj_const r0 0); lia).
  assert (r1 = x01) by (apply (u8_inj_const r1 1); lia).
  assert (d0 = x00) by (apply (u8_inj_const d0 0); lia).
  assert (d1 = x08) by (apply (u8_inj_const d1 8); lia).
  assert (m0 = x00) by (apply (u8_inj_const m0 0); lia).
  assert (m1 = x03) by (apply (u8_inj_const m1 3); lia).
  subst.
  change (Z.to_nat 0) with 0%nat in *. change (Z.to_nat (0 + 1)) with 1%nat in *.
  change (Z.to_nat (0 + 2)) with 2%nat in *. change (Z.to_nat (0 + 3)) with 3%nat in *.
  split.
  { destruct v as [|a0 [|a1 [|a2 [|a3 rest]]]]; try discriminate.
    simpl in *. rewrite take_0. congruence. }
  split; [exact Hr0|]. split; [exact Hr1|].
  split; [exact Hd0|]. split; [exact Hd1|].
  split; [exact Hm0|]. split; [exact Hm1|].
  split.
  { exists h0, h1, h2, h3, w0, w1, w2, w3. split; [|split; reflexivity].
    apply list_eq. intros i. rewrite lookup_take, lookup_drop.
    do 8 (destruct i as [|i]; [simpl; assumption|]).
    rewrite decide_False by lia. reflexivity. }
  split; [reflexivity|]. split; [reflexivity|]. lia.
Qed.

Lemma accepted_header_is_valid_witness :
  take 4 (file_header 7 9 8) = [x38; x42; x50; x53].
Proof.
  apply (accepted_header_is_valid "f.psd" (file_header 7 9 8) (mk_psd 0 0 [])
           (mk_machine 34 (mk_psd 9 7 []) [] [])).
  vm_compute. reflexivity.
Defined.

(** X5: a file of one, two or three bytes makes [load] throw "Truncated
    PSD" at once; on the empty file [load] does not get that far: line 82
    takes the address of the first element of an empty vector, which is
    undefined.  Either way nothing is printed and the object is
    untouched. *)
Theorem short_file_fails_at_once fn v p :
  (length v < 4)%nat ->
  load fn v (start p)
  = (Fail (match v with
           | [] => Undefined "operator[] on an empty vector"
           | _ :: _ => Thrown truncated
           end), start p).
Proof.
  intros Hlen. destruct v as [|b v]; [reflexivity|].
  unfold load. rewrite (bind_run _ _ _ _ _ _ (buffer_start_run (b :: v) (start p)
                                                 ltac:(discriminate))).
  unfold read_header. apply bind_stop, bind_stop.
  destruct (read32_shape (b :: v) (start p) ltac:(simpl; lia)) as [[_ H] | [He _]];
    [exact H | unfold e in He; simpl in He, Hlen; lia].
Qed.

Lemma short_file_fails_at_once_witness :
  load "f.psd" [x38; x42; x50] (start (mk_psd 3 4 []))
  = (Fail (Thrown truncated), start (mk_psd 3 4 [])).
Proof.
  apply (short_file_fails_at_once "f.psd" [x38; x42; x50] (mk_psd 3 4 [])).
  simpl. lia.
Defined.

(** The empty file. *)
Example empty_file_is_undefined :
  load "f.psd" [] (start (mk_psd 3 4 []))
  = (Fail (Undefined "operator[] on an empty vector"), start (mk_psd 3 4 [])).
Proof. reflexivity. Qed.

(** X6: a file of four bytes or more that does not start with 8BPS is
    rejected: [load] returns false after printing "Signature not found."
    and nothing else, with the object untouched. *)
Theorem wrong_signature_is_rejected fn v p :
  (4 <= length v)%nat ->
  take 4 v <> [x38; x42; x50; x53] ->
  load fn v (start p)
  = (Fail ReturnedFalse, mk_machine 4 p [message fn "Signature not found."] []).
Proof.
  intros Hlen Hsig.
  destruct v as [|a0 [|a1 [|a2 [|a3 rest]]]]; simpl in Hlen; try lia.
  unfold load.
  rewrite (bind_run _ _ _ _ _ _
             (buffer_start_run (a0 :: a1 :: a2 :: a3 :: rest) (start p)
                ltac:(discriminate))).
  unfold read_header. apply bind_stop.
  rewrite (bind_run _ _ _ _ _ _
             (read32_at (a0 :: a1 :: a2 :: a3 :: rest) (start p) a0 a1 a2 a3
                ltac:(simpl; lia) eq_refl eq_refl eq_refl eq_refl)).
  apply bind_stop.
  destruct (Z.eqb_spec (u8 a0 * 2 ^ 24 + u8 a1 * 2 ^ 16 + u8 a2 * 2 ^ 8 + u8 a3)
              0x38425053) as [Heq|Hne]; [|reflexivity].
  exfalso. apply Hsig.
  pose proof (u8_range a0). pose proof (u8_range a1).
  pose proof (u8_range a2). pose proof (u8_range a3).
  rewrite (u8_inj_const a0 0x38) by lia. rewrite (u8_inj_const a1 0x42) by lia.
  rewrite (u8_inj_const a2 0x50) by lia. rewrite (u8_inj_const a3 0x53) by lia.
  simpl. rewrite take_0. reflexivity.
Qed.

Lemma wrong_signature_is_rejected_witness :
  load "f.psd" [x38; x42; x50; x42; x00] (start (mk_psd 3 4 []))
  = (Fail ReturnedFalse,
     mk_machine 4 (mk_psd 3 4 []) [message "f.psd" "Signature not found."] []).
Proof.
  apply wrong_signature_is_rejected; [simpl; lia | discriminate].
Defined.

(** ** Runs of bytes *)

Lemma set_offset_twice i j s : set_offset i (set_offset j s) = set_offset i s.
Proof. reflexivity. Qed.

Lemma set_offset_same s : set_offset (offset s) s = s.
Proof. destruct s. reflexivity. Qed.

(** [n] calls of [read8] deliver the next [n] bytes when they are there. *)
Lemma replicateM_read8_run n : forall v s,
  0 <= offset s -> offset s + Z.of_nat n <= e v ->
  replicateM n read8 v s
  = (Ok (map u8 (take n (drop (Z.to_nat (offset s)) v))),
     set_offset (offset s + Z.of_nat n) s).
Proof.
  induction n as [|n IH]; intros v s H0 He.
  - simpl. rewrite ?take_0, Z.add_0_r, set_offset_same. reflexivity.
  - destruct (lookup_lt_is_Some_2 v (Z.to_nat (offset s))) as [b Hb];
      [unfold e in He; lia|].
    simpl. rewrite (bind_run _ _ _ _ _ _ (read8_at v s b H0 Hb)).
    assert (0 <= offset (set_offset (offset s + 1) s)) as H1 by (simpl; lia).
    assert (offset (set_offset (offset s + 1) s) + Z.of_nat n <= e v) as H2
      by (change (offset s + 1 + Z.of_nat n <= e v); lia).
    rewrite (bind_run _ _ _ _ _ _ (IH v (set_offset (offset s + 1) s) H1 H2)).
    unfold ret. simpl offset. rewrite set_offset_twice.
    rewrite (drop_S _ _ _ Hb). simpl.
    replace (Z.to_nat (offset s + 1)) with (S (Z.to_nat (offset s))) by lia.
    replace (offset s + 1 + Z.of_nat n) with (offset s + Z.of_nat (S n)) by lia.
    reflexivity.
Qed.

Lemma replicateM_read8_Ok n v s l s' :
  replicateM n read8 v s = (Ok l, s') ->
  l = map u8 (take n (drop (Z.to_nat (offset s)) v)) /\
  s' = set_offset (offset s + Z.of_nat n) s.
Proof.
  intros H. destruct n as [|n].
  - simpl in H. inversion H; subst.
    rewrite ?take_0, Z.add_0_r, set_offset_same. auto.
  - destruct (replicateM_read8_offset _ _ _ _ _ H) as [Ho Hn].
    destruct Hn as [H0 He]; [discriminate|].
    rewrite replicateM_read8_run in H by lia. inversion H; subst. auto.
Qed.

Lemma char_of_u8 b : char_of (u8 b) = ascii_of_byte b.
Proof.
  unfold char_of. pose proof (u8_range b).
  replace (wrap8 (u8 b)) with (u8 b) by (symmetry; apply Z.mod_small; lia).
  unfold u8. rewrite N2Z.id. symmetry. apply ascii_of_byte_via_N.
Qed.

Lemma string_of_chars_bytes bs : string_of_chars (map u8 bs) = string_of_list_byte bs.
Proof.
  induction bs as [|b bs IH]; simpl; [reflexivity|].
  unfold string_of_chars in *. simpl. rewrite char_of_u8, IH. reflexivity.
Qed.

Lemma string_of_list_byte_length bs :
  String.length (string_of_list_byte bs) = length bs.
Proof. induction bs as [|b bs IH]; simpl; [reflexivity | f_equal; exact IH]. Qed.

(** ** Layer names, continued *)

Lemma name_padding_offset n : forall len v s s',
  0 <= len ->
  (4 - len mod 4) mod 4 <= Z.of_nat n ->
  name_padding n len v s = (Ok tt, s') ->
  offset s' = offset s + (4 - len mod 4) mod 4.
Proof.
  induction n as [|n IH]; intros len v s s' Hlen Hn H.
  - pose proof (Z.mod_pos_bound (4 - len mod 4) 4 ltac:(lia)).
    simpl in H. inversion H; subst. lia.
  - simpl in H. change 3 with (Z.ones 2) in H. rewrite Z.land_ones in H by lia.
    change (2 ^ 2) with 4 in H.
    pose proof (Z.mod_pos_bound len 4 ltac:(lia)) as Hr.
    destruct (Z.eqb_spec (len mod 4) 0) as [Hz|Hnz].
    + inversion H; subst. rewrite Hz. change ((4 - 0) mod 4) with 0. lia.
    + rewrite (Z.mod_small (4 - len mod 4)) in * by lia.
      apply bind_Ok in H as (z & s1 & Hrd & H).
      apply read8_Ok in Hrd as (b & _ & _ & _ & ->).
      assert (wrap32 (len + 1) mod 4 = (len mod 4 + 1) mod 4) as Hnext.
      { unfold wrap32. rewrite Z.mod_mod_divide by (exists (2 ^ 30); reflexivity).
        rewrite Z.add_mod by lia. reflexivity. }
      assert ((4 - wrap32 (len + 1) mod 4) mod 4 = 4 - len mod 4 - 1) as Hturns.
      { rewrite Hnext.
        destruct (Z.eq_dec (len mod 4) 3) as [->|]; [reflexivity|].
        rewrite (Z.mod_small (len mod 4 + 1)) by lia.
        rewrite Z.mod_small by lia. lia. }
      apply IH in H; [|apply wrap32_range | lia].
      rewrite H, Hturns. simpl. lia.
Qed.

Lemma name_padding_inside k : forall len v s s',
  name_padding k len v s = (Ok tt, s') -> offset s <= e v -> offset s' <= e v.
Proof.
  induction k as [|k IH]; intros len v s s' H Hle; simpl in H.
  - inversion H; subst. exact Hle.
  - destruct (Z.land len 3 =? 0); [inversion H; subst; exact Hle|].
    apply bind_Ok in H as (z & s2 & Hrd & H).
    apply read8_Ok in Hrd as (b & _ & _ & Hrb & ->).
    eapply IH; [exact H | simpl; lia].
Qed.

(** X8: a layer name is read as a length byte [n], [n] bytes of text and
    padding: the name is those [n] bytes, and the field takes [n + 1]
    bytes rounded up to a multiple of four. *)
Theorem layer_name_is_length_prefixed_and_padded v s nm s' :
  read_name v s = (Ok nm, s') ->
  exists n,
    v !! Z.to_nat (offset s) = Some n /\
    nm = string_of_list_byte (take (Z.to_nat (u8 n)) (drop (Z.to_nat (offset s + 1)) v)) /\
    String.length nm = Z.to_nat (u8 n) /\
    (offset s' - offset s) mod 4 = 0 /\
    u8 n + 1 <= offset s' - offset s <= u8 n + 4 /\
    offset s' <= e v.
Proof.
  intros H. unfold read_name in H.
  apply bind_Ok in H as (z & s1 & Hn & H).
  apply read8_Ok in Hn as (n & Hn & -> & Hr & ->).
  replace (1 + u8 n - 1) with (u8 n) in H by lia.
  apply bind_Ok in H as (cs & s2 & Hcs & H).
  pose proof (u8_range n) as Hb.
  assert (offset s + 1 + u8 n <= e v) as Hrun.
  { destruct (replicateM_read8_offset _ _ _ _ _ Hcs) as [Ho Hle].
    destruct (Z.to_nat (u8 n)) eqn:Hk; [lia|].
    destruct Hle as [_ Hle]; [discriminate|].
    rewrite Ho in Hle. change (offset (set_offset (offset s + 1) s)) with (offset s + 1) in Hle.
    lia. }
  apply replicateM_read8_Ok in Hcs as [-> ->].
  rewrite set_offset_twice in H.
  change (offset (set_offset (offset s + 1) s)) with (offset s + 1) in H.
  rewrite Z2Nat.id in H by lia.
  apply bind_Ok in H as ([] & s3 & Hpad & H). inversion H; subst; clear H.
  pose proof (Z.mod_pos_bound (1 + u8 n) 4 ltac:(lia)) as Hm.
  pose proof (Z.mod_pos_bound (4 - (1 + u8 n) mod 4) 4 ltac:(lia)) as Hp.
  pose proof (name_padding_inside _ _ _ _ _ Hpad Hrun) as Hend.
  apply name_padding_offset in Hpad; [|lia | simpl; lia].
  change (offset (set_offset (offset s + 1 + u8 n) s)) with (offset s + 1 + u8 n) in Hpad.
  exists n. split; [exact Hn|]. split.
  { rewrite string_of_chars_bytes. reflexivity. }
  split.
  { rewrite string_of_chars_bytes, string_of_list_byte_length, length_take, length_drop.
    change (offset (set_offset (offset s + 1) s)) with (offset s + 1).
    unfold e in Hrun. lia. }
  rewrite Hpad.
  replace (offset s + 1 + u8 n + (4 - (1 + u8 n) mod 4) mod 4 - offset s)
    with ((1 + u8 n) + (4 - (1 + u8 n) mod 4) mod 4) by lia.
  split.
  { rewrite Z.add_mod, Z.mod_mod by lia.
    destruct (Z.eq_dec ((1 + u8 n) mod 4) 0) as [Hz|Hnz].
    - rewrite Hz. reflexivity.
    - rewrite (Z.mod_small (4 - (1 + u8 n) mod 4)) by lia.
      replace ((1 + u8 n) mod 4 + (4 - (1 + u8 n) mod 4)) with 4 by lia. reflexivity. }
  split; [lia|]. rewrite Hpad in Hend. lia.
Qed.

Lemma layer_name_is_length_prefixed_and_padded_witness :
  exists n,
    pascal "Layer" !! Z.to_nat (offset (start (mk_psd 0 0 []))) = Some n /\
    "Layer"%string
    = string_of_list_byte
        (take (Z.to_nat (u8 n))
           (drop (Z.to_nat (offset (start (mk_psd 0 0 [])) + 1)) (pascal "Layer"))) /\
    String.length "Layer" = Z.to_nat (u8 n) /\
    (offset (set_offset 8 (start (mk_psd 0 0 []))) - offset (start (mk_psd 0 0 []))) mod 4 = 0 /\
    u8 n + 1
    <= offset (set_offset 8 (start (mk_psd 0 0 []))) - offset (start (mk_psd 0 0 []))
    <= u8 n + 4 /\
    offset (set_offset 8 (start (mk_psd 0 0 []))) <= e (pascal "Layer").
Proof.
  apply (layer_name_is_length_prefixed_and_padded (pascal "Layer")
           (start (mk_psd 0 0 [])) "Layer" (set_offset 8 (start (mk_psd 0 0 [])))).
  vm_compute. reflexivity.
Defined.

(** ** The layer count *)

(** X7: the layer count is the absolute value of the signed 16-bit field
    that follows the two section lengths; it is below 2^15, and the
    cursor has moved by ten bytes. *)
Theorem layer_count_is_absolute v s n s' :
  read_layer_count v s = (Ok n, s') ->
  exists b0 b1,
    v !! Z.to_nat (offset s + 8) = Some b0 /\
    v !! Z.to_nat (offset s + 9) = Some b1 /\
    n = Z.abs (int16_of (u8 b0 * 2 ^ 8 + u8 b1)) /\
    0 <= n < 2 ^ 15 /\
    offset s' = offset s + 10.
Proof.
  intros H. unfold read_layer_count in H.
  apply bind_Ok in H as (lms & s1 & H1 & H).
  apply read32_Ok in H1 as (? & ? & ? & ? & _ & _ & _ & _ & _ & _ & _ & ->).
  apply bind_Ok in H as (ll & s2 & H2 & H).
  apply read32_Ok in H2 as (? & ? & ? & ? & _ & _ & _ & _ & _ & _ & _ & ->).
  apply bind_Ok in H as (c & s3 & H3 & H).
  apply read16_inv in H3 as (b0 & b1 & Hb0 & Hb1 & -> & _ & _ & ->).
  simpl in Hb0, Hb1.
  replace (offset s + 4 + 4) with (offset s + 8) in * by lia.
  replace (offset s + 8 + 1) with (offset s + 9) in * by lia.
  exists b0, b1. split; [exact Hb0|]. split; [exact Hb1|].
  pose proof (u8_range b0). pose proof (u8_range b1).
  set (c := u8 b0 * 2 ^ 8 + u8 b1) in *.
  assert (0 <= c < 2 ^ 16) as Hc by (unfold c; lia).
  assert (int16_of c = if c <? 2 ^ 15 then c else c - 2 ^ 16) as Hi.
  { unfold int16_of, wrap16. rewrite Z.mod_small by lia. reflexivity. }
  rewrite Hi in *.
  destruct (Z.ltb_spec c (2 ^ 15)) as [Hlt|Hge].
  - destruct (Z.ltb_spec c 0); [lia|].
    destruct (Z.ltb_spec c 0); [lia|].
    inversion H; subst; clear H. simpl. split; [lia|]. split; lia.
  - destruct (Z.ltb_spec (c - 2 ^ 16) 0); [|lia].
    assert (int16_of (- (c - 2 ^ 16))
            = if - (c - 2 ^ 16) <? 2 ^ 15 then - (c - 2 ^ 16) else - (c - 2 ^ 16) - 2 ^ 16)
      as Hj.
    { unfold int16_of, wrap16. rewrite Z.mod_small by lia. reflexivity. }
    rewrite Hj in H.
    destruct (Z.ltb_spec (- (c - 2 ^ 16)) (2 ^ 15)).
    + destruct (Z.ltb_spec (- (c - 2 ^ 16)) 0); [lia|].
      inversion H; subst; clear H. simpl. split; [lia|]. split; lia.
    + destruct (Z.ltb_spec (- (c - 2 ^ 16) - 2 ^ 16) 0); [discriminate | lia].
Qed.

Lemma layer_count_is_absolute_witness :
  exists b0 b1,
    (be32 0 ++ be32 0 ++ [xff; xfd]) !! Z.to_nat (offset (start (mk_psd 0 0 [])) + 8) = Some b0 /\
    (be32 0 ++ be32 0 ++ [xff; xfd]) !! Z.to_nat (offset (start (mk_psd 0 0 [])) + 9) = Some b1 /\
    3 = Z.abs (int16_of (u8 b0 * 2 ^ 8 + u8 b1)) /\
    0 <= 3 < 2 ^ 15 /\
    offset (set_offset 10 (start (mk_psd 0 0 []))) = offset (start (mk_psd 0 0 [])) + 10.
Proof.
  apply (layer_count_is_absolute (be32 0 ++ be32 0 ++ [xff; xfd])
           (start (mk_psd 0 0 [])) 3 (set_offset 10 (start (mk_psd 0 0 [])))).
  vm_compute. reflexivity.
Defined.

Lemma u8_byte_of z : 0 <= z < 256 -> u8 (byte_of z) = z.
Proof.
  intros Hz. unfold u8, byte_of.
  destruct (Byte.of_N (Z.to_N z)) as [b|] eqn:Hb.
  - simpl. apply Byte.to_of_N in Hb. rewrite Hb. lia.
  - apply Byte.of_N_None_iff in Hb. lia.
Qed.

Lemma map_byte_of_u8 bs : map byte_of (map u8 bs) = bs.
Proof.
  induction bs as [|b bs IH]; simpl; [reflexivity|]. rewrite byte_of_u8, IH. reflexivity.
Qed.

Lemma drop_head (v : list byte) n x rest :
  drop n v = x :: rest -> v !! n = Some x /\ drop (S n) v = rest.
Proof.
  intros H. split.
  - replace n with (n + 0)%nat by lia. rewrite <- lookup_drop, H. reflexivity.
  - replace (S n) with (n + 1)%nat by lia. rewrite <- drop_drop, H. reflexivity.
Qed.

Lemma drop_prefix (v : list byte) n pre rest :
  drop n v = pre ++ rest ->
  drop (n + length pre) v = rest /\ (length pre + length rest = length v - n)%nat.
Proof.
  intros H. split.
  - rewrite <- drop_drop, H. apply drop_app_length.
  - apply (f_equal length) in H. rewrite length_drop, length_app in H. lia.
Qed.

(** A literal run, on a buffer that holds it. *)
Lemma rle_step_literal d v s c bytes rest :
  0 <= offset s ->
  drop (Z.to_nat (offset s)) v = c :: bytes ++ rest ->
  u8 c < 0x80 -> Z.of_nat (length bytes) = u8 c + 1 ->
  rle_step d v s
  = (Ok (d ++ bytes), set_offset (offset s + 1 + Z.of_nat (length bytes)) s).
Proof.
  intros H0 Hdrop Hc Hlen.
  destruct (drop_head _ _ _ _ Hdrop) as [Hctl Hrest].
  destruct (drop_prefix _ _ _ _ Hrest) as [_ Hfit].
  pose proof (u8_range c) as Hr.
  unfold rle_step. rewrite (bind_run _ _ _ _ _ _ (read8_at v s c H0 Hctl)).
  destruct (Z.ltb_spec (u8 c) 128); [|lia].
  assert (wrap8 (u8 c + 1) = Z.of_nat (length bytes)) as ->
    by (unfold wrap8; rewrite Z.mod_small by lia; lia).
  rewrite Nat2Z.id.
  assert (0 <= offset (set_offset (offset s + 1) s)) as H1 by (simpl; lia).
  assert (offset (set_offset (offset s + 1) s) + Z.of_nat (length bytes) <= e v) as H2.
  { change (offset s + 1 + Z.of_nat (length bytes) <= e v). unfold e. lia. }
  rewrite (bind_run _ _ _ _ _ _ (replicateM_read8_run _ _ _ H1 H2)).
  unfold ret. rewrite map_byte_of_u8, set_offset_twice.
  change (offset (set_offset (offset s + 1) s)) with (offset s + 1).
  replace (Z.to_nat (offset s + 1)) with (S (Z.to_nat (offset s))) by lia.
  rewrite Hrest, take_app_length. reflexivity.
Qed.

(** A repeat run, on a buffer that holds it. *)
Lemma rle_step_repeat d v s c b rest :
  0 <= offset s ->
  drop (Z.to_nat (offset s)) v = c :: b :: rest ->
  0x80 < u8 c ->
  rle_step d v s
  = (Ok (d ++ replicate (Z.to_nat (257 - u8 c)) b), set_offset (offset s + 2) s).
Proof.
  intros H0 Hdrop Hc.
  destruct (drop_head _ _ _ _ Hdrop) as [Hctl Hrest].
  destruct (drop_head _ _ _ _ Hrest) as [Hb _].
  pose proof (u8_range c) as Hr.
  unfold rle_step. rewrite (bind_run _ _ _ _ _ _ (read8_at v s c H0 Hctl)).
  destruct (Z.ltb_spec (u8 c) 128); [lia|].
  destruct (u8 c >? 128) eqn:Hg; [|rewrite Z.gtb_ltb in Hg; apply Z.ltb_ge in Hg; lia].
  erewrite bind_run;
    [|apply read8_at; simpl;
      [lia | replace (Z.to_nat (offset s + 1)) with (S (Z.to_nat (offset s))) by lia;
             exact Hb]].
  unfold ret. rewrite wrap8_repeat_count, byte_of_u8, set_offset_twice by lia.
  simpl offset. replace (offset s + 1 + 1) with (offset s + 2) by lia. reflexivity.
Qed.

(** The no-op control byte, on a buffer that holds it. *)
Lemma rle_step_idle d v s rest :
  0 <= offset s ->
  drop (Z.to_nat (offset s)) v = x80 :: rest ->
  rle_step d v s = (Ok d, set_offset (offset s + 1) s).
Proof.
  intros H0 Hdrop. destruct (drop_head _ _ _ _ Hdrop) as [Hctl _].
  unfold rle_step. rewrite (bind_run _ _ _ _ _ _ (read8_at v s x80 H0 Hctl)).
  reflexivity.
Qed.

Lemma encode_run_length r : run_ok r -> (1 <= length (encode_run r))%nat.
Proof. destruct r; simpl; lia. Qed.

(** One turn of the loop consumes one encoded run. *)
Lemma rle_step_run d v s r rest :
  0 <= offset s -> run_ok r ->
  drop (Z.to_nat (offset s)) v = encode_run r ++ rest ->
  rle_step d v s
  = (Ok (d ++ expand r), set_offset (offset s + Z.of_nat (length (encode_run r))) s).
Proof.
  intros H0 Hok Hdrop. destruct r as [bytes | count b |]; simpl in Hok, Hdrop.
  - rewrite (rle_step_literal d v s _ bytes rest H0 Hdrop);
      rewrite ?u8_byte_of by lia; try lia.
    simpl expand. simpl encode_run. simpl length.
    replace (offset s + 1 + Z.of_nat (length bytes))
      with (offset s + Z.of_nat (S (length bytes))) by lia.
    reflexivity.
  - rewrite (rle_step_repeat d v s _ b rest H0 Hdrop);
      rewrite ?u8_byte_of by lia; try lia.
    simpl expand. simpl encode_run. simpl length.
    replace (Z.to_nat (257 - (257 - Z.of_nat count))) with count by lia.
    reflexivity.
  - simpl expand. rewrite app_nil_r. apply (rle_step_idle d v s rest H0 Hdrop).
Qed.

(** Decoding the encoding of a sequence of runs, up to the length of what
    they stand for. *)
Lemma rle_loop_pack rs : forall fuel d v s rest,
  0 <= offset s -> Forall run_ok rs -> (length rs < fuel)%nat ->
  drop (Z.to_nat (offset s)) v = pack rs ++ rest ->
  exists s',
    rle_loop fuel (Z.of_nat (length d + length (unpack rs))) d v s
    = (Ok (d ++ unpack rs), s') /\
    offset s <= offset s' <= offset s + Z.of_nat (length (pack rs)).
Proof.
  induction rs as [|r rs IH]; intros fuel d v s rest H0 Hok Hfuel Hdrop.
  - exists s. simpl. rewrite Nat.add_0_r, app_nil_r.
    destruct fuel; simpl; rewrite Z.ltb_irrefl; split; (reflexivity || lia).
  - inversion Hok as [|? ? Hr Hrs]; subst.
    unfold pack, unpack in *. simpl flat_map in *. rewrite <- app_assoc in Hdrop.
    destruct fuel as [|fuel]; [simpl in Hfuel; lia|].
    simpl rle_loop.
    destruct (Z.ltb_spec (Z.of_nat (length d))
                (Z.of_nat (length d + length (expand r ++ flat_map expand rs))))
      as [Hlt|Hge].
    + rewrite (bind_run _ _ _ _ _ _ (rle_step_run d v s r _ H0 Hr Hdrop)).
      destruct (drop_prefix _ _ _ _ Hdrop) as [Hrest Hfit].
      destruct (IH fuel (d ++ expand r) v
                  (set_offset (offset s + Z.of_nat (length (encode_run r))) s) rest)
        as (s' & Hrun & Hoff); [simpl; lia | exact Hrs | simpl in Hfuel; lia | |].
      { simpl offset. rewrite <- Hrest. f_equal. lia. }
      exists s'. split.
      * rewrite (app_assoc d), <- Hrun. f_equal. rewrite !length_app. lia.
      * change (offset (set_offset (offset s + Z.of_nat (length (encode_run r))) s))
          with (offset s + Z.of_nat (length (encode_run r))) in Hoff.
        rewrite length_app. lia.
    + exists s. rewrite length_app in Hge.
      assert (expand r ++ flat_map expand rs = []) as ->
        by (apply length_zero_iff_nil; rewrite length_app; lia).
      rewrite app_nil_r. split; [reflexivity | lia].
Qed.

(** X9: in run-length decoding, after a control byte [c] below 0x80 the
    decoder copies the [c + 1] bytes that follow, verbatim, and moves the
    cursor past them. *)
Theorem rle_literal_run d v s c :
  0 <= offset s ->
  v !! Z.to_nat (offset s) = Some c ->
  u8 c < 0x80 ->
  offset s + u8 c + 2 <= e v ->
  rle_step d v s
  = (Ok (d ++ take (Z.to_nat (u8 c + 1)) (drop (Z.to_nat (offset s + 1)) v)),
     set_offset (offset s + u8 c + 2) s).
Proof.
  intros H0 Hc Hlt He. pose proof (u8_range c) as Hr.
  assert (length (take (Z.to_nat (u8 c + 1)) (drop (Z.to_nat (offset s + 1)) v))
          = Z.to_nat (u8 c + 1)) as Hlen
    by (rewrite length_take, length_drop; unfold e in He; lia).
  rewrite (rle_step_literal d v s c
             (take (Z.to_nat (u8 c + 1)) (drop (Z.to_nat (offset s + 1)) v))
             (drop (Z.to_nat (u8 c + 1)) (drop (Z.to_nat (offset s + 1)) v)));
    try assumption.
  - rewrite Hlen. do 2 f_equal. lia.
  - rewrite take_drop, (drop_S _ _ _ Hc). do 2 f_equal. lia.
  - rewrite Hlen. lia.
Qed.

Lemma rle_literal_run_witness :
  rle_step [x01] [x02; x0a; x0b; x0c; x0d] (start (mk_psd 0 0 []))
  = (Ok ([x01] ++ take (Z.to_nat (u8 x02 + 1))
                    (drop (Z.to_nat (offset (start (mk_psd 0 0 [])) + 1))
                          [x02; x0a; x0b; x0c; x0d])),
     set_offset (offset (start (mk_psd 0 0 [])) + u8 x02 + 2) (start (mk_psd 0 0 []))).
Proof.
  apply (rle_literal_run [x01] [x02; x0a; x0b; x0c; x0d] (start (mk_psd 0 0 [])) x02);
    [simpl; lia | reflexivity | vm_compute; reflexivity | vm_compute; discriminate].
Defined.

Lemma read8_Fail v s x s' :
  0 <= offset s -> read8 v s = (Fail x, s') -> x = Thrown truncated /\ s' = s.
Proof.
  intros H0 H. destruct (read8_shape v s H0) as [[_ E] | [_ [z E]]];
    rewrite E in H; inversion H; auto.
Qed.

Lemma replicateM_read8_Fail n : forall v s x s',
  0 <= offset s -> replicateM n read8 v s = (Fail x, s') -> x = Thrown truncated.
Proof.
  induction n as [|n IH]; intros v s x s' H0 H; simpl in H; [discriminate|].
  apply bind_Fail in H as [H | (z & s1 & Hz & H)].
  - apply read8_Fail in H; tauto.
  - apply read8_Ok in Hz as (b & _ & _ & _ & ->).
    apply bind_Fail in H as [H | (? & ? & _ & H)]; [|discriminate].
    eapply IH; [|exact H]. simpl. lia.
Qed.

Lemma rle_step_Fail d v s x s' :
  0 <= offset s -> rle_step d v s = (Fail x, s') -> x = Thrown truncated.
Proof.
  intros H0 H. unfold rle_step in H.
  apply bind_Fail in H as [H | (len & s1 & Hlen & H)];
    [apply read8_Fail in H; tauto|].
  apply read8_Ok in Hlen as (b & _ & _ & _ & ->).
  destruct (len <? 128).
  - apply bind_Fail in H as [H | (? & ? & _ & H)]; [|discriminate].
    eapply replicateM_read8_Fail; [|exact H]. simpl. lia.
  - destruct (len >? 128); [|discriminate].
    apply bind_Fail in H as [H | (? & ? & _ & H)]; [|discriminate].
    apply read8_Fail in H; [tauto | simpl; lia].
Qed.

Lemma rle_loop_Fail fuel area : forall d v s x s',
  0 <= offset s -> rle_loop fuel area d v s = (Fail x, s') ->
  x = Thrown truncated \/ x = OutOfFuel.
Proof.
  induction fuel as [|fuel IH]; intros d v s x s' H0 H; simpl in H;
    destruct (Z.of_nat (length d) <? area); try discriminate.
  - inversion H. auto.
  - apply bind_Fail in H as [H | (d1 & s1 & Hs & H)].
    + left. eapply rle_step_Fail; eauto.
    + apply rle_step_Ok in Hs as (Ho & _ & _). eapply IH; [|exact H]. lia.
Qed.

Lemma rle_loop_reaches_area fuel area : forall d v s d' s',
  rle_loop fuel area d v s = (Ok d', s') -> area <= Z.of_nat (length d').
Proof.
  induction fuel as [|fuel IH]; intros d v s d' s' H; simpl in H;
    destruct (Z.ltb_spec (Z.of_nat (length d)) area); try discriminate;
    try (inversion H; subst; lia).
  apply bind_Ok in H as (d1 & s1 & _ & H). eapply IH; eauto.
Qed.

(** X10: run-length decoding never delivers short data: with the bound on
    turns that [decode_channel] passes, the loop either returns at least
    [area] bytes or throws "Truncated PSD" - as it does when the stream
    runs out, whatever it holds. *)
Theorem rle_loop_never_short area d v s :
  0 <= offset s ->
  (exists d' s', rle_loop (S (length v)) area d v s = (Ok d', s') /\
                 area <= Z.of_nat (length d')) \/
  (exists s', rle_loop (S (length v)) area d v s = (Fail (Thrown truncated), s')).
Proof.
  intros H0. destruct (rle_loop (S (length v)) area d v s) as [[d'|x] s'] eqn:H.
  - left. exists d', s'. split; [reflexivity|]. eapply rle_loop_reaches_area; eauto.
  - right. exists s'. destruct (rle_loop_Fail _ _ _ _ _ _ _ H0 H) as [-> | ->];
      [reflexivity|].
    exfalso. revert H. apply rle_loop_fuel; unfold e; lia.
Qed.

Lemma rle_loop_never_short_witness :
  (exists d' s', rle_loop (S (length [x80; x80; x00])) 2 [] [x80; x80; x00]
                   (start (mk_psd 0 0 [])) = (Ok d', s') /\
                 2 <= Z.of_nat (length d')) \/
  (exists s', rle_loop (S (length [x80; x80; x00])) 2 [] [x80; x80; x00]
                (start (mk_psd 0 0 [])) = (Fail (Thrown truncated), s')).
Proof.
  apply (rle_loop_never_short 2 [] [x80; x80; x00] (start (mk_psd 0 0 []))).
  simpl. lia.
Defined.

Lemma pack_length rs : Forall run_ok rs -> (length rs <= length (pack rs))%nat.
Proof.
  induction 1 as [|r rs Hr _ IH]; simpl; [lia|].
  unfold pack in *. simpl. rewrite length_app.
  pose proof (encode_run_length r Hr). lia.
Qed.

(** X11: run-length round trip.  A channel stored with method 1 - the
    tag, a jump table of [2 * height] bytes, then the encoding of any
    sequence of well-formed runs (literal, repeat and no-op) that stands
    for [width * height] bytes - decodes to exactly the bytes the runs
    stand for. *)
Theorem rle_channel_round_trip fn w h c v s table rs rest :
  0 <= offset s ->
  drop (Z.to_nat (offset s)) v = [x00; x01] ++ table ++ pack rs ++ rest ->
  Z.of_nat (length table) = wrap32 (2 * h) ->
  Z.of_nat (length (unpack rs)) = wrap32 (w * h) ->
  Forall run_ok rs ->
  data c = [] ->
  exists s',
    decode_channel fn w h c v s = (Ok (mk_channel (kind c) (unpack rs)), s') /\
    offset s'
    <= offset s + 2 + Z.of_nat (length table) + Z.of_nat (length (pack rs)).
Proof.
  intros H0 Hdrop Htable Harea Hok Hd.
  simpl app in Hdrop.
  destruct (drop_head _ _ _ _ Hdrop) as [Hb0 Hdrop1].
  destruct (drop_head _ _ _ _ Hdrop1) as [Hb1 Hdrop2].
  destruct (drop_prefix _ _ _ _ Hdrop2) as [Hdrop3 Hfit].
  destruct (drop_prefix _ _ _ _ Hdrop3) as [_ Hfit2].
  unfold decode_channel.
  rewrite (bind_run _ _ _ _ _ _ (read16_at v s x00 x01 H0 Hb0
             ltac:(replace (Z.to_nat (offset s + 1)) with (S (Z.to_nat (offset s))) by lia;
                   exact Hb1))).
  change (u8 x00 * 2 ^ 8 + u8 x01 =? 0) with false.
  change (u8 x00 * 2 ^ 8 + u8 x01 =? 1) with true. cbv iota.
  unfold bind at 1, advance, modify. unfold bind at 1, buffer_size.
  rewrite <- Htable, <- Harea, Hd.
  destruct (rle_loop_pack rs (S (length v)) [] v
              (set_offset (offset (set_offset (offset s + 2) s) + Z.of_nat (length table))
                 (set_offset (offset s + 2) s)) rest)
    as (s' & Hrun & Hoff).
  - simpl. lia.
  - exact Hok.
  - pose proof (pack_length rs Hok). lia.
  - simpl offset. rewrite <- Hdrop3. f_equal. lia.
  - exists s'. simpl length in Hrun. simpl app in Hrun.
    rewrite (bind_run _ _ _ _ _ _ Hrun). split; [reflexivity|].
    simpl offset in Hoff. lia.
Qed.

Lemma rle_channel_round_trip_witness :
  exists s',
    decode_channel "f.psd" 3 2 (mk_channel 0 [])
      ([x00; x01] ++ [x00; x00; x00; x00]
       ++ pack [Literal [x01; x02]; Idle; Repeat 4 x09] ++ [xff])
      (start (mk_psd 0 0 []))
    = (Ok (mk_channel (kind (mk_channel 0 []))
             (unpack [Literal [x01; x02]; Idle; Repeat 4 x09])), s') /\
    offset s'
    <= offset (start (mk_psd 0 0 [])) + 2 + Z.of_nat (length [x00; x00; x00; x00])
       + Z.of_nat (length (pack [Literal [x01; x02]; Idle; Repeat 4 x09])).
Proof.
  apply (rle_channel_round_trip "f.psd" 3 2 (mk_channel 0 [])
           ([x00; x01] ++ [x00; x00; x00; x00]
            ++ pack [Literal [x01; x02]; Idle; Repeat 4 x09] ++ [xff])
           (start (mk_psd 0 0 [])) [x00; x00; x00; x00]
           [Literal [x01; x02]; Idle; Repeat 4 x09] [xff]);
    try reflexivity; try (simpl; lia).
  repeat constructor; simpl; lia.
Defined.

(** X12: raw round trip.  A channel stored with method 0 - the tag, then
    [width * height] bytes - decodes to exactly those bytes, appended to
    the channel, and the cursor ends right after them. *)
Theorem raw_channel_round_trip fn w h c v s bytes rest :
  0 <= offset s ->
  drop (Z.to_nat (offset s)) v = [x00; x00] ++ bytes ++ rest ->
  Z.of_nat (length bytes) = wrap32 (w * h) ->
  decode_channel fn w h c v s
  = (Ok (mk_channel (kind c) (data c ++ bytes)),
     set_offset (offset s + 2 + Z.of_nat (length bytes)) s).
Proof.
  intros H0 Hdrop Harea. simpl app in Hdrop.
  destruct (drop_head _ _ _ _ Hdrop) as [Hb0 Hdrop1].
  destruct (drop_head _ _ _ _ Hdrop1) as [Hb1 Hdrop2].
  destruct (drop_prefix _ _ _ _ Hdrop2) as [_ Hfit].
  unfold decode_channel.
  rewrite (bind_run _ _ _ _ _ _ (read16_at v s x00 x00 H0 Hb0
             ltac:(replace (Z.to_nat (offset s + 1)) with (S (Z.to_nat (offset s))) by lia;
                   exact Hb1))).
  change (u8 x00 * 2 ^ 8 + u8 x00 =? 0) with true. cbv iota.
  rewrite <- Harea.
  assert (copy_from_cursor (Z.of_nat (length bytes)) v (set_offset (offset s + 2) s)
          = (Ok bytes, set_offset (offset s + 2) s)) as Hcopy.
  { unfold copy_from_cursor.
    destruct (Z.eqb_spec (Z.of_nat (length bytes)) 0) as [Hz|Hnz].
    - destruct bytes; [reflexivity | simpl in Hz; lia].
    - simpl offset.
      destruct (Z.leb_spec 0 (offset s + 2)); [|lia].
      destruct (Z.leb_spec (offset s + 2 + Z.of_nat (length bytes)) (e v));
        [|unfold e in *; lia].
      simpl. rewrite Nat2Z.id.
      replace (Z.to_nat (offset s + 2)) with (S (S (Z.to_nat (offset s)))) by lia.
      rewrite Hdrop2, take_app_length. reflexivity. }
  rewrite (bind_run _ _ _ _ _ _ Hcopy). reflexivity.
Qed.

Lemma raw_channel_round_trip_witness :
  decode_channel "f.psd" 2 2 (mk_channel 1 [])
    ([xff] ++ [x00; x00] ++ [x0a; x14; x1e; x28] ++ [xee])
    (set_offset 1 (start (mk_psd 0 0 [])))
  = (Ok (mk_channel (kind (mk_channel 1 [])) (data (mk_channel 1 []) ++ [x0a; x14; x1e; x28])),
     set_offset (offset (set_offset 1 (start (mk_psd 0 0 []))) + 2
                 + Z.of_nat (length [x0a; x14; x1e; x28]))
       (set_offset 1 (start (mk_psd 0 0 [])))).
Proof.
  apply (raw_channel_round_trip "f.psd" 2 2 (mk_channel 1 [])
           ([xff] ++ [x00; x00] ++ [x0a; x14; x1e; x28] ++ [xee])
           (set_offset 1 (start (mk_psd 0 0 []))) [x0a; x14; x1e; x28] [xee]);
    [simpl; lia | reflexivity | reflexivity].
Defined.

Lemma diagnosed_after fn s s1 x s2 :
  cerr s1 = cerr s -> diagnosed fn s1 x s2 -> diagnosed fn s x s2.
Proof. intros Hc. destruct x; simpl; rewrite Hc; auto. Qed.

Section Orderly.
Variable fn : string.

Lemma orderly_still {A} (m : M A) :
  (forall v s, exists a s', m v s = (Ok a, s') /\
                            offset s <= offset s' /\ cerr s' = cerr s) ->
  orderly fn m.
Proof.
  intros H v s H0. destruct (H v s) as (a & s' & -> & Ho & Hc). simpl. auto.
Qed.

Lemma orderly_ret {A} (a : A) : orderly fn (ret a).
Proof. apply orderly_still. intros v s. exists a, s. repeat split; lia. Qed.

Lemma orderly_get : orderly fn get.
Proof. apply orderly_still. intros v s. exists s, s. repeat split; lia. Qed.

Lemma orderly_buffer_size : orderly fn buffer_size.
Proof. apply orderly_still. intros v s. exists (length v), s. repeat split; lia. Qed.

Lemma orderly_modify f :
  (forall s, offset s <= offset (f s) /\ cerr (f s) = cerr s) -> orderly fn (modify f).
Proof. intros Hf. apply orderly_still. intros v s. exists tt, (f s). split; [reflexivity | apply Hf]. Qed.

Lemma orderly_bind {A B} (m : M A) (f : A -> M B) :
  orderly fn m -> (forall a, orderly fn (f a)) -> orderly fn (bind m f).
Proof.
  intros Hm Hf v s H0. unfold bind.
  destruct (Hm v s H0) as [Ho Hr]. destruct (m v s) as [[a|x] s1]; simpl in *.
  - destruct (Hf a v s1 ltac:(lia)) as [Ho' Hr']. split; [lia|].
    destruct (f a v s1) as [[b|y] s2]; simpl in *;
      [congruence | eapply diagnosed_after; eauto].
  - auto.
Qed.

Lemma orderly_if {A} (c : bool) (m1 m2 : M A) :
  orderly fn m1 -> orderly fn m2 -> orderly fn (if c then m1 else m2).
Proof. destruct c; auto. Qed.

Lemma orderly_replicateM {A} n (m : M A) : orderly fn m -> orderly fn (replicateM n m).
Proof.
  intros Hm. induction n as [|n IH]; simpl; [apply orderly_ret|].
  apply orderly_bind; [exact Hm|]. intros a.
  apply orderly_bind; [exact IH|]. intros l. apply orderly_ret.
Qed.

Lemma orderly_mapM {A B} (f : A -> M B) l :
  (forall a, orderly fn (f a)) -> orderly fn (mapM f l).
Proof.
  intros Hf. induction l as [|a l IH]; simpl; [apply orderly_ret|].
  apply orderly_bind; [apply Hf|]. intros b.
  apply orderly_bind; [exact IH|]. intros bs. apply orderly_ret.
Qed.

Lemma orderly_read32 : orderly fn read32.
Proof.
  intros v s H0. destruct (read32_shape v s H0) as [[_ E] | [_ [z E]]];
    rewrite E; simpl; (split; [lia | auto]).
Qed.

Lemma orderly_read16 : orderly fn read16.
Proof.
  intros v s H0. destruct (read16_shape v s H0) as [[_ E] | [_ [z E]]];
    rewrite E; simpl; (split; [lia | auto]).
Qed.

Lemma orderly_read8 : orderly fn read8.
Proof.
  intros v s H0. destruct (read8_shape v s H0) as [[_ E] | [_ [z E]]];
    rewrite E; simpl; (split; [lia | auto]).
Qed.

Lemma orderly_skip amt : orderly fn (skip amt).
Proof.
  intros v s H0. unfold skip.
  destruct (offset s + amt >? e v); simpl; [split; [lia | auto]|].
  destruct (Z.ltb_spec (offset s + amt) (offset s)); simpl; (split; [lia | auto]).
Qed.

Lemma orderly_advance n : 0 <= n -> orderly fn (advance n).
Proof. intros Hn. apply orderly_modify. intros s. simpl. split; [lia | reflexivity]. Qed.

Lemma orderly_copy_from_cursor n : orderly fn (copy_from_cursor n).
Proof.
  intros v s H0. unfold copy_from_cursor.
  destruct (n =? 0); [|destruct ((0 <=? offset s) && (offset s + n <=? e v))];
    simpl; (split; [lia | auto]).
Qed.

Lemma orderly_check ok text : In text rejections -> orderly fn (check fn ok text).
Proof.
  intros Hin v s H0. unfold check. destruct ok; simpl; [split; [lia | reflexivity]|].
  split; [lia|]. exists text. auto.
Qed.

Lemma orderly_unsupported {A} :
  orderly fn (log fn unsupported_compression;; @raise A AssertFailed).
Proof. intros v s H0. simpl. split; [lia | reflexivity]. Qed.

Lemma orderly_too_long {A} : orderly fn (@raise A (Thrown "vector too long")).
Proof. intros v s H0. simpl. split; [lia | auto]. Qed.

End Orderly.

Create HintDb orderly.
#[local] Hint Resolve orderly_ret orderly_get orderly_buffer_size orderly_read32
  orderly_read16 orderly_read8 orderly_skip orderly_copy_from_cursor
  orderly_unsupported orderly_too_long : orderly.
#[local] Hint Extern 1 (orderly _ (modify _)) =>
  apply orderly_modify; intros; simpl; split; [lia | reflexivity] : orderly.
#[local] Hint Extern 1 (orderly _ (check _ _ _)) =>
  apply orderly_check; simpl; tauto : orderly.
#[local] Hint Extern 1 (orderly _ (advance _)) =>
  apply orderly_advance, wrap32_range : orderly.
#[local] Hint Extern 2 (orderly _ (bind _ _)) => apply orderly_bind; [|intros] : orderly.
#[local] Hint Extern 2 (orderly _ (if _ then _ else _)) => apply orderly_if : orderly.
#[local] Hint Extern 2 (orderly _ (replicateM _ _)) => apply orderly_replicateM : orderly.
#[local] Hint Extern 2 (orderly _ (mapM _ _)) => apply orderly_mapM; intros : orderly.

Ltac orderly_tac := unshelve (eauto 80 with orderly).

Lemma orderly_name_padding fn n : forall len, orderly fn (name_padding n len).
Proof. induction n as [|n IH]; intros len; simpl; orderly_tac. Qed.
#[local] Hint Resolve orderly_name_padding : orderly.

Lemma orderly_read_layer_record fn : orderly fn (read_layer_record fn).
Proof. unfold read_layer_record, read_channel_info, read_name. orderly_tac. Qed.

Lemma orderly_read_header fn : orderly fn (read_header fn).
Proof. unfold read_header, set_height, set_width. orderly_tac. Qed.

Lemma orderly_read_layer_count fn : orderly fn read_layer_count.
Proof. unfold read_layer_count. orderly_tac. Qed.

Lemma orderly_rle_loop fn fuel area : forall d, orderly fn (rle_loop fuel area d).
Proof.
  induction fuel as [|fuel IH]; intros d; simpl.
  - apply orderly_if; [|apply orderly_ret].
    intros v s H0. simpl. split; [lia | reflexivity].
  - apply orderly_if; [|apply orderly_ret].
    apply orderly_bind; [unfold rle_step; orderly_tac | exact IH].
Qed.

Lemma orderly_decode_channel fn w h c : orderly fn (decode_channel fn w h c).
Proof.
  unfold decode_channel. apply orderly_bind; [apply orderly_read16 | intros comp].
  apply orderly_if; [orderly_tac|]. apply orderly_if; [|apply orderly_unsupported].
  apply orderly_bind; [orderly_tac | intros _].
  apply orderly_bind; [orderly_tac | intros size].
  apply orderly_bind; [apply orderly_rle_loop | orderly_tac].
Qed.

Lemma orderly_read_layers fn : orderly fn (read_layers fn).
Proof.
  unfold read_layers.
  apply orderly_bind; [apply orderly_read_layer_count | intros count].
  apply orderly_bind; [apply orderly_replicateM, orderly_read_layer_record | intros raw].
  apply orderly_mapM. intros l. unfold decode_layer.
  apply orderly_bind; [|orderly_tac].
  apply orderly_mapM. intros c. apply orderly_decode_channel.
Qed.

Lemma orderly_parse fn : orderly fn (read_header fn;; read_layers fn).
Proof. apply orderly_bind; [apply orderly_read_header | intros _; apply orderly_read_layers]. Qed.

Lemma reconstruct_Fail_pop fn raw v s x s' :
  reconstruct fn raw v s = (Fail x, s') -> x = Undefined "pop_back on an empty vector".
Proof.
  unfold reconstruct. generalize (rev raw), (@nil string). intros l.
  revert s. induction l as [|r l IH]; intros s loc; simpl; [discriminate|].
  intros H. apply bind_Fail in H as [H | (loc' & s1 & _ & H)]; [|eauto].
  unfold reconstruct_step in H. destruct (is_group r) eqn:Hg.
  - destruct (String.eqb (raw_name r) group_end); [|discriminate].
    destruct loc; [|discriminate]. inversion H. reflexivity.
  - destruct (reconstruct_step_leaf fn loc r v s Hg) as (s2 & Hs & _).
    unfold reconstruct_step in Hs. rewrite Hg in Hs. congruence.
Qed.

(** Every failure of [load] either comes from the parsing of the file, as
    [diagnosed] says, or is the pop of the empty group stack, or the
    element access of line 82 on an empty buffer. *)
Lemma load_Fail_cases fn v s x s' :
  0 <= offset s -> load fn v s = (Fail x, s') ->
  diagnosed fn s x s' \/ x = Undefined "pop_back on an empty vector" \/
  x = Undefined "operator[] on an empty vector".
Proof.
  intros H0 H. unfold load in H.
  apply bind_Fail in H as [H | ([] & s0 & Hb & H)].
  { apply buffer_start_Fail in H as (_ & -> & _). auto. }
  apply buffer_start_Ok in Hb as [_ ->].
  apply bind_Fail in H as [H | ([] & s1 & Hh & H)].
  - left. destruct (orderly_read_header fn v s H0) as [_ Hd]. rewrite H in Hd. exact Hd.
  - apply bind_Fail in H as [H | (raw & s2 & Hr & H)].
    + left. destruct (orderly_parse fn v s H0) as [_ Hd].
      rewrite (bind_run _ _ _ _ _ _ Hh), H in Hd. exact Hd.
    + right. left. apply bind_Fail in H as [H | (? & ? & _ & H)]; [|discriminate].
      eapply reconstruct_Fail_pop; eauto.
Qed.

(** X13: when [load] returns false it has printed exactly one diagnostic,
    one of the five rejections; when it throws, the exception is
    "Truncated PSD" (or the length error of [resize]) and nothing has been
    printed; when the assertion fails, the compression diagnostic alone
    has been printed. *)
Theorem load_failure_diagnostics fn v s x s' :
  0 <= offset s -> load fn v s = (Fail x, s') ->
  (x = ReturnedFalse ->
   exists text, In text rejections /\ cerr s' = cerr s ++ [message fn text]) /\
  (forall what, x = Thrown what ->
   (what = truncated \/ what = "vector too long"%string) /\ cerr s' = cerr s) /\
  (x = AssertFailed -> cerr s' = cerr s ++ [message fn unsupported_compression]).
Proof.
  intros H0 H. destruct (load_Fail_cases fn v s x s' H0 H) as [Hd | [-> | ->]].
  - repeat split; intros; subst; simpl in Hd; tauto.
  - repeat split; intros; discriminate.
  - repeat split; intros; discriminate.
Qed.

Lemma load_failure_diagnostics_witness :
  exists text,
    In text rejections /\
    cerr (mk_machine 24 (mk_psd 9 7 [])
            [message "f.psd" "Invalid color depth.  Open image menu in photoshop.  Expand mode.  Select 8 bits/channel."] [])
    = cerr (start (mk_psd 0 0 [])) ++ [message "f.psd" text].
Proof.
  apply (proj1 (load_failure_diagnostics "f.psd" file_depth16 (start (mk_psd 0 0 []))
                  ReturnedFalse
                  (mk_machine 24 (mk_psd 9 7 [])
                     [message "f.psd" "Invalid color depth.  Open image menu in photoshop.  Expand mode.  Select 8 bits/channel."] [])
                  ltac:(simpl; lia) ltac:(vm_compute; reflexivity))).
  reflexivity.
Defined.

(** X14: [load] never dereferences a byte outside the buffer through
    [read8], [read16] or [read32], whatever the file holds - not even
    after the unchecked moves of lines 201 and 207 have taken the cursor
    past the end: the check of the helper then throws - and the loop of
    lines 209-222 always ends, within one turn per byte of the file.
    (Other undefined operations can be reached: line 82 on an empty
    buffer, the copy of line 200, [pop_back] at line 238; and the
    pointer arithmetic of lines 201 and 207, which is not tracked.) *)
Theorem load_checked_reads_stay_inside fn v s :
  0 <= offset s ->
  fst (load fn v s) <> Fail (Undefined "read outside the buffer") /\
  fst (load fn v s) <> Fail OutOfFuel.
Proof.
  intros H0. destruct (load fn v s) as [[[]|x] s'] eqn:H; simpl;
    [split; discriminate|].
  split.
  - intros [= ->]. destruct (load_Fail_cases fn v s _ s' H0 H) as [Hd | [Hp | Hp]];
      [simpl in Hd; destruct Hd as [Hd _] | |]; discriminate.
  - intros [= ->]. unfold load in H.
    apply bind_Fail in H as [H | ([] & s0 & Hb & H)].
    { apply buffer_start_Fail in H as (_ & Hx & _). discriminate. }
    apply buffer_start_Ok in Hb as [_ ->].
    apply bind_Fail in H as [H | ([] & s1 & Hh & H)].
    + destruct (confined_read_header fuelled cursor_failure_fuelled
                  ltac:(discriminate) fn v s) as [_ Hf].
      rewrite H in Hf. apply (Hf OutOfFuel); reflexivity.
    + apply bind_Fail in H as [H | (raw & s2 & Hr & H)].
      * destruct (confined_read_layers fn v s1) as [_ Hf].
        rewrite H in Hf. apply (Hf OutOfFuel); reflexivity.
      * apply bind_Fail in H as [H | (? & ? & _ & H)]; [|discriminate].
        apply reconstruct_Fail_pop in H. discriminate.
Qed.

(** On [file_cut_rle_row] the jump-table skip of line 207 leaves the
    buffer; the [read8] that follows throws. *)
Lemma load_checked_reads_stay_inside_witness :
  fst (load "f.psd" file_cut_rle_row (start (mk_psd 0 0 [])))
  <> Fail (Undefined "read outside the buffer") /\
  fst (load "f.psd" file_cut_rle_row (start (mk_psd 0 0 [])))
  <> Fail OutOfFuel.
Proof.
  apply (load_checked_reads_stay_inside "f.psd" file_cut_rle_row (start (mk_psd 0 0 []))).
  simpl. lia.
Defined.

Example cut_rle_row_throws :
  load "f.psd" file_cut_rle_row (start (mk_psd 0 0 []))
  = (Fail (Thrown truncated), mk_machine 104 (mk_psd 2 2 []) [] [64]).
Proof. vm_compute. reflexivity. Qed.

(** X15: the cursor of [load] never moves backwards. *)
Theorem load_cursor_moves_forward fn v s :
  0 <= offset s -> offset s <= offset (snd (load fn v s)).
Proof.
  intros H0. exact (proj1 (framed_load fn v v s eq_refl H0)).
Qed.

Lemma load_cursor_moves_forward_witness :
  offset (start (mk_psd 0 0 []))
  <= offset (snd (load "f.psd" (file_rgb 0) (start (mk_psd 0 0 [])))).
Proof.
  apply (load_cursor_moves_forward "f.psd" (file_rgb 0) (start (mk_psd 0 0 []))).
  simpl. lia.
Defined.

(** ** Output layers *)

Lemma scan_layers fn l : forall loc v s r s',
  foldM (reconstruct_step fn) loc l v s = (r, s') ->
  width (self s') = width (self s) /\ height (self s') = height (self s) /\
  exists new,
    layers (self s') = layers (self s) ++ new /\
    Forall (canvas_sized (width (self s)) (height (self s))) new /\
    (forall loc', r = Ok loc' ->
       length new = length (List.filter (fun l => negb (is_group l)) l)).
Proof.
  induction l as [|a l IH]; intros loc v s r s' H.
  - simpl in H. inversion H; subst. split; [reflexivity|]. split; [reflexivity|].
    exists []. rewrite app_nil_r. split; [reflexivity|]. split; [constructor | reflexivity].
  - rewrite foldM_cons in H. unfold bind in H.
    destruct (is_group a) eqn:Hg.
    + assert (exists o, reconstruct_step fn loc a v s = (o, s)) as [o Hstep].
      { unfold reconstruct_step. rewrite Hg.
        destruct (String.eqb (raw_name a) group_end); [destruct loc|]; eexists; reflexivity. }
      rewrite Hstep in H. simpl List.filter. rewrite Hg. simpl negb. cbv iota.
      destruct o as [loc1|x].
      * apply IH in H. exact H.
      * inversion H; subst. split; [reflexivity|]. split; [reflexivity|].
        exists []. rewrite app_nil_r. split; [reflexivity|].
        split; [constructor | discriminate].
    + destruct (reconstruct_step_leaf fn loc a v s Hg) as (s1 & Hstep & Hs1 & _).
      rewrite Hstep in H. apply IH in H as (Hw & Hh & new & Hnew & Hall & Hlen).
      rewrite Hs1 in Hw, Hh, Hnew, Hall. simpl in Hw, Hh, Hnew, Hall.
      split; [exact Hw|]. split; [exact Hh|].
      eexists (_ :: new). split; [rewrite Hnew, <- app_assoc; reflexivity|].
      split.
      * constructor; [|exact Hall].
        unfold canvas_sized. simpl.
        split; [reflexivity|]. split; [reflexivity|].
        split; [apply composite_layer_length | destruct loc; discriminate].
      * intros loc' Hr. simpl List.filter. rewrite Hg. simpl. f_equal. eauto.
Qed.

(** X16: every layer that a successful [load] adds to the object is
    canvas-sized: it carries the width and height the object ends up
    with, its pixel buffer has width x height entries, and its path is
    not empty.  The layers the object had before are kept in front. *)
Theorem loaded_layers_are_canvas_sized fn v s s' :
  load fn v s = (Ok tt, s') ->
  exists new,
    layers (self s') = layers (self s) ++ new /\
    Forall (canvas_sized (width (self s')) (height (self s'))) new.
Proof.
  intros H. unfold load in H.
  apply bind_Ok in H as ([] & s0 & Hb & H). apply buffer_start_Ok in Hb as [_ ->].
  apply bind_Ok in H as ([] & s1 & Hh & H).
  apply bind_Ok in H as (raw & s2 & Hr & H).
  apply bind_Ok in H as (loc & s3 & Hrec & H). inversion H; subst s3; clear H.
  destruct (confined_read_header any_failure cursor_failure_any I fn v s) as [Hl1 _].
  destruct (confined_read_layers fn v s1) as [Hl2 _].
  rewrite Hh in Hl1. rewrite Hr in Hl2. simpl in Hl1, Hl2.
  apply scan_layers in Hrec as (Hw & Hh' & new & Hnew & Hall & _).
  exists new. rewrite Hnew, Hl2, Hl1, Hw, Hh'. auto.
Qed.

Lemma loaded_layers_are_canvas_sized_witness :
  exists new,
    layers (self (mk_machine 135 (mk_psd 2 2
                    [mk_layer ["old"%string] 1 1 [7];
                     mk_layer ["Layer 1"%string] 2 2 [1973790; 1976360; 657930; 1315860]])
                    [] [64; 70; 76]))
    = layers (self (start (mk_psd 0 0 [mk_layer ["old"%string] 1 1 [7]]))) ++ new /\
    Forall (canvas_sized 2 2) new.
Proof.
  apply (loaded_layers_are_canvas_sized "f.psd" (file_rgb 0)
           (start (mk_psd 0 0 [mk_layer ["old"%string] 1 1 [7]]))).
  vm_compute. reflexivity.
Defined.

(** X17: whatever the nesting, a scan that succeeds adds exactly one
    output layer per record without the group flag, and none for the
    records that carry it. *)
Theorem one_layer_per_drawable_record fn raw v s loc s' :
  reconstruct fn raw v s = (Ok loc, s') ->
  length (layers (self s'))
  = (length (layers (self s)) + length (drawable raw))%nat.
Proof.
  intros H. unfold reconstruct in H.
  apply scan_layers in H as (_ & _ & new & Hnew & _ & Hlen).
  rewrite Hnew, length_app, (Hlen loc eq_refl). f_equal.
  unfold drawable.
  assert (forall l : list raw_layer,
            length (List.filter (fun l => negb (is_group l)) (rev l))
            = length (List.filter (fun l => negb (is_group l)) l)) as Hrev.
  { induction l as [|a l IH]; [reflexivity|].
    simpl rev. rewrite List.filter_app, length_app, IH. simpl.
    destruct (is_group a); simpl; lia. }
  apply Hrev.
Qed.

Lemma one_layer_per_drawable_record_witness :
  length (layers (self (snd (reconstruct "f.psd" (stored folder_forest) []
                               (start (mk_psd 1 1 []))))))
  = (length (layers (self (start (mk_psd 1 1 []))))
     + length (drawable (stored folder_forest)))%nat.
Proof.
  apply (one_layer_per_drawable_record "f.psd" (stored folder_forest) []
           (start (mk_psd 1 1 [])) []).
  vm_compute. reflexivity.
Defined.

(** ** The layer list after parsing *)

Lemma replicateM_Forall {A} (P : A -> Prop) (m : M A) n : forall v s l s',
  (forall v s a s', m v s = (Ok a, s') -> P a) ->
  replicateM n m v s = (Ok l, s') -> Forall P l.
Proof.
  induction n as [|n IH]; intros v s l s' Hm H; simpl in H.
  - inversion H. constructor.
  - apply bind_Ok in H as (a & s1 & Ha & H).
    apply bind_Ok in H as (l1 & s2 & Hl & H). inversion H; subst.
    constructor; eauto.
Qed.

Lemma mapM_Forall2 {A B} (R : A -> B -> Prop) (f : A -> M B) l : forall v s l' s',
  (forall a v s b s', f a v s = (Ok b, s') -> R a b) ->
  mapM f l v s = (Ok l', s') -> Forall2 R l l'.
Proof.
  induction l as [|a l IH]; intros v s l' s' Hf H; simpl in H.
  - inversion H. constructor.
  - apply bind_Ok in H as (b & s1 & Hb & H).
    apply bind_Ok in H as (bs & s2 & Hbs & H). inversion H; subst.
    constructor; eauto.
Qed.

Lemma int16_of_range z : - 2 ^ 15 <= int16_of z < 2 ^ 15.
Proof.
  unfold int16_of, wrap16. pose proof (Z.mod_pos_bound z (2 ^ 16) ltac:(lia)).
  destruct (Z.ltb_spec (z mod 2 ^ 16) (2 ^ 15)); lia.
Qed.

Lemma read32_range v s z s' : read32 v s = (Ok z, s') -> 0 <= z < 2 ^ 32.
Proof.
  intros H. apply read32_Ok in H as (b0 & b1 & b2 & b3 & _ & _ & _ & _ & -> & _).
  pose proof (u8_range b0). pose proof (u8_range b1).
  pose proof (u8_range b2). pose proof (u8_range b3). lia.
Qed.

Lemma read_channel_info_Ok v s c s' :
  read_channel_info v s = (Ok c, s') -> data c = [] /\ - 2 ^ 15 <= kind c < 2 ^ 15.
Proof.
  intros H. unfold read_channel_info in H.
  apply bind_Ok in H as (k & s1 & _ & H).
  apply bind_Ok in H as (s0 & s2 & _ & H).
  apply bind_Ok in H as (len & s3 & _ & H).
  apply bind_Ok in H as ([] & s4 & _ & H). inversion H; subst. simpl.
  split; [reflexivity | apply int16_of_range].
Qed.

(** A parsed layer record: coordinates in range, channels still empty. *)
Lemma read_layer_record_Ok fn v s l s' :
  read_layer_record fn v s = (Ok l, s') ->
  (0 <= top l < 2 ^ 32 /\ 0 <= left l < 2 ^ 32 /\
   0 <= bot l < 2 ^ 32 /\ 0 <= right l < 2 ^ 32) /\
  Forall (fun c => data c = [] /\ - 2 ^ 15 <= kind c < 2 ^ 15) (channels l).
Proof.
  intros H. unfold read_layer_record in H.
  apply bind_Ok in H as (t & s1 & Ht & H). apply read32_range in Ht.
  apply bind_Ok in H as (lf & s2 & Hl & H). apply read32_range in Hl.
  apply bind_Ok in H as (b & s3 & Hb & H). apply read32_range in Hb.
  apply bind_Ok in H as (r & s4 & Hr & H). apply read32_range in Hr.
  apply bind_Ok in H as (nch & s5 & _ & H).
  apply bind_Ok in H as (chs & s6 & Hchs & H).
  apply (replicateM_Forall (fun c => data c = [] /\ - 2 ^ 15 <= kind c < 2 ^ 15)) in Hchs;
    [|intros; eapply read_channel_info_Ok; eauto].
  repeat (apply bind_Ok in H as (? & ? & _ & H)).
  inversion H; subst. simpl. auto.
Qed.

Lemma decode_channel_Ok fn w h c v s c' s' :
  decode_channel fn w h c v s = (Ok c', s') ->
  kind c' = kind c /\
  (data c = [] ->
   wrap32 (w * h) <= Z.of_nat (length (data c')) < wrap32 (w * h) + 128).
Proof.
  intros H. unfold decode_channel in H.
  apply bind_Ok in H as (comp & s1 & _ & H).
  pose proof (wrap32_range (w * h)) as Ha.
  destruct (comp =? 0); [|destruct (comp =? 1)].
  - apply bind_Ok in H as (bs & s2 & Hbs & H).
    apply copy_from_cursor_Ok in Hbs as [Hlen ->]; [|lia].
    apply bind_Ok in H as ([] & s3 & _ & H). inversion H; subst. simpl.
    split; [reflexivity|]. intros ->. simpl. lia.
  - apply bind_Ok in H as ([] & s2 & _ & H).
    apply bind_Ok in H as (size & s3 & _ & H).
    apply bind_Ok in H as (d & s4 & Hloop & H). inversion H; subst. simpl.
    split; [reflexivity|]. intros Hd.
    eapply rle_loop_Ok; [exact Hloop|]. rewrite Hd. simpl. lia.
  - apply bind_Ok in H as (? & ? & _ & H). discriminate.
Qed.

Lemma decode_layer_Ok fn l v s l' s' :
  (0 <= top l < 2 ^ 32 /\ 0 <= left l < 2 ^ 32 /\
   0 <= bot l < 2 ^ 32 /\ 0 <= right l < 2 ^ 32) ->
  Forall (fun c => data c = [] /\ - 2 ^ 15 <= kind c < 2 ^ 15) (channels l) ->
  decode_layer fn l v s = (Ok l', s') -> decoded_layer l'.
Proof.
  intros Hbox Hchs H. unfold decode_layer in H.
  apply bind_Ok in H as (chs & s1 & Hmap & H). inversion H; subst; clear H.
  split; [exact Hbox|]. simpl channels.
  apply (mapM_Forall2
           (fun c c' => kind c' = kind c /\
              (data c = [] ->
               layer_area l <= Z.of_nat (length (data c')) < layer_area l + 128))) in Hmap;
    [|intros; eapply decode_channel_Ok; eauto].
  unfold layer_area at 1 2. simpl.
  fold (layer_area l).
  revert Hchs. induction Hmap as [|c c' cs cs' [Hk Hlen] _ IH]; intros Hchs;
    [constructor|].
  inversion Hchs as [|? ? [Hd Hr] Hrest]; subst.
  constructor; [|apply IH, Hrest].
  rewrite Hk. split; [exact Hr | apply Hlen, Hd].
Qed.

(** X19: every layer that [read_layers] returns has a box of unsigned
    32-bit coordinates and channels of signed 16-bit kinds, and each of
    its channels holds at least the area of the box - as the source
    computes it - and fewer than 128 bytes more. *)
Theorem parsed_layers_are_decoded fn v s raw s' :
  read_layers fn v s = (Ok raw, s') -> Forall decoded_layer raw.
Proof.
  intros H. unfold read_layers in H.
  apply bind_Ok in H as (count & s1 & _ & H).
  apply bind_Ok in H as (recs & s2 & Hrecs & H).
  apply (replicateM_Forall
           (fun l => (0 <= top l < 2 ^ 32 /\ 0 <= left l < 2 ^ 32 /\
                      0 <= bot l < 2 ^ 32 /\ 0 <= right l < 2 ^ 32) /\
                     Forall (fun c => data c = [] /\ - 2 ^ 15 <= kind c < 2 ^ 15)
                            (channels l))) in Hrecs;
    [|intros; eapply read_layer_record_Ok; eauto].
  revert s2 raw H. induction Hrecs as [|l recs [Hbox Hchs] _ IH]; intros s2 raw H;
    simpl in H.
  - inversion H. constructor.
  - apply bind_Ok in H as (l' & s3 & Hl & H).
    apply bind_Ok in H as (ls & s4 & Hls & H). inversion H; subst.
    constructor; [eapply decode_layer_Ok; eauto | eapply IH; eauto].
Qed.

Lemma parsed_layers_are_decoded_witness :
  Forall decoded_layer
    [mk_raw_layer 1 0 2 1 "Layer 1" false [mk_channel 0 [x07; x09]]].
Proof.
  apply (parsed_layers_are_decoded "f.psd" file_overrun
           (mk_machine 34 (mk_psd 1 2 []) [] [])
           [mk_raw_layer 1 0 2 1 "Layer 1" false [mk_channel 0 [x07; x09]]]
           (mk_machine 107 (mk_psd 1 2 []) [] [64])).
  vm_compute. reflexivity.
Defined.

(** ** Packed pixels *)

Lemma channel_shift_range k shift : channel_shift k = Some shift -> 0 <= shift <= 24.
Proof.
  unfold channel_shift.
  destruct (Z.leb_spec 0 k), (Z.leb_spec k 2); simpl; try (intros [= <-]; lia);
    destruct (k =? -1); intros [= <-]; lia.
Qed.

Lemma lor_fits a b n : 0 <= n -> 0 <= a < 2 ^ n -> 0 <= b < 2 ^ n -> 0 <= Z.lor a b < 2 ^ n.
Proof.
  intros Hn Ha Hb. split; [apply Z.lor_nonneg; lia|].
  destruct (Z.eq_dec a 0) as [->|Hane]; [rewrite Z.lor_0_l; lia|].
  destruct (Z.eq_dec b 0) as [->|Hbne]; [rewrite Z.lor_0_r; lia|].
  assert (0 < Z.lor a b).
  { assert (0 <= Z.lor a b) by (apply Z.lor_nonneg; lia).
    assert (Z.lor a b <> 0) by (rewrite Z.lor_eq_0_iff; lia). lia. }
  apply Z.log2_lt_pow2; [lia|].
  rewrite Z.log2_lor by lia.
  assert (Z.log2 a < n) by (apply Z.log2_lt_pow2; lia).
  assert (Z.log2 b < n) by (apply Z.log2_lt_pow2; lia). lia.
Qed.

Lemma shifted_byte_fits b shift : 0 <= shift <= 24 -> 0 <= Z.shiftl (u8 b) shift < 2 ^ 32.
Proof.
  intros Hs. rewrite Z.shiftl_mul_pow2 by lia. pose proof (u8_range b).
  assert (0 < 2 ^ shift) by (apply Z.pow_pos_nonneg; lia).
  assert (2 ^ shift <= 2 ^ 24) by (apply Z.pow_le_mono_r; lia).
  change (2 ^ 32) with (256 * 2 ^ 24). nia.
Qed.

Lemma blit_fits cw ch lft rgt shift bytes : 0 <= shift <= 24 -> forall x y (px : list Z),
  Forall (fun p => 0 <= p < 2 ^ 32) px ->
  Forall (fun p => 0 <= p < 2 ^ 32) (blit cw ch lft rgt shift bytes x y px).
Proof.
  intros Hs. induction bytes as [|b rest IH]; intros x y px Hpx; [exact Hpx|].
  rewrite blit_cons.
  assert (Forall (fun p => 0 <= p < 2 ^ 32)
            (if (x <? cw) && (y <? ch)
             then alter (fun p => Z.lor p (Z.shiftl (u8 b) shift))
                        (Z.to_nat (x + y * cw)) px
             else px)) as Hpx'.
  { destruct ((x <? cw) && (y <? ch)); [|exact Hpx].
    apply Forall_alter; [exact Hpx|].
    intros p _ Hp. apply (lor_fits p _ 32); [lia | exact Hp | apply shifted_byte_fits, Hs]. }
  destruct (wrap32 (x + 1) >=? rgt); apply IH, Hpx'.
Qed.

(** X20: every packed pixel of a composited layer is an unsigned 32-bit
    value, whatever the layer's box and channels are. *)
Theorem pixels_fit_32_bits cw ch l :
  Forall (fun p => 0 <= p < 2 ^ 32) (composite_layer cw ch l).
Proof.
  unfold composite_layer.
  assert (Forall (fun p => 0 <= p < 2 ^ 32) (replicate (Z.to_nat (cw * ch)) 0)) as H
    by (apply Forall_replicate; lia).
  revert H. generalize (replicate (Z.to_nat (cw * ch)) 0).
  induction (channels l) as [|c chs IH]; intros px Hpx; [exact Hpx|].
  simpl. apply IH. unfold composite_channel.
  destruct (channel_shift (kind c)) as [shift|] eqn:Hk; [|exact Hpx].
  apply blit_fits; [eapply channel_shift_range; eauto | exact Hpx].
Qed.






(** The layer of the witness: two warnings, and the red byte alone in the
    pixel. *)
Example user_mask_and_fourth_colour_are_ignored :
  exists s1,
    reconstruct_step "f.psd" []
      (mk_raw_layer 0 0 1 1 "L" false
         [mk_channel 0 [x0a]; mk_channel 3 [xff]; mk_channel (-2) [x7f]])
      [] (start (mk_psd 1 1 [])) = (Ok [], s1) /\
    cerr s1 = [message "f.psd" unsupported_kind; message "f.psd" unsupported_kind] /\
    map pixels (layers (self s1)) = [[0x0a]].
Proof. eexists. split; [vm_compute; reflexivity|]. split; reflexivity. Qed.




(** ** The layout of a layer record *)

Lemma read32_word v s z s' :
  read32 v s = (Ok z, s') ->
  word32_at v (offset s) z /\ 0 <= z < 2 ^ 32 /\ s' = set_offset (offset s + 4) s.
Proof.
  intros H. pose proof (read32_range _ _ _ _ H) as Hz.
  apply read32_Ok in H as (b0 & b1 & b2 & b3 & H0 & H1 & H2 & H3 & -> & Ho & _ & ->).
  split; [|auto]. split; [exact Ho|]. exists b0, b1, b2, b3. auto.
Qed.

Lemma read16_word v s z s' :
  read16 v s = (Ok z, s') ->
  word16_at v (offset s) z /\ 0 <= z < 2 ^ 16 /\ s' = set_offset (offset s + 2) s.
Proof.
  intros H.
  apply read16_inv in H as (b0 & b1 & H0 & H1 & -> & Ho & _ & ->).
  pose proof (u8_range b0). pose proof (u8_range b1).
  split; [|split; [lia | reflexivity]]. split; [exact Ho|]. exists b0, b1. auto.
Qed.

Lemma read_channel_info_word v s c s' :
  read_channel_info v s = (Ok c, s') ->
  offset s' = offset s + 6 /\
  exists k, word16_at v (offset s) k /\ kind c = int16_of k.
Proof.
  intros H. unfold read_channel_info in H.
  apply bind_Ok in H as (k & s1 & Hk & H). apply read16_word in Hk as (Hk & _ & ->).
  apply bind_Ok in H as (s0 & s2 & Hg & H). inversion Hg; subst s0 s2; clear Hg.
  apply bind_Ok in H as (len & s3 & Hlen & H). apply read32_word in Hlen as (_ & _ & ->).
  apply bind_Ok in H as ([] & s4 & Hm & H). inversion Hm; subst s4; clear Hm.
  inversion H; subst. simpl. split; [lia|]. exists k. auto.
Qed.

Lemma replicateM_stride {A} (m : M A) d (Q : Z -> A -> Prop) v n : forall s l s',
  (forall s a s', m v s = (Ok a, s') -> offset s' = offset s + d /\ Q (offset s) a) ->
  replicateM n m v s = (Ok l, s') ->
  offset s' = offset s + d * Z.of_nat n /\
  forall i a, l !! i = Some a -> Q (offset s + d * Z.of_nat i) a.
Proof.
  induction n as [|n IH]; intros s l s' Hm H; simpl in H.
  - inversion H; subst. split; [lia|]. intros i a Hi. discriminate.
  - apply bind_Ok in H as (a & s1 & Ha & H).
    apply bind_Ok in H as (l1 & s2 & Hl & H). inversion H; subst.
    apply Hm in Ha as [Ho Hq]. apply IH in Hl as [Ho' Hq']; [|exact Hm].
    split; [lia|]. intros [|i] b Hi; simpl in Hi.
    + inversion Hi; subst. replace (offset s + d * Z.of_nat 0) with (offset s) by lia.
      exact Hq.
    + apply Hq' in Hi. rewrite Ho in Hi.
      replace (offset s + d * Z.of_nat (S i)) with (offset s + d + d * Z.of_nat i) by lia.
      exact Hi.
Qed.

Lemma name_padding_forward n : forall len v s s',
  name_padding n len v s = (Ok tt, s') -> offset s <= offset s'.
Proof.
  induction n as [|n IH]; intros len v s s' H; simpl in H.
  - inversion H; subst. lia.
  - destruct (Z.land len 3 =? 0); [inversion H; subst; lia|].
    apply bind_Ok in H as (z & s1 & Hz & H).
    apply read8_Ok in Hz as (b & _ & _ & _ & ->).
    apply IH in H. simpl in H. lia.
Qed.

Lemma read_name_forward v s nm s' :
  read_name v s = (Ok nm, s') -> 0 <= offset s <= offset s'.
Proof.
  intros H. unfold read_name in H.
  apply bind_Ok in H as (z & s1 & Hn & H).
  apply read8_Ok in Hn as (n & _ & -> & Hr & ->).
  apply bind_Ok in H as (cs & s2 & Hcs & H).
  apply replicateM_read8_Ok in Hcs as [_ ->].
  apply bind_Ok in H as ([] & s3 & Hp & H). inversion H; subst.
  apply name_padding_forward in Hp. simpl in Hp. lia.
Qed.

(** X23: the layout of a layer record that [load] accepts.  With [n]
    channels, the box is made of the four 32-bit words at the start, the
    channel count is the 16-bit word at +16, channel [i] has its kind at
    +18+6i, the signature '8BIM' is at +18+6n, the group flag is bits
    0x18 of the byte at +28+6n, and the record ends exactly where the
    extra-data length at +30+6n says: the mask, blending ranges and name
    cannot run past it.  (A [std::vector] holds fewer than 2^63 bytes.) *)
Theorem layer_record_layout fn v s l s' :
  e v < 2 ^ 63 ->
  read_layer_record fn v s = (Ok l, s') ->
  let n := Z.of_nat (length (channels l)) in
  word32_at v (offset s) (top l) /\ word32_at v (offset s + 4) (left l) /\
  word32_at v (offset s + 8) (bot l) /\ word32_at v (offset s + 12) (right l) /\
  word16_at v (offset s + 16) n /\
  (forall i c, channels l !! i = Some c ->
     exists k, word16_at v (offset s + 18 + 6 * Z.of_nat i) k /\ kind c = int16_of k) /\
  word32_at v (offset s + 18 + 6 * n) 0x3842494D /\
  (exists f, v !! Z.to_nat (offset s + 28 + 6 * n) = Some f /\
             is_group l = (Z.land (u8 f) 0x18 =? 0x18)) /\
  (exists len, word32_at v (offset s + 30 + 6 * n) len /\
               offset s' = offset s + 34 + 6 * n + len) /\
  offset s' <= e v.
Proof.
  intros Hsize H. unfold read_layer_record in H.
  apply bind_Ok in H as (t & s1 & Ht & H). apply read32_word in Ht as (Ht & _ & ->).
  apply bind_Ok in H as (lf & s2 & Hl & H). apply read32_word in Hl as (Hl & _ & ->).
  apply bind_Ok in H as (b & s3 & Hb & H). apply read32_word in Hb as (Hb & _ & ->).
  apply bind_Ok in H as (r & s4 & Hr & H). apply read32_word in Hr as (Hr & _ & ->).
  apply bind_Ok in H as (nch & s5 & Hn & H). apply read16_word in Hn as (Hn & Hnr & ->).
  simpl offset in *.
  apply bind_Ok in H as (chs & s6 & Hchs & H).
  pose proof (replicateM_length _ _ _ _ _ _ Hchs) as Hlen.
  apply (replicateM_stride read_channel_info 6
           (fun i c => exists k, word16_at v i k /\ kind c = int16_of k)) in Hchs
    as [Ho6 Hkinds];
    [|intros; eapply read_channel_info_word; eauto].
  simpl offset in Ho6, Hkinds. rewrite Z2Nat.id in Ho6 by lia.
  assert (Z.of_nat (length chs) = nch) as Hcount by lia.
  apply bind_Ok in H as (sig & s7 & Hsig & H). apply read32_word in Hsig as (Hsig & _ & ->).
  apply bind_Ok in H as ([] & s8 & Hck & H). apply check_Ok in Hck as [Hsigv ->].
  apply Z.eqb_eq in Hsigv. subst sig.
  apply bind_Ok in H as (blend & s9 & Hbl & H). apply read32_word in Hbl as (_ & _ & ->).
  apply bind_Ok in H as (op & s10 & Hop & H). apply read8_Ok in Hop as (? & _ & _ & _ & ->).
  apply bind_Ok in H as (cl & s11 & Hcl & H). apply read8_Ok in Hcl as (? & _ & _ & _ & ->).
  apply bind_Ok in H as (fl & s12 & Hfl & H). apply read8_Ok in Hfl as (f & Hf & -> & _ & ->).
  apply bind_Ok in H as (zz & s13 & Hz & H). apply read8_Ok in Hz as (? & _ & _ & _ & ->).
  apply bind_Ok in H as (len & s14 & Hlen' & H).
  apply read32_word in Hlen' as (Hlenw & Hlenr & ->).
  apply bind_Ok in H as (s0 & s15 & Hg & H). inversion Hg; subst s0 s15; clear Hg.
  apply bind_Ok in H as (ml & s16 & Hml & H).
  apply read32_word in Hml as (_ & Hmlr & ->).
  apply bind_Ok in H as ([] & s17 & Hsk & H). apply skip_Ok in Hsk as (-> & _ & _).
  apply bind_Ok in H as (bl & s18 & Hblr & H).
  apply read32_word in Hblr as (_ & Hblrr & ->).
  apply bind_Ok in H as ([] & s19 & Hsk & H). apply skip_Ok in Hsk as (-> & _ & _).
  apply bind_Ok in H as (nm & s20 & Hnm & H). apply read_name_forward in Hnm.
  apply bind_Ok in H as (s0 & s21 & Hg & H). inversion Hg; subst s0 s21; clear Hg.
  apply bind_Ok in H as ([] & s22 & Hsk & H). apply skip_Ok in Hsk as (-> & _ & Hend).
  inversion H; subst l s'; clear H.
  simpl offset in *. simpl channels. simpl top. simpl left. simpl bot. simpl right.
  simpl is_group. cbv zeta. rewrite Hcount.
  assert (0 <= offset s) as Hs0 by (destruct Ht; assumption).
  assert (offset s20
          + size_t_of (offset s6 + 4 + 4 + 1 + 1 + 1 + 1 + 4 + len - offset s20)
          = offset s + 34 + 6 * nch + len) as Hfinal.
  { unfold size_t_of in *.
    pose proof (Z.mod_pos_bound
                  (offset s6 + 4 + 4 + 1 + 1 + 1 + 1 + 4 + len - offset s20)
                  (2 ^ 64) ltac:(lia)) as Hrem.
    pose proof (Z.div_mod
                  (offset s6 + 4 + 4 + 1 + 1 + 1 + 1 + 4 + len - offset s20)
                  (2 ^ 64) ltac:(lia)) as Hdm.
    assert (2 ^ 63 + 2 ^ 63 = 2 ^ 64) as H64 by reflexivity.
    assert (2 ^ 32 < 2 ^ 63) as H32 by reflexivity.
    assert (offset s6 <= e v).
    { destruct Hsig as [_ (? & ? & ? & g3 & _ & _ & _ & Hg3 & _)].
      apply lookup_lt_Some in Hg3. unfold e. lia. }
    assert ((offset s6 + 4 + 4 + 1 + 1 + 1 + 1 + 4 + len - offset s20) / 2 ^ 64 = 0) by nia.
    lia. }
  rewrite Hfinal in *. clear Hfinal. rewrite Ho6 in *.
  split; [exact Ht|].
  split; [exact Hl|].
  split; [replace (offset s + 8) with (offset s + 4 + 4) by lia; exact Hb|].
  split; [replace (offset s + 12) with (offset s + 4 + 4 + 4) by lia; exact Hr|].
  split; [replace (offset s + 16) with (offset s + 4 + 4 + 4 + 4) by lia; exact Hn|].
  split.
  { intros i c Hi. apply Hkinds in Hi as (k & Hk & Hkind). exists k. split; [|exact Hkind].
    replace (offset s + 18 + 6 * Z.of_nat i)
      with (offset s + 4 + 4 + 4 + 4 + 2 + 6 * Z.of_nat i) by lia.
    exact Hk. }
  split.
  { replace (offset s + 18 + 6 * nch)
      with (offset s + 4 + 4 + 4 + 4 + 2 + 6 * nch) by lia.
    exact Hsig. }
  split.
  { exists f. split; [|reflexivity].
    replace (offset s + 28 + 6 * nch)
      with (offset s + 4 + 4 + 4 + 4 + 2 + 6 * nch + 4 + 4 + 1 + 1) by lia.
    exact Hf. }
  split; [|exact Hend].
  exists len. split; [|reflexivity].
  replace (offset s + 30 + 6 * nch)
    with (offset s + 4 + 4 + 4 + 4 + 2 + 6 * nch + 4 + 4 + 1 + 1 + 1 + 1) by lia.
  exact Hlenw.
Qed.

Lemma layer_record_layout_witness :
  word32_at file_overrun 44 1 /\
  (exists f, file_overrun !! Z.to_nat (44 + 28 + 6 * 1) = Some f /\
             false = (Z.land (u8 f) 0x18 =? 0x18)) /\
  (exists len, word32_at file_overrun (44 + 30 + 6 * 1) len /\
               100 = 44 + 34 + 6 * 1 + len).
Proof.
  pose proof (layer_record_layout "f.psd" file_overrun
                (mk_machine 44 (mk_psd 0 0 []) [] [])
                (mk_raw_layer 1 0 2 1 "Layer 1" false [mk_channel 0 []])
                (mk_machine 100 (mk_psd 0 0 []) [] [64])
                ltac:(vm_compute; reflexivity) ltac:(vm_compute; reflexivity)) as H.
  cbv zeta in H.
  destruct H as (H1 & _ & _ & _ & _ & _ & _ & H8 & H9 & _).
  split; [exact H1|]. split; [exact H8 | exact H9].
Defined.

(** ** Headers that are accepted *)

Lemma read32_run v s z :
  word32_at v (offset s) z -> read32 v s = (Ok z, set_offset (offset s + 4) s).
Proof.
  intros (H0 & b0 & b1 & b2 & b3 & Hb0 & Hb1 & Hb2 & Hb3 & ->).
  apply read32_at; assumption.
Qed.

Lemma read16_run v s z :
  word16_at v (offset s) z -> read16 v s = (Ok z, set_offset (offset s + 2) s).
Proof.
  intros (H0 & b0 & b1 & Hb0 & Hb1 & ->). apply read16_at; assumption.
Qed.

Lemma skip_run amt v s :
  0 <= amt -> offset s + amt <= e v ->
  skip amt v s = (Ok tt, set_offset (offset s + amt) s).
Proof.
  intros Ha He. unfold skip. rewrite Z.gtb_ltb.
  destruct (Z.ltb_spec (e v) (offset s + amt)); [lia|].
  destruct (Z.ltb_spec (offset s + amt) (offset s)); [lia|]. reflexivity.
Qed.

Lemma word32_at_inside v i z : word32_at v i z -> i + 4 <= e v /\ 0 <= z < 2 ^ 32.
Proof.
  intros (H0 & b0 & b1 & b2 & b3 & _ & _ & _ & Hb3 & ->).
  apply lookup_lt_Some in Hb3.
  pose proof (u8_range b0). pose proof (u8_range b1).
  pose proof (u8_range b2). pose proof (u8_range b3).
  unfold e. lia.
Qed.

(** The header stage on a buffer that holds a valid header. *)
Lemma read_header_run fn v p h w clen rlen :
  word32_at v 0 0x38425053 -> word16_at v 4 1 ->
  word32_at v 14 h -> word32_at v 18 w ->
  word16_at v 22 8 -> word16_at v 24 3 ->
  word32_at v 26 clen -> word32_at v (30 + clen) rlen ->
  34 + clen + rlen <= e v ->
  read_header fn v (start p)
  = (Ok tt, mk_machine (34 + clen + rlen) (mk_psd w h (layers p)) [] []).
Proof.
  intros Hsig Hver Hh Hw Hdep Hmode Hclen Hrlen Hfit.
  pose proof (word32_at_inside _ _ _ Hh) as [Hh4 _].
  pose proof (word32_at_inside _ _ _ Hclen) as [_ Hcr].
  pose proof (word32_at_inside _ _ _ Hrlen) as [_ Hrr].
  unfold read_header.
  rewrite (bind_run _ _ _ _ _ _ (read32_run v (start p) _ Hsig)).
  change (check fn (0x38425053 =? 0x38425053) "Signature not found.") with (@ret unit tt).
  unfold bind at 1, ret at 1.
  rewrite (bind_run _ _ _ _ _ _ (read16_run v (set_offset 4 (start p)) _ Hver)).
  change (check fn (1 =? 1) "Version not found.") with (@ret unit tt).
  unfold bind at 1, ret at 1.
  rewrite (bind_run _ _ _ _ _ _
             (skip_run 6 v (set_offset 6 (start p)) ltac:(lia) ltac:(simpl; lia))).
  destruct (read16_shape v (set_offset 12 (start p)) ltac:(simpl; lia))
    as [[Hlt _] | [_ [chn Hchn]]]; [simpl in Hlt; lia|].
  rewrite (bind_run _ _ _ _ _ _ Hchn).
  rewrite (bind_run _ _ _ _ _ _ (read32_run v (set_offset 14 (start p)) _ Hh)).
  unfold bind at 1, set_height at 1, modify at 1.
  rewrite (bind_run _ _ _ _ _ _
             (read32_run v (mk_machine 18 (mk_psd (width p) h (layers p)) [] []) _ Hw)).
  unfold bind at 1, set_width at 1, modify at 1.
  rewrite (bind_run _ _ _ _ _ _
             (read16_run v (mk_machine 22 (mk_psd w h (layers p)) [] []) _ Hdep)).
  match goal with |- context [check fn (8 =? 8) ?t] =>
    change (check fn (8 =? 8) t) with (@ret unit tt) end.
  unfold bind at 1, ret at 1.
  rewrite (bind_run _ _ _ _ _ _
             (read16_run v (mk_machine 24 (mk_psd w h (layers p)) [] []) _ Hmode)).
  match goal with |- context [check fn (3 =? 3) ?t] =>
    change (check fn (3 =? 3) t) with (@ret unit tt) end.
  unfold bind at 1, ret at 1.
  rewrite (bind_run _ _ _ _ _ _
             (read32_run v (mk_machine 26 (mk_psd w h (layers p)) [] []) _ Hclen)).
  rewrite (bind_run _ _ _ _ _ _
             (skip_run clen v (mk_machine 30 (mk_psd w h (layers p)) [] [])
                ltac:(lia) ltac:(simpl; lia))).
  rewrite (bind_run _ _ _ _ _ _
             (read32_run v (mk_machine (30 + clen) (mk_psd w h (layers p)) [] []) _ Hrlen)).
  rewrite skip_run by (simpl; lia).
  unfold set_offset. simpl. do 2 f_equal. lia.
Qed.

(** X24: a buffer is accepted by the header stage as soon as it holds
    the signature '8BPS', version 1, depth 8 and colour mode 3 at their
    places and its colour-mode and image-resource sections fit: the
    object then has the height and width of offsets 14 and 18, nothing
    is printed, and the cursor stands behind the two sections. *)
Theorem valid_header_is_accepted fn v p h w clen rlen :
  word32_at v 0 0x38425053 -> word16_at v 4 1 ->
  word32_at v 14 h -> word32_at v 18 w ->
  word16_at v 22 8 -> word16_at v 24 3 ->
  word32_at v 26 clen -> word32_at v (30 + clen) rlen ->
  34 + clen + rlen <= e v ->
  read_header fn v (start p)
  = (Ok tt, mk_machine (34 + clen + rlen) (mk_psd w h (layers p)) [] []).
Proof. apply read_header_run. Qed.

Lemma valid_header_is_accepted_witness :
  read_header "f.psd" (file_header 7 9 8) (start (mk_psd 0 0 []))
  = (Ok tt, mk_machine (34 + 0 + 0) (mk_psd 9 7 (layers (mk_psd 0 0 []))) [] []).
Proof.
  apply (valid_header_is_accepted "f.psd" (file_header 7 9 8) (mk_psd 0 0 []) 7 9 0 0);
    try (split; [lia|]; repeat eexists; reflexivity).
  vm_compute. discriminate.
Defined.

Lemma blind_ret {A} (a : A) : layer_blind (ret a).
Proof. intros L v s. reflexivity. Qed.

Lemma blind_raise {A} x : layer_blind (@raise A x).
Proof. intros L v s. reflexivity. Qed.

Lemma blind_buffer_size : layer_blind buffer_size.
Proof. intros L v s. reflexivity. Qed.

Lemma blind_modify f :
  (forall L s, f (keep L s) = keep L (f s)) -> layer_blind (modify f).
Proof. intros Hf L v s. unfold modify. simpl. rewrite Hf. reflexivity. Qed.

Lemma blind_bind {A B} (m : M A) (f : A -> M B) :
  layer_blind m -> (forall a, layer_blind (f a)) -> layer_blind (bind m f).
Proof.
  intros Hm Hf L v s. unfold bind. rewrite Hm.
  destruct (m v s) as [[a|x] s1]; simpl; [apply Hf | reflexivity].
Qed.

(** [get] hands the whole machine to what follows; what follows looks at
    the cursor and the canvas size only. *)
Lemma blind_get_bind {B} (f : machine -> M B) :
  (forall s0, layer_blind (f s0)) ->
  (forall L s0, f (keep L s0) = f s0) ->
  layer_blind (bind get f).
Proof.
  intros Hf Hsame L v s. unfold bind, get. rewrite Hsame. apply Hf.
Qed.

Lemma blind_if {A} (c : bool) (m1 m2 : M A) :
  layer_blind m1 -> layer_blind m2 -> layer_blind (if c then m1 else m2).
Proof. destruct c; auto. Qed.

Lemma blind_replicateM {A} n (m : M A) : layer_blind m -> layer_blind (replicateM n m).
Proof.
  intros Hm. induction n as [|n IH]; simpl; [apply blind_ret|].
  apply blind_bind; [exact Hm | intros a].
  apply blind_bind; [exact IH | intros l]. apply blind_ret.
Qed.

Lemma blind_mapM {A B} (f : A -> M B) l :
  (forall a, layer_blind (f a)) -> layer_blind (mapM f l).
Proof.
  intros Hf. induction l as [|a l IH]; simpl; [apply blind_ret|].
  apply blind_bind; [apply Hf | intros b].
  apply blind_bind; [exact IH | intros bs]. apply blind_ret.
Qed.

Lemma blind_foldM {A B} (f : B -> A -> M B) l :
  (forall b a, layer_blind (f b a)) -> forall b, layer_blind (foldM f b l).
Proof.
  intros Hf. induction l as [|a l IH]; intros b; simpl; [apply blind_ret|].
  apply blind_bind; [apply Hf | exact IH].
Qed.

Lemma blind_guarded {A} (c : list byte -> machine -> bool) x (m : M A) :
  (forall L v s, c v (keep L s) = c v s) -> layer_blind m ->
  layer_blind (fun v s => if c v s then (Fail x, s) else m v s).
Proof.
  intros Hc Hm L v s. rewrite Hc. destruct (c v s); [reflexivity | apply Hm].
Qed.

Lemma blind_deref_incr : layer_blind deref_incr.
Proof.
  intros L v s. unfold deref_incr. change (offset (keep L s)) with (offset s).
  destruct ((0 <=? offset s) && (offset s <? e v));
    [destruct (v !! Z.to_nat (offset s))|]; reflexivity.
Qed.

Create HintDb blind.
#[local] Hint Resolve blind_ret blind_raise blind_buffer_size blind_deref_incr : blind.
#[local] Hint Extern 1 (layer_blind (modify _)) =>
  apply blind_modify; intros; reflexivity : blind.
#[local] Hint Extern 1 (layer_blind (bind get _)) =>
  apply blind_get_bind; [intros | intros; reflexivity] : blind.
#[local] Hint Extern 2 (layer_blind (bind _ _)) => apply blind_bind; [|intros] : blind.
#[local] Hint Extern 2 (layer_blind (if _ then _ else _)) => apply blind_if : blind.
#[local] Hint Extern 2 (layer_blind (replicateM _ _)) => apply blind_replicateM : blind.
#[local] Hint Extern 2 (layer_blind (mapM _ _)) => apply blind_mapM; intros : blind.
#[local] Hint Extern 2 (layer_blind (foldM _ _ _)) => apply blind_foldM; intros : blind.
#[local] Hint Extern 3 (layer_blind (match ?x with _ => _ end)) => destruct x : blind.

Ltac blind_tac := unshelve (eauto 80 with blind).

Lemma blind_read32 : layer_blind read32.
Proof.
  apply (blind_guarded (fun v s => (offset s + 4 >? e v) || (offset s + 4 <? offset s)));
    [reflexivity|]. blind_tac.
Qed.

Lemma blind_read16 : layer_blind read16.
Proof.
  apply (blind_guarded (fun v s => (offset s + 2 >? e v) || (offset s + 2 <? offset s)));
    [reflexivity|]. blind_tac.
Qed.

Lemma blind_read8 : layer_blind read8.
Proof.
  apply (blind_guarded (fun v s => offset s + 1 >? e v)); [reflexivity|]. blind_tac.
Qed.

Lemma blind_skip amt : layer_blind (skip amt).
Proof.
  intros L v s. unfold skip. change (offset (keep L s)) with (offset s).
  destruct ((offset s + amt >? e v) || (offset s + amt <? offset s)); reflexivity.
Qed.

Lemma blind_copy_from_cursor n : layer_blind (copy_from_cursor n).
Proof.
  intros L v s. unfold copy_from_cursor. change (offset (keep L s)) with (offset s).
  destruct (n =? 0); [|destruct ((0 <=? offset s) && (offset s + n <=? e v))];
    reflexivity.
Qed.

Lemma blind_log fn text : layer_blind (log fn text).
Proof. unfold log. blind_tac. Qed.

Lemma blind_advance n : layer_blind (advance n).
Proof. unfold advance. blind_tac. Qed.

Lemma blind_check fn ok text : layer_blind (check fn ok text).
Proof.
  unfold check. destruct ok; [blind_tac|].
  apply blind_bind; [apply blind_log | intros _; apply blind_raise].
Qed.

#[local] Hint Resolve blind_read32 blind_read16 blind_read8 : blind.
#[local] Hint Extern 1 (layer_blind (skip _)) => apply blind_skip : blind.
#[local] Hint Extern 1 (layer_blind (copy_from_cursor _)) =>
  apply blind_copy_from_cursor : blind.
#[local] Hint Extern 1 (layer_blind (log _ _)) => apply blind_log : blind.
#[local] Hint Extern 1 (layer_blind (advance _)) => apply blind_advance : blind.
#[local] Hint Extern 1 (layer_blind (check _ _ _)) => apply blind_check : blind.

Lemma blind_name_padding n : forall len, layer_blind (name_padding n len).
Proof. induction n as [|n IH]; intros len; simpl; blind_tac. Qed.
#[local] Hint Resolve blind_name_padding : blind.

Lemma blind_rle_loop fuel area : forall d, layer_blind (rle_loop fuel area d).
Proof.
  induction fuel as [|fuel IH]; intros d; simpl; [blind_tac|].
  apply blind_if; [|blind_tac].
  apply blind_bind; [unfold rle_step; blind_tac | intros d'; apply IH].
Qed.
#[local] Hint Resolve blind_rle_loop : blind.

Lemma blind_read_header fn : layer_blind (read_header fn).
Proof. unfold read_header, set_height, set_width. blind_tac. Qed.

Lemma blind_read_layers fn : layer_blind (read_layers fn).
Proof.
  unfold read_layers, read_layer_count, read_layer_record, read_channel_info, read_name,
    decode_layer, decode_channel.
  blind_tac.
Qed.

Lemma blind_reconstruct fn raw : layer_blind (reconstruct fn raw).
Proof.
  unfold reconstruct. apply blind_foldM. intros loc l.
  unfold reconstruct_step, warn_channel.
  destruct (is_group l); [blind_tac|].
  apply blind_get_bind; [intros s0 | reflexivity].
  apply blind_bind; [|blind_tac].
  apply blind_modify. intros L s. unfold keep, set_self. simpl.
  rewrite app_assoc. reflexivity.
Qed.

(** X25: [load] neither reads nor drops the layers the object already
    has: with layers [L] put in front, it returns the same outcome,
    prints the same, leaves the cursor and the canvas size the same and
    builds the same layers, behind [L]. *)
Theorem load_keeps_earlier_layers fn L v s :
  load fn v (keep L s) = (fst (load fn v s), keep L (snd (load fn v s))).
Proof.
  assert (layer_blind (load fn)) as H; [|apply H].
  unfold load.
  apply blind_bind; [intros L' v' s'; destruct v'; reflexivity | intros _].
  apply blind_bind; [apply blind_read_header | intros _].
  apply blind_bind; [apply blind_read_layers | intros raw].
  apply blind_bind; [apply blind_reconstruct | intros loc; apply blind_ret].
Qed.

(** ** Reading back what a writer wrote *)

Lemma reads_ret {A} o (a : A) : reads o (ret a) [] a.
Proof.
  intros v s r Ho Hu. exists s. simpl in *. rewrite Z.add_0_r. auto.
Qed.

Lemma reads_bind {A B} o (m : M A) (f : A -> M B) bs bs' a b :
  reads o m bs a -> reads (o + Z.of_nat (length bs)) (f a) bs' b ->
  reads o (bind m f) (bs ++ bs') b.
Proof.
  intros Hm Hf v s r Ho Hu. rewrite <- app_assoc in Hu.
  destruct (Hm v s _ Ho Hu) as (s1 & Hrun & Hu1 & Ho1 & Hs1 & Hc1).
  destruct (Hf v s1 r Ho1 Hu1) as (s2 & Hrun2 & Hu2 & Ho2 & Hs2 & Hc2).
  exists s2. rewrite (bind_run _ _ _ _ _ _ Hrun).
  split; [exact Hrun2|]. split; [exact Hu2|].
  split; [rewrite Ho2, length_app; lia|]. split; congruence.
Qed.

Lemma reads_bind_nil {A B} o (m : M A) (f : A -> M B) bs a b :
  reads o m [] a -> reads o (f a) bs b -> reads o (bind m f) bs b.
Proof.
  intros Hm Hf. change bs with ([] ++ bs). apply (reads_bind o m f [] bs a b Hm).
  simpl. rewrite Z.add_0_r. exact Hf.
Qed.

Lemma reads_bind_last {A B} o (m : M A) (f : A -> M B) bs a b :
  reads o m bs a -> reads (o + Z.of_nat (length bs)) (f a) [] b ->
  reads o (bind m f) bs b.
Proof.
  intros Hm Hf. pose proof (reads_bind o m f bs [] a b Hm Hf) as H.
  rewrite app_nil_r in H. exact H.
Qed.

Lemma reads_bind_cons {A B} o (m : M A) (f : A -> M B) x bs a b :
  reads o m [x] a -> reads (o + 1) (f a) bs b -> reads o (bind m f) (x :: bs) b.
Proof. intros Hm Hf. exact (reads_bind o m f [x] bs a b Hm Hf). Qed.

Lemma reads_get_bind {B} o (f : machine -> M B) bs b :
  (forall s0, offset s0 = o -> reads o (f s0) bs b) -> reads o (bind get f) bs b.
Proof. intros H v s r Ho Hu. unfold bind, get. apply (H s Ho v s r Ho Hu). Qed.

Lemma reads_modify o f :
  (forall s, offset (f s) = offset s /\ self (f s) = self s /\ cerr (f s) = cerr s) ->
  reads o (modify f) [] tt.
Proof.
  intros Hf v s r Ho [Hin Hd]. destruct (Hf s) as (H1 & H2 & H3).
  exists (f s). split; [reflexivity|]. unfold unread. rewrite H1.
  simpl. rewrite Z.add_0_r. auto.
Qed.

Lemma reads_at {A} o o' (m : M A) bs a : o = o' -> reads o m bs a -> reads o' m bs a.
Proof. intros ->. auto. Qed.

Lemma unread_step v s n pre r :
  unread v s (pre ++ r) -> n = Z.of_nat (length pre) ->
  unread v (set_offset (offset s + n) s) r /\ offset s + n <= e v.
Proof.
  intros [Hin Hd] ->. apply drop_prefix in Hd as [Hd Hlen].
  unfold unread, e in *. simpl.
  assert (offset s + Z.of_nat (length pre) <= Z.of_nat (length v)) by lia.
  split; [|assumption]. split; [lia|].
  replace (Z.to_nat (offset s + Z.of_nat (length pre)))
    with (Z.to_nat (offset s) + length pre)%nat by lia.
  exact Hd.
Qed.

Lemma be32_value z :
  0 <= z < 2 ^ 32 ->
  (z / 2 ^ 24 mod 256) * 2 ^ 24 + (z / 2 ^ 16 mod 256) * 2 ^ 16
  + (z / 2 ^ 8 mod 256) * 2 ^ 8 + z mod 256 = z.
Proof.
  intros Hz.
  change (2 ^ 32) with 4294967296 in Hz.
  change (2 ^ 24) with 16777216. change (2 ^ 16) with 65536. change (2 ^ 8) with 256.
  Z.div_mod_to_equations. lia.
Qed.

Lemma be16_value z :
  0 <= z < 2 ^ 16 -> (z / 2 ^ 8 mod 256) * 2 ^ 8 + z mod 256 = z.
Proof.
  intros Hz. change (2 ^ 16) with 65536 in Hz. change (2 ^ 8) with 256.
  Z.div_mod_to_equations. lia.
Qed.

Lemma u8_byte_of_mod z : u8 (byte_of (z mod 256)) = z mod 256.
Proof. apply u8_byte_of. apply Z.mod_pos_bound. lia. Qed.

Lemma lookup_next (v : list byte) i k x :
  0 <= i -> v !! (k + Z.to_nat i)%nat = Some x -> v !! Z.to_nat (i + Z.of_nat k) = Some x.
Proof.
  intros Hi H. replace (Z.to_nat (i + Z.of_nat k)) with (k + Z.to_nat i)%nat by lia.
  exact H.
Qed.

Lemma reads_read32 o z : 0 <= z < 2 ^ 32 -> reads o read32 (be32 z) z.
Proof.
  intros Hz v s r Ho Hu.
  destruct (unread_step v s 4 (be32 z) r Hu eq_refl) as [Hu' He].
  destruct Hu as [Hin Hd]. unfold be32 in Hd. cbn [app] in Hd.
  destruct (drop_head _ _ _ _ Hd) as [H0 Hd1].
  destruct (drop_head _ _ _ _ Hd1) as [H1 Hd2].
  destruct (drop_head _ _ _ _ Hd2) as [H2 Hd3].
  destruct (drop_head _ _ _ _ Hd3) as [H3 _].
  exists (set_offset (offset s + 4) s).
  rewrite (read32_at v s _ _ _ _ (proj1 Hin) H0
             (lookup_next v (offset s) 1 _ (proj1 Hin) H1)
             (lookup_next v (offset s) 2 _ (proj1 Hin) H2)
             (lookup_next v (offset s) 3 _ (proj1 Hin) H3)).
  rewrite !u8_byte_of_mod, be32_value by exact Hz.
  split; [reflexivity|]. split; [exact Hu'|]. simpl. split; [lia | auto].
Qed.

Lemma reads_read16 o z : 0 <= z < 2 ^ 16 -> reads o read16 (be16 z) z.
Proof.
  intros Hz v s r Ho Hu.
  destruct (unread_step v s 2 (be16 z) r Hu eq_refl) as [Hu' He].
  destruct Hu as [Hin Hd]. unfold be16 in Hd. cbn [app] in Hd.
  destruct (drop_head _ _ _ _ Hd) as [H0 Hd1].
  destruct (drop_head _ _ _ _ Hd1) as [H1 _].
  exists (set_offset (offset s + 2) s).
  rewrite (read16_at v s _ _ (proj1 Hin) H0
             (lookup_next v (offset s) 1 _ (proj1 Hin) H1)).
  rewrite !u8_byte_of_mod, be16_value by exact Hz.
  split; [reflexivity|]. split; [exact Hu'|]. simpl. split; [lia | auto].
Qed.

Lemma reads_read8 o b : reads o read8 [b] (u8 b).
Proof.
  intros v s r Ho Hu.
  destruct (unread_step v s 1 [b] r Hu eq_refl) as [Hu' He].
  destruct Hu as [Hin Hd]. cbn [app] in Hd.
  destruct (drop_head _ _ _ _ Hd) as [H0 _].
  exists (set_offset (offset s + 1) s).
  rewrite (read8_at v s b (proj1 Hin) H0).
  split; [reflexivity|]. split; [exact Hu'|]. simpl. split; [lia | auto].
Qed.

Lemma reads_skip o pre : reads o (skip (Z.of_nat (length pre))) pre tt.
Proof.
  intros v s r Ho Hu.
  destruct (unread_step v s _ pre r Hu eq_refl) as [Hu' He].
  exists (set_offset (offset s + Z.of_nat (length pre)) s).
  rewrite skip_run by lia.
  split; [reflexivity|]. split; [exact Hu'|]. simpl. split; [lia | auto].
Qed.

Lemma reads_bytes o bs : reads o (replicateM (length bs) read8) bs (map u8 bs).
Proof.
  intros v s r Ho Hu.
  destruct (unread_step v s _ bs r Hu eq_refl) as [Hu' He].
  destruct Hu as [Hin Hd].
  exists (set_offset (offset s + Z.of_nat (length bs)) s).
  rewrite replicateM_read8_run by lia. rewrite Hd, take_app_length.
  split; [reflexivity|]. split; [exact Hu'|]. simpl. split; [lia | auto].
Qed.

Lemma reads_check o fn ok text : ok = true -> reads o (check fn ok text) [] tt.
Proof. intros ->. apply reads_ret. Qed.

Lemma reads_replicateM_list {A X} (m : M A) (enc : X -> list byte) (g : X -> A) xs :
  (forall x, In x xs -> forall o, reads o m (enc x) (g x)) ->
  forall o, reads o (replicateM (length xs) m) (flat_map enc xs) (map g xs).
Proof.
  induction xs as [|x xs IH]; intros Hm o; simpl; [apply reads_ret|].
  eapply reads_bind; [apply Hm; left; reflexivity|].
  eapply reads_bind_last; [apply IH; intros; apply Hm; right; assumption|].
  apply reads_ret.
Qed.

Lemma reads_mapM_list {A B X} (f : A -> M B) (enc : X -> list byte)
    (g : X -> A) (h : X -> B) xs :
  (forall x, In x xs -> forall o, reads o (f (g x)) (enc x) (h x)) ->
  forall o, reads o (mapM f (map g xs)) (flat_map enc xs) (map h xs).
Proof.
  induction xs as [|x xs IH]; intros Hm o; simpl; [apply reads_ret|].
  eapply reads_bind; [apply Hm; left; reflexivity|].
  eapply reads_bind_last; [apply IH; intros; apply Hm; right; assumption|].
  apply reads_ret.
Qed.

Lemma reads_name_padding k : forall len o ps,
  0 <= len -> Z.of_nat (length ps) = (4 - len mod 4) mod 4 -> (length ps <= k)%nat ->
  reads o (name_padding k len) ps tt.
Proof.
  induction k as [|k IH]; intros len o ps Hlen Hps Hk.
  - destruct ps; [apply reads_ret | simpl in Hk; lia].
  - simpl. change 3 with (Z.ones 2). rewrite Z.land_ones by lia. change (2 ^ 2) with 4.
    destruct (Z.eqb_spec (len mod 4) 0) as [Hz|Hnz].
    + rewrite Hz in Hps. change ((4 - 0) mod 4) with 0 in Hps.
      destruct ps; [apply reads_ret | simpl in Hps; lia].
    + pose proof (Z.mod_pos_bound len 4 ltac:(lia)) as Hr.
      rewrite (Z.mod_small (4 - len mod 4)) in Hps by lia.
      destruct ps as [|x ps]; [simpl in Hps; lia|].
      eapply reads_bind_cons; [apply reads_read8|].
      apply IH; [apply wrap32_range | | simpl in Hk; lia].
      simpl length in Hps. unfold wrap32. change (2 ^ 32) with 4294967296.
      Z.div_mod_to_equations. lia.
Qed.

Lemma list_byte_of_string_length nm :
  length (list_byte_of_string nm) = String.length nm.
Proof.
  rewrite <- (string_of_list_byte_of_string nm) at 2.
  symmetry. apply string_of_list_byte_length.
Qed.

Lemma pascal_length nm : (length (pascal nm) <= String.length nm + 4)%nat.
Proof.
  unfold pascal. simpl. rewrite length_app, length_replicate, list_byte_of_string_length.
  pose proof (Nat.mod_upper_bound (4 - S (String.length nm) mod 4) 4 ltac:(lia)). lia.
Qed.

Lemma reads_read_name o nm :
  (String.length nm < 256)%nat -> reads o read_name (pascal nm) nm.
Proof.
  intros Hnm. unfold read_name, pascal. cbv zeta.
  pose proof (list_byte_of_string_length nm) as Hlen.
  eapply reads_bind_cons; [apply reads_read8|].
  rewrite u8_byte_of by lia.
  replace (Z.to_nat (1 + Z.of_nat (length (list_byte_of_string nm)) - 1))
    with (length (list_byte_of_string nm)) by lia.
  eapply reads_bind; [apply reads_bytes|].
  eapply reads_bind_last.
  - apply reads_name_padding; [lia | | ].
    + rewrite length_replicate.
      pose proof (Nat.mod_upper_bound (S (length (list_byte_of_string nm))) 4 ltac:(lia)).
      pose proof (Nat.mod_upper_bound
                    (4 - S (length (list_byte_of_string nm)) mod 4) 4 ltac:(lia)).
      rewrite Nat2Z.inj_mod, Nat2Z.inj_sub, Nat2Z.inj_mod by lia.
      repeat f_equal. lia.
    + rewrite length_replicate.
      pose proof (Nat.mod_upper_bound
                    (4 - S (length (list_byte_of_string nm)) mod 4) 4 ltac:(lia)).
      lia.
  - rewrite string_of_chars_bytes, string_of_list_byte_of_string. apply reads_ret.
Qed.

Lemma int16_of_mod k : - 2 ^ 15 <= k < 2 ^ 15 -> int16_of (k mod 2 ^ 16) = k.
Proof.
  intros Hk. unfold int16_of, wrap16. rewrite Z.mod_mod by lia.
  change (2 ^ 15) with 32768 in *. change (2 ^ 16) with 65536.
  destruct (Z.ltb_spec (k mod 65536) 32768); Z.div_mod_to_equations; lia.
Qed.

Lemma reads_read_channel_info o k :
  - 2 ^ 15 <= k < 2 ^ 15 ->
  reads o read_channel_info (be16 (k mod 2 ^ 16) ++ be32 0) (mk_channel k []).
Proof.
  intros Hk. unfold read_channel_info.
  eapply reads_bind; [apply reads_read16, Z.mod_pos_bound; lia|].
  apply reads_get_bind. intros s0 _.
  eapply reads_bind_last; [apply reads_read32; lia|].
  eapply reads_bind_nil; [apply reads_modify; intros; auto|].
  rewrite int16_of_mod by exact Hk. apply reads_ret.
Qed.

(** A record as [layer_record] lays it out is read back field by field. *)
Lemma reads_layer_record fn o t lf b r kinds flags nm :
  0 <= t < 2 ^ 32 -> 0 <= lf < 2 ^ 32 -> 0 <= b < 2 ^ 32 -> 0 <= r < 2 ^ 32 ->
  Z.of_nat (length kinds) < 2 ^ 16 ->
  Forall (fun k => - 2 ^ 15 <= k < 2 ^ 15) kinds ->
  0 <= flags < 256 ->
  (String.length nm < 256)%nat ->
  reads o (read_layer_record fn) (layer_record t lf b r kinds 0 flags nm)
    (mk_raw_layer t lf b r nm (Z.land flags 0x18 =? 0x18)
       (map (fun k => mk_channel k []) kinds)).
Proof.
  intros Ht Hl Hb Hr Hn Hkinds Hflags Hnm.
  pose proof (pascal_length nm) as Hpl.
  unfold read_layer_record, layer_record.
  eapply reads_bind; [apply reads_read32; assumption|].
  eapply reads_bind; [apply reads_read32; assumption|].
  eapply reads_bind; [apply reads_read32; assumption|].
  eapply reads_bind; [apply reads_read32; assumption|].
  eapply reads_bind; [apply reads_read16; lia|].
  rewrite Nat2Z.id.
  eapply reads_bind.
  { apply (reads_replicateM_list read_channel_info
             (fun k => be16 (k mod 2 ^ 16) ++ be32 0) (fun k => mk_channel k [])).
    intros k Hk o'. apply reads_read_channel_info.
    exact (proj1 (List.Forall_forall _ _) Hkinds k Hk). }
  eapply reads_bind; [apply reads_read32; lia|].
  eapply reads_bind_nil; [apply reads_check; reflexivity|].
  eapply reads_bind; [apply reads_read32; lia|].
  unfold octets. cbn [map app].
  eapply reads_bind_cons; [apply reads_read8|].
  eapply reads_bind_cons; [apply reads_read8|].
  eapply reads_bind_cons; [apply reads_read8|].
  eapply reads_bind_cons; [apply reads_read8|].
  eapply reads_bind; [apply reads_read32; lia|].
  apply reads_get_bind. intros s0 Hs0.
  eapply reads_bind; [apply reads_read32; lia|].
  eapply reads_bind_nil; [apply (reads_skip _ [])|].
  eapply reads_bind; [apply reads_read32; lia|].
  eapply reads_bind_nil; [apply (reads_skip _ [])|].
  eapply reads_bind_last; [apply reads_read_name; exact Hnm|].
  apply reads_get_bind. intros s1 Hs1.
  rewrite Hs0, Hs1.
  match goal with |- context [size_t_of ?d] => replace d with 0 by (simpl length; lia) end.
  eapply reads_bind_nil; [apply (reads_skip _ [])|].
  rewrite u8_byte_of by exact Hflags. apply reads_ret.
Qed.

Lemma reads_raw_channel fn o w h k d :
  Z.of_nat (length d) = wrap32 (w * h) ->
  reads o (decode_channel fn w h (mk_channel k [])) (be16 0 ++ d) (mk_channel k d).
Proof.
  intros Harea. unfold decode_channel.
  eapply reads_bind; [apply reads_read16; lia|].
  change (0 =? 0) with true. cbv iota. rewrite <- Harea. simpl kind. simpl data.
  intros v s r Ho Hu.
  destruct (unread_step v s _ d r Hu eq_refl) as [Hu' He].
  destruct Hu as [Hin Hd].
  exists (set_offset (offset s + Z.of_nat (length d)) s).
  assert (copy_from_cursor (Z.of_nat (length d)) v s = (Ok d, s)) as Hcopy.
  { unfold copy_from_cursor.
    destruct (Z.eqb_spec (Z.of_nat (length d)) 0) as [Hz|Hnz].
    - destruct d; [reflexivity | simpl in Hz; lia].
    - destruct (Z.leb_spec 0 (offset s)); [|lia].
      destruct (Z.leb_spec (offset s + Z.of_nat (length d)) (e v)); [|lia].
      simpl. rewrite Nat2Z.id, Hd, take_app_length. reflexivity. }
  rewrite (bind_run _ _ _ _ _ _ Hcopy).
  split; [reflexivity|]. split; [exact Hu'|]. simpl. split; [|auto].
  exact (f_equal (fun z => z + Z.of_nat (length d)) Ho).
Qed.

Lemma reads_decode_layer fn o l :
  Forall (fun c => Z.of_nat (length (data c)) = layer_area l) (channels l) ->
  reads o (decode_layer fn
             (with_channels l (map (fun c => mk_channel (kind c) []) (channels l))))
    (raw_data_of l) l.
Proof.
  intros Hall. unfold decode_layer, raw_data_of, with_channels. simpl.
  eapply reads_bind_last.
  - apply (reads_mapM_list _ (fun c => be16 0 ++ data c)
             (fun c => mk_channel (kind c) []) (fun c => c)).
    intros c Hc o'. destruct c as [k d]. simpl.
    apply reads_raw_channel.
    apply (proj1 (List.Forall_forall _ _) Hall) in Hc. simpl in Hc.
    rewrite Hc. reflexivity.
  - rewrite map_id. destruct l. apply reads_ret.
Qed.

Lemma reads_layer_count o n :
  0 <= n < 2 ^ 15 -> reads o read_layer_count (layer_section n) n.
Proof.
  intros Hn. unfold read_layer_count, layer_section.
  eapply reads_bind; [apply reads_read32; lia|].
  eapply reads_bind; [apply reads_read32; lia|].
  eapply reads_bind_last; [apply reads_read16; lia|].
  assert (int16_of n = n) as Hcount.
  { unfold int16_of, wrap16. rewrite Z.mod_small by lia.
    destruct (Z.ltb_spec n (2 ^ 15)); lia. }
  assert ((n <? 0) = false) as Hpos by (apply Z.ltb_ge; lia).
  cbv zeta. rewrite Hcount, Hpos, Hpos. apply reads_ret.
Qed.

Lemma flag_round_trip (g : bool) : (Z.land (if g then 0x18 else 0) 0x18 =? 0x18) = g.
Proof. destruct g; reflexivity. Qed.

Lemma reads_record_of fn o l :
  writable l ->
  reads o (read_layer_record fn) (record_of l)
    (with_channels l (map (fun c => mk_channel (kind c) []) (channels l))).
Proof.
  intros (Hbox & Hn & Hnm & Hchs). destruct Hbox as (Ht & Hl & Hb & Hr).
  unfold record_of, with_channels.
  rewrite <- (flag_round_trip (is_group l)) at 2.
  rewrite <- (map_map kind (fun k => mk_channel k [])).
  apply reads_layer_record; try assumption.
  - rewrite length_map. exact Hn.
  - apply List.Forall_map. eapply List.Forall_impl; [|exact Hchs].
    simpl. intros c [Hk _]. exact Hk.
  - destruct (is_group l); lia.
Qed.

(** The layer section: what [read_layers] returns is what was written. *)
Lemma reads_layers fn o ls :
  Z.of_nat (length ls) < 2 ^ 15 -> Forall writable ls ->
  reads o (read_layers fn)
    (layer_section (Z.of_nat (length ls)) ++ flat_map record_of ls
     ++ flat_map raw_data_of ls) ls.
Proof.
  intros Hn Hall. unfold read_layers.
  eapply reads_bind; [apply reads_layer_count; lia|].
  rewrite Nat2Z.id.
  eapply reads_bind.
  { apply (reads_replicateM_list (read_layer_record fn) record_of
             (fun l => with_channels l
                         (map (fun c => mk_channel (kind c) []) (channels l)))).
    intros l Hl o'. apply reads_record_of.
    exact (proj1 (List.Forall_forall _ _) Hall l Hl). }
  assert (forall o', reads o' (mapM (decode_layer fn)
            (map (fun l => with_channels l
                              (map (fun c => mk_channel (kind c) []) (channels l))) ls))
            (flat_map raw_data_of ls) (map (fun l => l) ls)) as Hdata.
  { apply (reads_mapM_list (decode_layer fn) raw_data_of
             (fun l => with_channels l
                         (map (fun c => mk_channel (kind c) []) (channels l)))
             (fun l => l)).
    intros l Hl o'. apply reads_decode_layer.
    destruct (proj1 (List.Forall_forall _ _) Hall l Hl) as (_ & _ & _ & Hchs).
    eapply List.Forall_impl; [|exact Hchs]. simpl. intros c [_ Hc]. exact Hc. }
  rewrite map_id in Hdata. apply Hdata.
Qed.

Lemma word32_at_drop v i z :
  0 <= i -> 0 <= z < 2 ^ 32 ->
  (exists r, drop (Z.to_nat i) v = be32 z ++ r) -> word32_at v i z.
Proof.
  intros Hi Hz [r Hd]. unfold be32 in Hd. cbn [app] in Hd.
  destruct (drop_head _ _ _ _ Hd) as [H0 Hd1].
  destruct (drop_head _ _ _ _ Hd1) as [H1 Hd2].
  destruct (drop_head _ _ _ _ Hd2) as [H2 Hd3].
  destruct (drop_head _ _ _ _ Hd3) as [H3 _].
  split; [exact Hi|]. do 4 eexists.
  split; [exact H0|].
  split; [exact (lookup_next v i 1 _ Hi H1)|].
  split; [exact (lookup_next v i 2 _ Hi H2)|].
  split; [exact (lookup_next v i 3 _ Hi H3)|].
  rewrite !u8_byte_of_mod. symmetry. apply be32_value, Hz.
Qed.

Lemma word16_at_drop v i z :
  0 <= i -> 0 <= z < 2 ^ 16 ->
  (exists r, drop (Z.to_nat i) v = be16 z ++ r) -> word16_at v i z.
Proof.
  intros Hi Hz [r Hd]. unfold be16 in Hd. cbn [app] in Hd.
  destruct (drop_head _ _ _ _ Hd) as [H0 Hd1].
  destruct (drop_head _ _ _ _ Hd1) as [H1 _].
  split; [exact Hi|]. do 2 eexists.
  split; [exact H0|].
  split; [exact (lookup_next v i 1 _ Hi H1)|].
  rewrite !u8_byte_of_mod. symmetry. apply be16_value, Hz.
Qed.

(** The header stage on a written file. *)
Lemma read_header_written fn p h w rest :
  0 <= h < 2 ^ 32 -> 0 <= w < 2 ^ 32 ->
  read_header fn (file_header h w 8 ++ rest) (start p)
  = (Ok tt, mk_machine 34 (mk_psd w h (layers p)) [] []) /\
  unread (file_header h w 8 ++ rest) (mk_machine 34 (mk_psd w h (layers p)) [] []) rest.
Proof.
  intros Hh Hw.
  assert (e (file_header h w 8 ++ rest) = 34 + e rest) as He.
  { unfold e. rewrite length_app. change (length (file_header h w 8)) with 34%nat. lia. }
  split.
  - change 34 with (34 + 0 + 0) at 1.
    apply read_header_run.
    + apply word32_at_drop; [lia | lia | eexists; reflexivity].
    + apply word16_at_drop; [lia | lia | eexists; reflexivity].
    + apply word32_at_drop; [lia | exact Hh | eexists; reflexivity].
    + apply word32_at_drop; [lia | exact Hw | eexists; reflexivity].
    + apply word16_at_drop; [lia | lia | eexists; reflexivity].
    + apply word16_at_drop; [lia | lia | eexists; reflexivity].
    + apply word32_at_drop; [lia | lia | eexists; reflexivity].
    + apply word32_at_drop; [lia | lia | eexists; reflexivity].
    + rewrite He. unfold e. lia.
  - split; [simpl offset; rewrite He; unfold e; lia|].
    simpl offset. change (Z.to_nat 34) with (length (file_header h w 8)).
    apply drop_app_length.
Qed.

Lemma unread_nil v s : unread v s [] -> offset s = e v.
Proof.
  intros [Hin Hd]. apply (f_equal length) in Hd. rewrite length_drop in Hd.
  simpl in Hd. unfold e in *. lia.
Qed.

(** The parse of a written file. *)
Lemma parse_written fn p h w ls :
  0 <= h < 2 ^ 32 -> 0 <= w < 2 ^ 32 ->
  Z.of_nat (length ls) < 2 ^ 15 -> Forall writable ls ->
  exists s1,
    read_layers fn (file_of h w ls) (mk_machine 34 (mk_psd w h (layers p)) [] [])
    = (Ok ls, s1) /\
    offset s1 = e (file_of h w ls) /\
    self s1 = mk_psd w h (layers p) /\ cerr s1 = [].
Proof.
  intros Hh Hw Hn Hall. unfold file_of.
  destruct (read_header_written fn p h w
              (layer_section (Z.of_nat (length ls))
               ++ flat_map record_of ls ++ flat_map raw_data_of ls) Hh Hw) as [_ Hu].
  destruct Hu as [Hin Hd].
  destruct (reads_layers fn 34 ls Hn Hall _
              (mk_machine 34 (mk_psd w h (layers p)) [] []) [] eq_refl
              (conj Hin (eq_trans Hd (eq_sym (app_nil_r _)))))
    as (s1 & Hrun & Hu1 & _ & Hs1 & Hc1).
  exists s1.
  split; [exact Hrun|]. split; [apply unread_nil, Hu1|]. auto.
Qed.

(** X26: reading back what was written.  For layers whose fields fit
    their formats and whose channels hold exactly the area of the box,
    the file made of the header, the layer count, the records and the
    raw image data is accepted, and the parse returns exactly the layers
    that were written - boxes, names, group flags, kinds and data - with
    the cursor at the end of the file and nothing printed. *)
Theorem written_layers_are_read_back fn p h w ls :
  0 <= h < 2 ^ 32 -> 0 <= w < 2 ^ 32 ->
  Z.of_nat (length ls) < 2 ^ 15 -> Forall writable ls ->
  exists s0 s1,
    read_header fn (file_of h w ls) (start p) = (Ok tt, s0) /\
    read_layers fn (file_of h w ls) s0 = (Ok ls, s1) /\
    offset s1 = e (file_of h w ls) /\
    self s1 = mk_psd w h (layers p) /\ cerr s1 = [].
Proof.
  intros Hh Hw Hn Hall.
  destruct (parse_written fn p h w ls Hh Hw Hn Hall) as (s1 & Hrun & Ho & Hs & Hc).
  exists (mk_machine 34 (mk_psd w h (layers p)) [] []), s1.
  split; [apply read_header_written; assumption | auto].
Qed.

Lemma written_layers_are_read_back_witness :
  exists s0 s1,
    read_header "f.psd"
      (file_of 1 1 [mk_raw_layer 0 0 1 1 "B" false [mk_channel 0 [x05]]])
      (start (mk_psd 0 0 [])) = (Ok tt, s0) /\
    read_layers "f.psd"
      (file_of 1 1 [mk_raw_layer 0 0 1 1 "B" false [mk_channel 0 [x05]]]) s0
    = (Ok [mk_raw_layer 0 0 1 1 "B" false [mk_channel 0 [x05]]], s1) /\
    offset s1 = e (file_of 1 1 [mk_raw_layer 0 0 1 1 "B" false [mk_channel 0 [x05]]]) /\
    self s1 = mk_psd 1 1 (layers (mk_psd 0 0 [])) /\ cerr s1 = [].
Proof.
  apply (written_layers_are_read_back "f.psd" (mk_psd 0 0 []) 1 1
           [mk_raw_layer 0 0 1 1 "B" false [mk_channel 0 [x05]]]);
    [lia | lia | simpl; lia |].
  repeat constructor; simpl; lia.
Defined.



